(** * Sculpt expand falloffs and grease-pencil region fill

    A shallow embedding of the algorithmic core of
    [source/blender/editors/gpencil/gpencil_fill.c] and
    [source/blender/editors/sculpt_paint/sculpt_expand.c], with the
    properties of the specification stated and settled against it.

    C [int] values are modelled as [Z] (images and meshes are assumed to
    stay inside the [int] range), C [float] values as IEEE-754 binary32
    numbers ([spec_float] at precision 24, maximal exponent 128), arrays as
    lists read with stdpp's lookup and written with stdpp's insert. *)

From Stdlib Require Import ZArith List Bool Lia.
From Stdlib Require Import Floats.SpecFloat.
From stdpp Require Import base list.

Local Open Scope Z_scope.

(** ** Single precision floats *)

Module F32.

Definition prec : Z := 24.
Definition emax : Z := 128.

Definition float := spec_float.

Definition zero : float := S754_zero false.
Definition one : float := S754_finite false 8388608 (-23).
(** [FLT_MAX], the largest finite binary32 number. *)
Definition FLT_MAX : float := S754_finite false 16777215 104.
Definition infinity : float := S754_infinity false.

Definition add : float -> float -> float := SFadd prec emax.
Definition sub : float -> float -> float := SFsub prec emax.
Definition mul : float -> float -> float := SFmul prec emax.
Definition div : float -> float -> float := SFdiv prec emax.
Definition eqb : float -> float -> bool := SFeqb.
Definition ltb : float -> float -> bool := SFltb.
Definition leb : float -> float -> bool := SFleb.

(** Conversion of a C [int] to [float] (round to nearest even). *)
Definition of_int (n : Z) : float := binary_normalize prec emax n 0 false.

(** The C cast [(int)f]: truncation toward zero.  The cast of a NaN or of
    an infinity is undefined in C; the model returns 0 there. *)
Definition to_int (f : float) : Z :=
  match f with
  | S754_finite s m e =>
      let mag := if 0 <=? e then Z.pos m * 2 ^ e else Z.pos m / 2 ^ (- e) in
      if s then - mag else mag
  | _ => 0
  end.

(** [min_ff] and [max_ff] of the math library: [(a < b) ? a : b] and
    [(a > b) ? a : b]. *)
Definition min_ff (a b : float) : float := if ltb a b then a else b.
Definition max_ff (a b : float) : float := if ltb b a then a else b.

(** Structural equality of two floats. *)
Definition same (a b : float) : bool :=
  match a, b with
  | S754_zero s, S754_zero s' => Bool.eqb s s'
  | S754_infinity s, S754_infinity s' => Bool.eqb s s'
  | S754_nan, S754_nan => true
  | S754_finite s m e, S754_finite s' m' e' =>
      Bool.eqb s s' && Pos.eqb m m' && Z.eqb e e'
  | _, _ => false
  end.

(** Adding 1.0 to the float of [d] gives the float of [d + 1], checked for
    the [n] integers from [d] on. *)
Fixpoint succ_exact (n : nat) (d : Z) : bool :=
  match n with
  | O => true
  | S n => same (add (of_int d) one) (of_int (d + 1)) && succ_exact n (d + 1)
  end.

End F32.

(** ** The raster canvas ([ImBuf]) *)

Module Fill.

(** An RGBA pixel of the float buffer. *)
Record rgba := RGBA { red : F32.float; green : F32.float;
                      blue : F32.float; alpha : F32.float }.

Definition zero_v4 : rgba := RGBA F32.zero F32.zero F32.zero F32.zero.

(** [ImBuf]: width [x], height [y] and the float buffer.  The 8-bit
    mirror [rect] is only ever written by the functions below, never read,
    so it is left out. *)
Record ImBuf := mkImBuf { x : Z; y : Z; rect_float : list rgba }.

(** A canvas is well formed when the buffer has one pixel per index. *)
Definition wf_ibuf (ibuf : ImBuf) : Prop :=
  0 < x ibuf /\ 0 < y ibuf
  /\ Z.of_nat (length (rect_float ibuf)) = x ibuf * y ibuf.

(** [get_pixel]: reading outside the buffer is out of bounds in C; the
    model returns the zero pixel there. *)
Definition get_pixel (ibuf : ImBuf) (idx : Z) : rgba :=
  if idx <? 0 then zero_v4
  else default zero_v4 (rect_float ibuf !! Z.to_nat idx).

(** [set_pixel]: writing outside the buffer is out of bounds in C; the
    model leaves the buffer unchanged there. *)
Definition set_pixel (ibuf : ImBuf) (idx : Z) (col : rgba) : ImBuf :=
  if idx <? 0 then ibuf
  else mkImBuf (x ibuf) (y ibuf) (<[Z.to_nat idx := col]> (rect_float ibuf)).

Definition is_red (p : rgba) : bool := F32.eqb (red p) F32.one.
Definition is_green (p : rgba) : bool := F32.eqb (green p) F32.one.
Definition is_blue (p : rgba) : bool := F32.eqb (blue p) F32.one.

Definition LEAK_HORZ : Z := 0.
Definition LEAK_VERT : Z := 1.

(** The four scanning loops of [is_leak_narrow] have one shape: for [n]
    consecutive values of [i], compute a pixel index [pt i]; inside the
    tested range a red pixel ends the scan with [true], outside of it the
    image edge ends the scan with [true]. *)
Fixpoint leak_scan (ibuf : ImBuf) (pt : Z -> Z) (in_range : Z -> bool)
         (i : Z) (n : nat) : bool :=
  match n with
  | O => false
  | S n' =>
      if in_range (pt i) then
        if is_red (get_pixel ibuf (pt i)) then true
        else leak_scan ibuf pt in_range (i + 1) n'
      else true
  end.

Definition is_leak_narrow (ibuf : ImBuf) (maxpixel limit index type : Z) : bool :=
  let n := Z.to_nat limit in
  let '(t_a, t_b) :=
    if type =? LEAK_HORZ then
      (* pixels on top: for (i = 1; i <= limit; i++) *)
      (leak_scan ibuf (fun i => index + x ibuf * i) (fun pt => pt <=? maxpixel) 1 n,
      (* pixels on bottom *)
       leak_scan ibuf (fun i => index - x ibuf * i) (fun pt => 0 <=? pt) 1 n)
    else (false, false) in
  let '(t_a, t_b) :=
    if type =? LEAK_VERT then
      let row := index ÷ x ibuf in
      let lowpix := row * x ibuf in
      let higpix := lowpix + x ibuf - 1 in
      (* for (i = 0; i < limit; i++) pt = index -/+ (limit - i) *)
      (leak_scan ibuf (fun i => index - (limit - i)) (fun pt => lowpix <=? pt) 0 n,
       leak_scan ibuf (fun i => index + (limit - i)) (fun pt => pt <=? higpix) 0 n)
    else (t_a, t_b) in
  t_a && t_b.

Definition fill_col : rgba := RGBA F32.zero F32.one F32.zero F32.one.

(** The seed search of [gpencil_boundaryfill_area]:
    [for (int i = 0; i < maxpixel; i++)], first pixel whose blue channel
    is 1.0, or -1. *)
Fixpoint find_seed (ibuf : ImBuf) (i : Z) (n : nat) : Z :=
  match n with
  | O => -1
  | S n' => if is_blue (get_pixel ibuf i) then i else find_seed ibuf (i + 1) n'
  end.

(** One round of the [while (!BLI_stack_is_empty(stack))] loop on the
    popped pixel [v]: the new canvas and the pushes, last push first. *)
Definition fill_visit (leak : Z) (ibuf : ImBuf) (maxpixel v : Z) (stack : list Z)
  : ImBuf * list Z :=
  let p := get_pixel ibuf v in
  if negb (is_red p) && negb (is_green p) then
    let ibuf := set_pixel ibuf v fill_col in
    (* pixel left *)
    let stack :=
      if (0 <=? v - 1) && negb (is_leak_narrow ibuf maxpixel leak v LEAK_HORZ)
      then (v - 1) :: stack else stack in
    (* pixel right *)
    let stack :=
      if (v + 1 <=? maxpixel) && negb (is_leak_narrow ibuf maxpixel leak v LEAK_HORZ)
      then (v + 1) :: stack else stack in
    (* pixel top *)
    let stack :=
      if (v + x ibuf <=? maxpixel) && negb (is_leak_narrow ibuf maxpixel leak v LEAK_VERT)
      then (v + x ibuf) :: stack else stack in
    (* pixel bottom *)
    let stack :=
      if (0 <=? v - x ibuf) && negb (is_leak_narrow ibuf maxpixel leak v LEAK_VERT)
      then (v - x ibuf) :: stack else stack in
    (ibuf, stack)
  else (ibuf, stack).

(** The fill loop; [None] when the fuel runs out before the stack is
    empty. *)
Fixpoint fill_loop (fuel : nat) (leak : Z) (ibuf : ImBuf) (maxpixel : Z)
         (stack : list Z) : option ImBuf :=
  match stack with
  | [] => Some ibuf
  | v :: stack =>
      match fuel with
      | O => None
      | S fuel =>
          let '(ibuf, stack) := fill_visit leak ibuf maxpixel v stack in
          fill_loop fuel leak ibuf maxpixel stack
      end
  end.

Definition gpencil_boundaryfill_area (fuel : nat) (fill_leak : Z) (ibuf : ImBuf)
  : option ImBuf :=
  let maxpixel := x ibuf * y ibuf - 1 in
  let index := find_seed ibuf 0 (Z.to_nat maxpixel) in
  let stack := if (0 <=? index) && (index <=? maxpixel) then [index] else [] in
  fill_loop fuel fill_leak ibuf maxpixel stack.

(** ** [gpencil_invert_image] *)

Definition red_col : rgba := RGBA F32.one F32.zero F32.zero F32.one.
Definition green_col : rgba := RGBA F32.zero F32.one F32.zero F32.one.
Definition clear_px : rgba := RGBA F32.zero F32.zero F32.zero F32.zero.

Definition invert_color (color : rgba) : rgba :=
  if is_green color then red_col
  else if is_red color then green_col
  else clear_px.

(** [for (int v = maxpixel; v != 0; v--)]: the pixels [v], [v - 1], ...,
    [1] are remapped; the loop ends before index 0.  (With an empty image
    [maxpixel] is -1 and the C loop does not stop at 0; the model covers
    images with at least one pixel.) *)
Fixpoint invert_loop (ibuf : ImBuf) (v : nat) : ImBuf :=
  match v with
  | O => ibuf
  | S v' =>
      let idx := Z.of_nat v in
      invert_loop (set_pixel ibuf idx (invert_color (get_pixel ibuf idx))) v'
  end.

Definition gpencil_invert_image (ibuf : ImBuf) : ImBuf :=
  let maxpixel := x ibuf * y ibuf - 1 in
  invert_loop ibuf (Z.to_nat maxpixel).

(** ** [gpencil_erase_processed_area] *)

Definition blue_col : rgba := RGBA F32.zero F32.zero F32.one F32.one.

(** A point of the stroke buffer ([tGPspoint]); its coordinates are
    floats, cast to [int] when used as pixel coordinates. *)
Record tGPspoint := mkPoint { pt_x : F32.float; pt_y : F32.float }.





(** ** [gpencil_set_borders] *)

(** The table [fill_col[2][4]] of [gpencil_set_borders]: entry 0 is red,
    entry 1 is transparent. *)
Definition border_fill_col (coloridx : Z) : rgba :=
  if coloridx =? 0 then RGBA F32.one F32.zero F32.zero F32.one
  else RGBA F32.zero F32.zero F32.zero F32.zero.

(** The bottom and the top line, then the left and the right line, are
    set to [fill_col[coloridx]], where [coloridx] is 0 when [transparent]
    is set and 1 when it is not. *)
Definition gpencil_set_borders (ibuf : ImBuf) (transparent : bool) : ImBuf :=
  let coloridx := if transparent then 0 else 1 in
  (* horizontal lines *)
  let ibuf :=
    fold_left
      (fun ib idx =>
         (* bottom line *)
         let ib := set_pixel ib idx (border_fill_col coloridx) in
         (* top line *)
         let pixel := idx + x ib * (y ib - 1) in
         set_pixel ib pixel (border_fill_col coloridx))
      (seqZ 0 (x ibuf)) ibuf in
  (* vertical lines *)
  fold_left
    (fun ib idx =>
       (* left line *)
       let ib := set_pixel ib (x ib * idx) (border_fill_col coloridx) in
       (* right line *)
       let pixel := x ib * idx + (x ib - 1) in
       set_pixel ib pixel (border_fill_col coloridx))
    (seqZ 0 (y ibuf)) ibuf.

(** ** [dilate_shape] *)

(** One round of the detection loop of [dilate_shape] on the pixel [v]:
    the pushes, last push first.  [tp], [bm], [lt] and [rt] hold the index
    of the red contact pixel that was pushed, or 0. *)
Definition dilate_visit (ibuf : ImBuf) (maxpixel v : Z) (stack : list Z) : list Z :=
  if is_green (get_pixel ibuf v) then
    (* pixel left *)
    let '(stack, lt) :=
      if (0 <=? v - 1) && is_red (get_pixel ibuf (v - 1))
      then ((v - 1) :: stack, v - 1) else (stack, 0) in
    (* pixel right *)
    let '(stack, rt) :=
      if (v + 1 <=? maxpixel) && is_red (get_pixel ibuf (v + 1))
      then ((v + 1) :: stack, v + 1) else (stack, 0) in
    (* pixel top *)
    let '(stack, tp) :=
      if (v + x ibuf <=? maxpixel) && is_red (get_pixel ibuf (v + x ibuf))
      then ((v + x ibuf) :: stack, v + x ibuf) else (stack, 0) in
    (* pixel bottom *)
    let '(stack, bm) :=
      if (0 <=? v - x ibuf) && is_red (get_pixel ibuf (v - x ibuf))
      then ((v - x ibuf) :: stack, v - x ibuf) else (stack, 0) in
    (* pixel top-left *)
    let stack :=
      if negb (tp =? 0) && negb (lt =? 0) && is_red (get_pixel ibuf (tp - 1))
      then (tp - 1) :: stack else stack in
    (* pixel top-right *)
    let stack :=
      if negb (tp =? 0) && negb (rt =? 0) && is_red (get_pixel ibuf (tp + 1))
      then (tp + 1) :: stack else stack in
    (* pixel bottom-left *)
    let stack :=
      if negb (bm =? 0) && negb (lt =? 0) && is_red (get_pixel ibuf (bm - 1))
      then (bm - 1) :: stack else stack in
    (* pixel bottom-right *)
    let stack :=
      if negb (bm =? 0) && negb (rt =? 0) && is_red (get_pixel ibuf (bm + 1))
      then (bm + 1) :: stack else stack in
    stack
  else stack.

(** [for (int v = maxpixel; v != 0; v--)]: the pixels [v], [v - 1], ...,
    [1] are looked at, all on the canvas as it came in. *)
Fixpoint dilate_scan (ibuf : ImBuf) (maxpixel : Z) (v : nat) (stack : list Z)
  : list Z :=
  match v with
  | O => stack
  | S v' => dilate_scan ibuf maxpixel v' (dilate_visit ibuf maxpixel (Z.of_nat v) stack)
  end.

(** The detected pixels are set to green once the detection is over. *)
Definition dilate_shape (ibuf : ImBuf) : ImBuf :=
  let maxpixel := x ibuf * y ibuf - 1 in
  let stack := dilate_scan ibuf maxpixel (Z.to_nat maxpixel) [] in
  fold_left (fun ib v => set_pixel ib v (RGBA F32.zero F32.one F32.zero F32.one))
    stack ibuf.

(** ** [gpencil_get_outline_points] *)

Definition NEIGHBOR_COUNT : Z := 8.

(** The table [offset[8][2]]: the eight pixels around a pixel, as (x, y)
    steps. *)
Definition offset : list (Z * Z) :=
  [(-1, -1); (0, -1); (1, -1); (1, 0); (1, 1); (0, 1); (-1, 1); (-1, 0)].

(** [for (int idx = imagesize - 1; idx != 0; idx--)]: the first index from
    the top whose pixel is green. *)
Fixpoint outline_start (ibuf : ImBuf) (idx : nat) : option Z :=
  match idx with
  | O => None
  | S idx' =>
      if is_green (get_pixel ibuf (Z.of_nat idx)) then Some (Z.of_nat idx)
      else outline_start ibuf idx'
  end.

(** The index in the table of the backtracked offset, or -1. *)
Fixpoint find_back_offset (backtracked_offset : Z * Z) (i : Z) (l : list (Z * Z)) : Z :=
  match l with
  | [] => -1
  | o :: l =>
      if (fst backtracked_offset =? fst o) && (snd backtracked_offset =? snd o) then i
      else find_back_offset backtracked_offset (i + 1) l
  end.

(** The variables of the tracing loop; the stack has its top first. *)
Record outline_state := mkOutline {
  boundary_co : Z * Z;
  backtracked_offset : Z * Z;
  prev_check_co : Z * Z;
  outline_stack : list (Z * Z)
}.

(** [while (loop < (NEIGHBOR_COUNT - 1) && cur_back_offset != -1)], with
    [n] rounds left: the pixels around the boundary pixel are checked
    from the one after the backtracked pixel on; the first green one
    becomes the boundary pixel and is pushed. *)
Fixpoint outline_check (ibuf : ImBuf) (n : nat) (cur_back_offset : Z)
         (st : outline_state) : outline_state :=
  match n with
  | O => st
  | S n' =>
      let offset_idx := Z.rem (cur_back_offset + 1) NEIGHBOR_COUNT in
      let o := default (0, 0) (offset !! Z.to_nat offset_idx) in
      let current_check_co :=
        (fst (boundary_co st) + fst o, snd (boundary_co st) + snd o) in
      let image_idx := x ibuf * snd current_check_co + fst current_check_co in
      (* find next boundary pixel *)
      if is_green (get_pixel ibuf image_idx) then
        let backtracked_co := prev_check_co st in
        mkOutline current_check_co
          (fst backtracked_co - fst current_check_co,
           snd backtracked_co - snd current_check_co)
          (prev_check_co st) (current_check_co :: outline_stack st)
      else
        outline_check ibuf n' (cur_back_offset + 1)
          (mkOutline (boundary_co st) (backtracked_offset st) current_check_co
             (outline_stack st))
  end.

(** One round of [while (start_found)]: the state after the inner loop,
    and whether the boundary pixel is the starting pixel again. *)
Definition outline_round (ibuf : ImBuf) (start_co : Z * Z) (st : outline_state)
  : outline_state * bool :=
  let cur_back_offset := find_back_offset (backtracked_offset st) 0 offset in
  let st :=
    if cur_back_offset =? -1 then st
    else outline_check ibuf (Z.to_nat (NEIGHBOR_COUNT - 1)) cur_back_offset st in
  (st, (fst (boundary_co st) =? fst start_co) && (snd (boundary_co st) =? snd start_co)).

(** The tracing loop; when the boundary pixel is the starting pixel again
    the top of the stack is popped and the loop ends.  [None] when the fuel
    runs out before that. *)
Fixpoint outline_loop (ibuf : ImBuf) (fuel : nat) (start_co : Z * Z)
         (st : outline_state) : option (list (Z * Z)) :=
  match fuel with
  | O => None
  | S fuel =>
      let '(st, back_at_start) := outline_round ibuf start_co st in
      if back_at_start then Some (tail (outline_stack st))
      else outline_loop ibuf fuel start_co st
  end.

(** The state in which the tracing starts from the pixel of index [idx]. *)
Definition outline_init (ibuf : ImBuf) (idx : Z) : outline_state :=
  let boundary_co := (Z.rem idx (x ibuf), idx ÷ x ibuf) in
  let start_co := boundary_co in
  let backtracked_co := (Z.rem (idx - 1) (x ibuf), (idx - 1) ÷ x ibuf) in
  mkOutline boundary_co
    (fst backtracked_co - fst boundary_co, snd backtracked_co - snd boundary_co)
    start_co [boundary_co].

(** The canvas after the optional dilation, and the stack of outline
    points. *)
Definition gpencil_get_outline_points (fuel : nat) (ibuf : ImBuf) (dilate : bool)
  : option (ImBuf * list (Z * Z)) :=
  let imagesize := x ibuf * y ibuf in
  (* Dilate. *)
  let ibuf := if dilate then dilate_shape ibuf else ibuf in
  (* find the initial point to start outline analysis *)
  match outline_start ibuf (Z.to_nat (imagesize - 1)) with
  | None => Some (ibuf, [])
  | Some idx =>
      let st := outline_init ibuf idx in
      match outline_loop ibuf fuel (boundary_co st) st with
      | Some stack => Some (ibuf, stack)
      | None => None
      end
  end.

(** ** [gpencil_points_from_stack] *)

Definition half : F32.float := S754_finite false 8388608 (-24).

(** The outline coordinates are popped into the stroke buffer, each moved
    to the centre of its pixel. *)
Definition gpencil_points_from_stack (stack : list (Z * Z)) : list tGPspoint :=
  map (fun v => mkPoint (F32.add (F32.of_int (fst v)) half)
                        (F32.add (F32.of_int (snd v)) half))
      stack.

(** The [n] coordinates from [v] on come back from the stroke buffer as
    they went in: the cast [(int)] of [v + 0.5] is [v]. *)
Fixpoint pixel_centres_exact (n : nat) (v : Z) : bool :=
  match n with
  | O => true
  | S n =>
      (F32.to_int (F32.add (F32.of_int v) half) =? v)
      && pixel_centres_exact n (v + 1)
  end.

(** ** Statements about the canvas operations *)

(** The inversion round trip as the specification words it: a pixel
    whose green channel was 1.0 is green again, a pixel whose red channel
    was 1.0 is red again, any other pixel ends transparent. *)
Definition invert_twice_restores (ibuf : ImBuf) : Prop :=
  forall v, 0 <= v < x ibuf * y ibuf ->
    let p := get_pixel ibuf v in
    let q := get_pixel (gpencil_invert_image (gpencil_invert_image ibuf)) v in
    (is_green p = true -> is_green q = true)
    /\ (is_red p = true -> is_red q = true)
    /\ (is_green p = false -> is_red p = false -> q = clear_px).

(** A boundary (red) pixel or the edge of the image lies within [gap]
    pixels of [v], on each of the four sides.  Above and below, the edge
    is met when the index leaves [0..maxpixel]; to the left and to the
    right, when it leaves the row of [v]. *)
Definition edge_or_red_above (ibuf : ImBuf) (maxpixel gap v : Z) : Prop :=
  exists i, 1 <= i <= gap
    /\ (maxpixel < v + x ibuf * i
        \/ is_red (get_pixel ibuf (v + x ibuf * i)) = true).
Definition edge_or_red_below (ibuf : ImBuf) (gap v : Z) : Prop :=
  exists i, 1 <= i <= gap
    /\ (v - x ibuf * i < 0
        \/ is_red (get_pixel ibuf (v - x ibuf * i)) = true).
Definition edge_or_red_left (ibuf : ImBuf) (gap v : Z) : Prop :=
  exists i, 1 <= i <= gap
    /\ (v - i < (v ÷ x ibuf) * x ibuf
        \/ is_red (get_pixel ibuf (v - i)) = true).
Definition edge_or_red_right (ibuf : ImBuf) (gap v : Z) : Prop :=
  exists i, 1 <= i <= gap
    /\ ((v ÷ x ibuf) * x ibuf + x ibuf - 1 < v + i
        \/ is_red (get_pixel ibuf (v + i)) = true).

(** A canvas of 6 by 5 pixels: a boundary across row 2 with a gap of two
    pixels (columns 2 and 3), and the seed in row 0 under the gap. *)
Definition gap_canvas : ImBuf :=
  let c := clear_px in
  let R := red_col in
  mkImBuf 6 5
    [ c; c; blue_col; c; c; c;
      c; c; c; c; c; c;
      R; R; c; c; R; R;
      c; c; c; c; c; c;
      c; c; c; c; c; c ].






(** The canvas with the pixels of [l] set to [col], first index first. *)
Definition paint (col : rgba) (l : list Z) (ibuf : ImBuf) : ImBuf :=
  fold_left (fun ib v => set_pixel ib v col) l ibuf.

(** The indices that [gpencil_set_borders] writes, in the order of the
    writes. *)
Definition border_indices (ibuf : ImBuf) : list Z :=
  (seqZ 0 (x ibuf) ≫= fun idx => [idx; idx + x ibuf * (y ibuf - 1)])
  ++ (seqZ 0 (y ibuf) ≫= fun idx => [x ibuf * idx; x ibuf * idx + (x ibuf - 1)]).

(** A pixel that the fill paints when it pops it: neither red nor green. *)
Definition fillable (p : rgba) : bool := negb (is_red p) && negb (is_green p).

(** The number of pixels of the canvas that the fill can still paint. *)
Definition unfilled (ibuf : ImBuf) : nat :=
  length (List.filter fillable (rect_float ibuf)).

(** [t] is one of the four contact pixels that the fill pushes from [v]:
    the indices [v - 1] and [v + 1], whether or not they lie in the row of
    [v], and the indices [v + x] and [v - x], inside [0, maxpixel]. *)
Definition contact (ibuf : ImBuf) (maxpixel v t : Z) : Prop :=
  (t = v - 1 /\ 0 <= v - 1) \/ (t = v + 1 /\ v + 1 <= maxpixel)
  \/ (t = v + x ibuf /\ v + x ibuf <= maxpixel)
  \/ (t = v - x ibuf /\ 0 <= v - x ibuf).

(** [fill_path ibuf maxpixel s v]: the pixel [v] is joined to [s] by a chain
    of contact pixels, all of them paintable on [ibuf]. *)
Inductive fill_path (ibuf : ImBuf) (maxpixel s : Z) : Z -> Prop :=
| fill_path_seed :
    fillable (get_pixel ibuf s) = true -> fill_path ibuf maxpixel s s
| fill_path_step (v t : Z) :
    fill_path ibuf maxpixel s v -> contact ibuf maxpixel v t ->
    fillable (get_pixel ibuf t) = true -> fill_path ibuf maxpixel s t.

(** The state of the fill loop on the canvas [cur] with the stack
    [stack], started on [ibuf] from the seed [s]: the canvas keeps its
    size; a pixel that differs from [ibuf] was paintable, is now the fill
    colour and is joined to the seed; the stack holds indices of the canvas,
    each the seed or a contact pixel of a painted one. *)
Definition fill_inv (ibuf : ImBuf) (maxpixel s : Z) (cur : ImBuf) (stack : list Z)
  : Prop :=
  (x cur = x ibuf /\ y cur = y ibuf
   /\ length (rect_float cur) = length (rect_float ibuf))
  /\ (forall p, get_pixel cur p = get_pixel ibuf p
                \/ (get_pixel cur p = fill_col /\ fill_path ibuf maxpixel s p))
  /\ (forall v, v ∈ stack ->
        0 <= v <= maxpixel
        /\ (v = s \/ exists u, get_pixel cur u <> get_pixel ibuf u
                               /\ contact ibuf maxpixel u v)).

(** With the leak test off, the fill loses no contact pixel: every
    contact pixel of a painted pixel is on the stack or cannot be painted
    any more, and so is the seed. *)
Definition fill_closed (ibuf : ImBuf) (maxpixel s : Z) (cur : ImBuf) (stack : list Z)
  : Prop :=
  (s ∈ stack \/ fillable (get_pixel cur s) = false)
  /\ forall u t, get_pixel cur u <> get_pixel ibuf u -> contact ibuf maxpixel u t ->
       t ∈ stack \/ fillable (get_pixel cur t) = false.

(** Each point of [l] is one step of the table [offset] away from the
    point after it. *)
Definition chained (l : list (Z * Z)) : Prop :=
  forall i a b, l !! i = Some a -> l !! S i = Some b ->
    (fst a - fst b, snd a - snd b) ∈ offset.

(** The pixel of the canvas at the coordinates [co]. *)
Definition pixel_at (ibuf : ImBuf) (co : Z * Z) : rgba :=
  get_pixel ibuf (x ibuf * snd co + fst co).

(** The state of the outline tracing: the boundary pixel is the top of the
    stack, the stacked points are green and chained. *)
Definition outline_inv (ibuf : ImBuf) (st : outline_state) : Prop :=
  head (outline_stack st) = Some (boundary_co st)
  /\ (forall co, co ∈ outline_stack st -> is_green (pixel_at ibuf co) = true)
  /\ chained (outline_stack st).

(** The index offsets of the eight pixels around a pixel, on a canvas of
    width [w]. *)
Definition moore_offsets (w : Z) : list Z :=
  [-1; 1; w; - w; w - 1; w + 1; - w - 1; - w + 1].

(** ** Small canvases used as examples *)

(** Three pixels in a row, the seed in the middle; the same with the only
    blue pixel at the last index, which the seed search does not reach. *)
Definition seeded_canvas : ImBuf :=
  mkImBuf 3 1 [clear_px; blue_col; clear_px].

(** Two pixels, the second with both the red and the green channel at 1.0. *)
Definition two_tone_canvas : ImBuf :=
  mkImBuf 2 1 [blue_col; RGBA F32.one F32.one F32.zero F32.one].

(** A green pixel in the middle of a red canvas of 3 by 3 pixels. *)
Definition cross_canvas : ImBuf :=
  let R := red_col in
  mkImBuf 3 3 [R; R; R; R; green_col; R; R; R; R].

(** A green block of 2 by 2 pixels in the middle of a transparent canvas
    of 4 by 4 pixels. *)
Definition block_canvas : ImBuf :=
  let c := clear_px in
  let G := green_col in
  mkImBuf 4 4 [c; c; c; c;  c; G; G; c;  c; G; G; c;  c; c; c; c].


End Fill.

(** ** The expand operator: mesh falloffs *)

Module Expand.

Definition vec3 : Type := F32.float * F32.float * F32.float.

Definition SCULPT_EXPAND_VERTEX_NONE : Z := -1.

(** The mesh collaborator and the math library, as far as the falloff
    builders call them.  Vertex indices handed out by the mesh are
    naturals; an [int] that may be [-1] ("no vertex") is a [Z]. *)
Record Mesh := mkMesh {
  (** [SCULPT_vertex_count_get] *)
  totvert : nat;
  (** [SCULPT_VERTEX_NEIGHBORS_ITER_BEGIN]: the neighbours of a vertex,
      in iteration order; [ni.size] is the length of the list. *)
  neighbors : nat -> list nat;
  (** [SCULPT_VERTEX_DUPLICATES_AND_NEIGHBORS_ITER_BEGIN]: the same with
      the duplicates of multires grids, each flagged [is_duplicate]. *)
  neighbors_dup : nat -> list (nat * bool);
  (** [SCULPT_vertex_co_get], [SCULPT_vertex_normal_get] *)
  vertex_co : Z -> vec3;
  vertex_normal : Z -> vec3;
  (** [SCULPT_mesh_symmetry_xyz_get], [SCULPT_is_symmetry_iteration_valid],
      [flip_v3_v3], [SCULPT_nearest_vertex_get] (with [FLT_MAX] as maximal
      distance; -1 when no vertex is found) *)
  symm : nat;
  is_symmetry_iteration_valid : nat -> nat -> bool;
  flip_v3_v3 : vec3 -> nat -> vec3;
  nearest_vertex_get : vec3 -> Z;
  (** [SCULPT_boundary_data_init (ob, NULL, v, FLT_MAX)]: the vertices of
      the boundary through [v]. *)
  boundary_vertices : Z -> list nat;
  (** [len_v3v3], [dot_v3v3], [powf] *)
  len_v3v3 : vec3 -> vec3 -> F32.float;
  dot_v3v3 : vec3 -> vec3 -> F32.float;
  powf : F32.float -> F32.float -> F32.float
}.

(** [for (i = 0; i < n; i++) body]: the loop body run for 0, 1, ..., n-1
    on the state. *)
Definition for_range {S : Type} (n : nat) (body : nat -> S -> S) (s : S) : S :=
  fold_left (fun s i => body i s) (seq 0 n) s.

(** Reading a float array; an index outside the array is out of bounds in
    C, the model reads 0.0 there. *)
Definition aget (a : list F32.float) (i : nat) : F32.float :=
  default F32.zero (a !! i).

(** The origin of a symmetry iteration: the vertex itself for iteration
    0, else the vertex nearest to its flipped position. *)
Definition symmetry_origin (m : Mesh) (vertex : Z) (symm_it : nat) : Z :=
  if (symm_it =? 0)%nat then vertex
  else nearest_vertex_get m (flip_v3_v3 m (vertex_co m vertex) symm_it).

(** *** Spherical falloff *)

Definition sculpt_expand_spherical_falloff_create (m : Mesh) (vertex : Z)
  : list F32.float :=
  let dists := replicate (totvert m) F32.FLT_MAX in
  for_range (S (symm m))
    (fun symm_it dists =>
       if negb (is_symmetry_iteration_valid m symm_it (symm m)) then dists
       else
         let v := symmetry_origin m vertex symm_it in
         if v =? -1 then dists
         else
           let co := vertex_co m v in
           for_range (totvert m)
             (fun i dists =>
                <[i := F32.min_ff (aget dists i)
                         (len_v3v3 m co (vertex_co m (Z.of_nat i)))]> dists)
             dists)
    dists.

(** *** Flood fill *)

(** The state of a breadth-first traversal: the queue (first element
    popped first), the bitmap of visited vertices, the distances. *)
Definition bfs_state (D : Type) : Type := list nat * list bool * list D.

(** One neighbour [to_v] of the popped vertex [from_v]: an unvisited
    vertex is marked, gets the distance of [from_v], incremented unless
    the edge is a duplicate, and is pushed.  An index outside the bitmap
    is out of bounds in C; the model skips it. *)
Definition bfs_edge {D : Type} (dzero : D) (dsucc : D -> D) (from_v : nat)
           (st : bfs_state D) (e : nat * bool) : bfs_state D :=
  let '(q, vis, dists) := st in
  let '(to_v, is_duplicate) := e in
  match vis !! to_v with
  | Some false =>
      let d := default dzero (dists !! from_v) in
      (q ++ [to_v], <[to_v := true]> vis,
       <[to_v := if is_duplicate then d else dsucc d]> dists)
  | _ => st
  end.

(** The traversal loop, at most [fuel] rounds. *)
Fixpoint bfs_loop {D : Type} (dzero : D) (dsucc : D -> D)
         (edges : nat -> list (nat * bool)) (fuel : nat) (st : bfs_state D)
  : bfs_state D :=
  match fuel with
  | O => st
  | S fuel =>
      match st with
      | ([], _, _) => st
      | (from_v :: q, vis, dists) =>
          bfs_loop dzero dsucc edges fuel
            (fold_left (bfs_edge dzero dsucc from_v) (edges from_v) (q, vis, dists))
      end
  end.

(** The number of vertices not yet visited. *)
Definition unvisited (vis : list bool) : nat := length (filter (fun b => b = false) vis).

Record ExpandFloodFillData := mkFloodFillData {
  original_normal : vec3;
  edge_sensitivity : F32.float;
  dists : list F32.float;
  edge_factor : list F32.float
}.

Record SculptFloodFill := mkFloodFill {
  queue : list nat;
  visited_vertices : list bool
}.

Definition floodfill_cb : Type :=
  nat -> nat -> bool -> ExpandFloodFillData -> ExpandFloodFillData * bool.

(** Modelled from the spec: [SCULPT_floodfill_init],
    [SCULPT_floodfill_add_initial], [SCULPT_floodfill_add_initial_with_symmetry]
    and [SCULPT_floodfill_execute] of the sculpt core are not part of the
    sources at hand.  The specification describes a breadth-first
    traversal "starting from the origin set" (the origin of every valid
    symmetry iteration that resolves to a vertex, at distance 0) "using a
    flood-fill visitor": a vertex is handed to the visitor, with the
    vertex it was reached from and the duplicate flag of the edge, the
    first time it is reached, and it is queued when the visitor returns
    true. *)
Definition SCULPT_floodfill_init (m : Mesh) : SculptFloodFill :=
  mkFloodFill [] (replicate (totvert m) false).

Definition SCULPT_floodfill_add_initial (flood : SculptFloodFill) (index : nat)
  : SculptFloodFill :=
  mkFloodFill (queue flood ++ [index]) (<[index := true]> (visited_vertices flood)).

Definition SCULPT_floodfill_add_initial_with_symmetry (m : Mesh)
           (flood : SculptFloodFill) (index : Z) : SculptFloodFill :=
  for_range (S (symm m))
    (fun i flood =>
       if is_symmetry_iteration_valid m i (symm m) then
         let v := symmetry_origin m index i in
         if v =? -1 then flood else SCULPT_floodfill_add_initial flood (Z.to_nat v)
       else flood)
    flood.

Definition floodfill_edge (func : floodfill_cb) (from_v : nat)
           (st : SculptFloodFill * ExpandFloodFillData) (e : nat * bool)
  : SculptFloodFill * ExpandFloodFillData :=
  let '(flood, userdata) := st in
  let '(to_v, is_duplicate) := e in
  match visited_vertices flood !! to_v with
  | Some false =>
      let visited := <[to_v := true]> (visited_vertices flood) in
      let '(userdata, go) := func from_v to_v is_duplicate userdata in
      (mkFloodFill (if go then queue flood ++ [to_v] else queue flood) visited,
       userdata)
  | _ => st
  end.

Fixpoint floodfill_loop (m : Mesh) (func : floodfill_cb) (fuel : nat)
         (st : SculptFloodFill * ExpandFloodFillData)
  : SculptFloodFill * ExpandFloodFillData :=
  match fuel with
  | O => st
  | S fuel =>
      match queue (fst st) with
      | [] => st
      | from_v :: q =>
          floodfill_loop m func fuel
            (fold_left (floodfill_edge func from_v) (neighbors_dup m from_v)
               (mkFloodFill q (visited_vertices (fst st)), snd st))
      end
  end.

(** The loop is given as many rounds as the queue is long plus the number
    of unvisited vertices, which is enough for it to end on an empty queue
    (see [floodfill_execute_complete]). *)
Definition SCULPT_floodfill_execute (m : Mesh) (flood : SculptFloodFill)
           (func : floodfill_cb) (userdata : ExpandFloodFillData)
  : SculptFloodFill * ExpandFloodFillData :=
  floodfill_loop m func
    (length (queue flood) + unvisited (visited_vertices flood)) (flood, userdata).

(** *** Topological falloff *)

Definition mask_expand_topology_floodfill_cb : floodfill_cb :=
  fun from_v to_v is_duplicate data =>
    if negb is_duplicate then
      let to_it := F32.add (aget (dists data) from_v) F32.one in
      (mkFloodFillData (original_normal data) (edge_sensitivity data)
         (<[to_v := to_it]> (dists data)) (edge_factor data), true)
    else
      (mkFloodFillData (original_normal data) (edge_sensitivity data)
         (<[to_v := aget (dists data) from_v]> (dists data)) (edge_factor data), true).

Definition zero_v3 : vec3 := (F32.zero, F32.zero, F32.zero).

Definition sculpt_expand_topology_falloff_create (m : Mesh) (vertex : Z)
  : list F32.float :=
  let dists_array := replicate (totvert m) F32.zero in
  let flood := SCULPT_floodfill_init m in
  let flood := SCULPT_floodfill_add_initial_with_symmetry m flood vertex in
  (* only [dists] is set in [fdata] *)
  let fdata := mkFloodFillData zero_v3 F32.zero dists_array [] in
  let '(_, fdata) :=
    SCULPT_floodfill_execute m flood mask_expand_topology_floodfill_cb fdata in
  dists fdata.

(** *** Normal falloff *)

(** The macro [CLAMP (a, b, c)]: first against the lower bound [b], then
    against the upper bound [c]. *)
Definition CLAMP (a b c : F32.float) : F32.float :=
  if F32.ltb a b then b else if F32.ltb c a then c else a.

Definition mask_expand_normal_floodfill_cb (m : Mesh) : floodfill_cb :=
  fun from_v to_v is_duplicate data =>
    if negb is_duplicate then
      let current_normal := vertex_normal m (Z.of_nat to_v) in
      let prev_normal := vertex_normal m (Z.of_nat from_v) in
      let from_edge_factor := aget (edge_factor data) from_v in
      let edge_factor' :=
        <[to_v := F32.mul (dot_v3v3 m current_normal prev_normal) from_edge_factor]>
          (edge_factor data) in
      let d := F32.mul (dot_v3v3 m (original_normal data) current_normal)
                 (powf m from_edge_factor (edge_sensitivity data)) in
      (mkFloodFillData (original_normal data) (edge_sensitivity data)
         (<[to_v := CLAMP d F32.zero F32.one]> (dists data)) edge_factor', true)
    else
      (* PBVH_GRIDS duplicate handling. *)
      (mkFloodFillData (original_normal data) (edge_sensitivity data)
         (<[to_v := aget (dists data) from_v]> (dists data))
         (<[to_v := aget (edge_factor data) from_v]> (edge_factor data)), true).

(** One step of the smoothing: the value of vertex [i] becomes the sum of
    the current values of its neighbours divided by their number. *)
Definition smooth_vertex (m : Mesh) (i : nat) (dists_array : list F32.float)
  : list F32.float :=
  let avg := fold_left (fun avg ni => F32.add avg (aget dists_array ni))
               (neighbors m i) F32.zero in
  <[i := F32.div avg (F32.of_int (Z.of_nat (length (neighbors m i))))]> dists_array.

(** The tail of [sculpt_expand_normal_falloff_create]: every value is set
    to [FLT_MAX], then two rounds of smoothing run over the array. *)
Definition reset_and_smooth (m : Mesh) (dists_array : list F32.float)
  : list F32.float :=
  let dists_array :=
    for_range (totvert m) (fun i d => <[i := F32.FLT_MAX]> d) dists_array in
  for_range 2 (fun _ d => for_range (totvert m) (smooth_vertex m) d) dists_array.

(** The array [dists] comes from [MEM_malloc_arrayN]: its first content
    is indeterminate, the model starts from zeros. *)
Definition sculpt_expand_normal_falloff_create (m : Mesh) (vertex : Z)
           (edge_sensitivity : F32.float) : list F32.float :=
  let dists_array := replicate (totvert m) F32.zero in
  let edge_factor_array := replicate (totvert m) F32.one in
  let flood := SCULPT_floodfill_init m in
  let flood := SCULPT_floodfill_add_initial_with_symmetry m flood vertex in
  let fdata := mkFloodFillData (vertex_normal m vertex) edge_sensitivity
                 dists_array edge_factor_array in
  let '(_, fdata) :=
    SCULPT_floodfill_execute m flood (mask_expand_normal_floodfill_cb m) fdata in
  reset_and_smooth m (dists fdata).

(** *** Boundary topology falloff *)

(** The boundary through the origin of one symmetry iteration is queued
    and marked visited. *)
Definition boundary_seed (m : Mesh) (vertex : Z) (symm_it : nat)
           (st : list nat * list bool) : list nat * list bool :=
  if negb (is_symmetry_iteration_valid m symm_it (symm m)) then st
  else
    let v := symmetry_origin m vertex symm_it in
    fold_left (fun '(queue, visited) bv => (queue ++ [bv], <[bv := true]> visited))
      (boundary_vertices m v) st.

(** One neighbour of the popped vertex [v]. *)
Definition boundary_bfs_neighbor (v : nat) (st : bfs_state F32.float) (ni : nat)
  : bfs_state F32.float :=
  let '(queue, visited, dists_array) := st in
  match visited !! ni with
  | Some false =>
      (queue ++ [ni], <[ni := true]> visited,
       <[ni := F32.add (aget dists_array v) F32.one]> dists_array)
  | _ => st
  end.

Fixpoint boundary_bfs_loop (m : Mesh) (fuel : nat) (st : bfs_state F32.float)
  : bfs_state F32.float :=
  match fuel with
  | O => st
  | S fuel =>
      match st with
      | ([], _, _) => st
      | (v :: queue, visited, dists_array) =>
          boundary_bfs_loop m fuel
            (fold_left (boundary_bfs_neighbor v) (neighbors m v)
               (queue, visited, dists_array))
      end
  end.

(** The queue loop is given as many rounds as the queue is long plus the
    number of unvisited vertices, which is enough for it to end on an empty
    queue (see [bfs_loop_complete] and [boundary_bfs_loop_core]). *)
Definition sculpt_expand_boundary_topology_falloff_create (m : Mesh) (vertex : Z)
  : list F32.float :=
  let dists_array := replicate (totvert m) F32.zero in
  let visited_vertices := replicate (totvert m) false in
  let '(queue, visited_vertices) :=
    for_range (S (symm m)) (boundary_seed m vertex) ([], visited_vertices) in
  match queue with
  | [] => dists_array
  | _ =>
      let '(_, visited_vertices, dists_array) :=
        boundary_bfs_loop m (length queue + unvisited visited_vertices)
          (queue, visited_vertices, dists_array) in
      for_range (totvert m)
        (fun i d => if default false (visited_vertices !! i) then d
                    else <[i := F32.FLT_MAX]> d)
        dists_array
  end.

(** *** Erasing a face set id from the snapshot *)

(** [MPoly]: the loops of a face are [loopstart], ..., [loopstart + totloop - 1];
    [mloop] gives the vertex of each loop, [pmap] the faces around each
    vertex ([MeshElemMap]). *)
Record MPoly := mkPoly { loopstart : nat; totloop : nat }.

Record PolyMesh := mkPolyMesh {
  mpoly : list MPoly;
  mloop : list nat;
  pmap : list (list nat)
}.

(** Reading an [int] array; the model reads 0 outside of it. *)
Definition iget (a : list Z) (i : nat) : Z := default 0 (a !! i).

(** The two nested loops over the faces around the vertices of face
    [f_index]: [other_id] ends as the id of the last neighbouring face whose
    id is not [delete_id], or as [delete_id]. *)
Definition face_other_id (mesh : PolyMesh) (face_sets : list Z) (delete_id : Z)
           (f_index : nat) : Z :=
  let c_poly := default (mkPoly 0 0) (mpoly mesh !! f_index) in
  for_range (totloop c_poly)
    (fun l other_id =>
       let c_loop_v := default O (mloop mesh !! (loopstart c_poly + l)%nat) in
       let vert_map := default [] (pmap mesh !! c_loop_v) in
       fold_left
         (fun other_id neighbor_face_index =>
            if negb (iget face_sets neighbor_face_index =? delete_id)
            then iget face_sets neighbor_face_index else other_id)
         vert_map other_id)
    delete_id.

(** The stack macros [BLI_LINKSTACK_*] are declared outside the sources at
    hand.  A stack is a list with its top first; [BLI_LINKSTACK_POP] yields
    the top, or NULL, that is 0, on the empty stack; [BLI_LINKSTACK_SIZE] is
    the number of elements; [BLI_LINKSTACK_SWAP] exchanges two stacks.

    The inner loop [while (f_index = BLI_LINKSTACK_POP (queue))] ends when
    the popped value is 0: on the empty stack, and also when face 0 is
    popped.  It returns what is left of [queue], the face sets and
    [queue_next]. *)
Fixpoint delete_face_set_pass (mesh : PolyMesh) (delete_id : Z) (queue : list nat)
         (face_sets : list Z) (queue_next : list nat)
  : list nat * list Z * list nat :=
  match queue with
  | [] => ([], face_sets, queue_next)
  | f_index :: queue =>
      if (f_index =? 0)%nat then (queue, face_sets, queue_next)
      else
        let other_id := face_other_id mesh face_sets delete_id f_index in
        if negb (other_id =? delete_id) then
          delete_face_set_pass mesh delete_id queue
            (<[f_index := other_id]> face_sets) queue_next
        else
          delete_face_set_pass mesh delete_id queue face_sets (f_index :: queue_next)
  end.

(** The outer loop [while (BLI_LINKSTACK_SIZE (queue))]; [None] when the
    fuel runs out before the queue is empty. *)
Fixpoint delete_face_set_loop (fuel : nat) (mesh : PolyMesh) (delete_id : Z)
         (queue : list nat) (face_sets : list Z) (queue_next : list nat)
  : option (list Z) :=
  match queue with
  | [] => Some face_sets
  | _ =>
      match fuel with
      | O => None
      | S fuel =>
          let '(queue, face_sets, queue_next) :=
            delete_face_set_pass mesh delete_id queue face_sets queue_next in
          delete_face_set_loop fuel mesh delete_id queue_next face_sets queue
      end
  end.

Definition sculpt_expand_delete_face_set_id (fuel : nat) (mesh : PolyMesh)
           (face_sets : list Z) (totface : nat) (delete_id : Z) : option (list Z) :=
  let queue :=
    for_range totface
      (fun i queue => if iget face_sets i =? delete_id then i :: queue else queue) [] in
  delete_face_set_loop fuel mesh delete_id queue face_sets [].

(** *** The expand session *)

Inductive eSculptExpandTargetType :=
| SCULPT_EXPAND_TARGET_MASK
| SCULPT_EXPAND_TARGET_FACE_SETS
| SCULPT_EXPAND_TARGET_COLORS.

Inductive eSculptExpandFalloffType :=
| SCULPT_EXPAND_FALLOFF_GEODESICS
| SCULPT_EXPAND_FALLOFF_TOPOLOGY
| SCULPT_EXPAND_FALLOFF_NORMALS
| SCULPT_EXPAND_FALLOFF_SPHERICAL
| SCULPT_EXPAND_FALLOFF_BOUNDARY_TOPOLOGY.

Definition float4 : Type := F32.float * F32.float * F32.float * F32.float.
Definition float2 : Type := F32.float * F32.float.

(** [ExpandCache]; a NULL array is the empty list, the set of snapped face
    sets is NULL ([None]) or a list of ids. *)
Record ExpandCache := mkExpandCache {
  target : eSculptExpandTargetType;
  falloff_factor : list F32.float;
  face_falloff_factor : list F32.float;
  max_falloff_factor : F32.float;
  max_face_falloff_factor : F32.float;
  active_factor : F32.float;
  falloff_factor_type : eSculptExpandFalloffType;
  invert : bool;
  preserve : bool;
  falloff_gradient : bool;
  snap : bool;
  move : bool;
  modify_active : bool;
  expand_from_active : bool;
  snap_enabled_face_sets : option (list Z);
  initial_mask : list F32.float;
  initial_face_sets : list Z;
  initial_color : list float4;
  next_face_set : Z;
  initial_active_vertex : Z;
  initial_active_face_set : Z;
  initial_mouse : float2;
  initial_mouse_move : float2;
  original_mouse_move : float2;
  fill_color : float4;
  blend_mode : Z
}.

(** Field updates. *)
Definition set_falloff_factor (c : ExpandCache) (v : list F32.float) : ExpandCache :=
  mkExpandCache (target c) v (face_falloff_factor c) (max_falloff_factor c)
    (max_face_falloff_factor c) (active_factor c) (falloff_factor_type c) (invert c)
    (preserve c) (falloff_gradient c) (snap c) (move c) (modify_active c)
    (expand_from_active c) (snap_enabled_face_sets c) (initial_mask c)
    (initial_face_sets c) (initial_color c) (next_face_set c) (initial_active_vertex
    c) (initial_active_face_set c) (initial_mouse c) (initial_mouse_move c)
    (original_mouse_move c) (fill_color c) (blend_mode c).

Definition set_face_falloff_factor (c : ExpandCache) (v : list F32.float) : ExpandCache :=
  mkExpandCache (target c) (falloff_factor c) v (max_falloff_factor c)
    (max_face_falloff_factor c) (active_factor c) (falloff_factor_type c) (invert c)
    (preserve c) (falloff_gradient c) (snap c) (move c) (modify_active c)
    (expand_from_active c) (snap_enabled_face_sets c) (initial_mask c)
    (initial_face_sets c) (initial_color c) (next_face_set c) (initial_active_vertex
    c) (initial_active_face_set c) (initial_mouse c) (initial_mouse_move c)
    (original_mouse_move c) (fill_color c) (blend_mode c).

Definition set_max_falloff_factor (c : ExpandCache) (v : F32.float) : ExpandCache :=
  mkExpandCache (target c) (falloff_factor c) (face_falloff_factor c) v
    (max_face_falloff_factor c) (active_factor c) (falloff_factor_type c) (invert c)
    (preserve c) (falloff_gradient c) (snap c) (move c) (modify_active c)
    (expand_from_active c) (snap_enabled_face_sets c) (initial_mask c)
    (initial_face_sets c) (initial_color c) (next_face_set c) (initial_active_vertex
    c) (initial_active_face_set c) (initial_mouse c) (initial_mouse_move c)
    (original_mouse_move c) (fill_color c) (blend_mode c).

Definition set_max_face_falloff_factor (c : ExpandCache) (v : F32.float) : ExpandCache :=
  mkExpandCache (target c) (falloff_factor c) (face_falloff_factor c)
    (max_falloff_factor c) v (active_factor c) (falloff_factor_type c) (invert c)
    (preserve c) (falloff_gradient c) (snap c) (move c) (modify_active c)
    (expand_from_active c) (snap_enabled_face_sets c) (initial_mask c)
    (initial_face_sets c) (initial_color c) (next_face_set c) (initial_active_vertex
    c) (initial_active_face_set c) (initial_mouse c) (initial_mouse_move c)
    (original_mouse_move c) (fill_color c) (blend_mode c).

Definition set_active_factor (c : ExpandCache) (v : F32.float) : ExpandCache :=
  mkExpandCache (target c) (falloff_factor c) (face_falloff_factor c)
    (max_falloff_factor c) (max_face_falloff_factor c) v (falloff_factor_type c)
    (invert c) (preserve c) (falloff_gradient c) (snap c) (move c) (modify_active c)
    (expand_from_active c) (snap_enabled_face_sets c) (initial_mask c)
    (initial_face_sets c) (initial_color c) (next_face_set c) (initial_active_vertex
    c) (initial_active_face_set c) (initial_mouse c) (initial_mouse_move c)
    (original_mouse_move c) (fill_color c) (blend_mode c).

Definition set_falloff_factor_type (c : ExpandCache) (v : eSculptExpandFalloffType) : ExpandCache :=
  mkExpandCache (target c) (falloff_factor c) (face_falloff_factor c)
    (max_falloff_factor c) (max_face_falloff_factor c) (active_factor c) v (invert
    c) (preserve c) (falloff_gradient c) (snap c) (move c) (modify_active c)
    (expand_from_active c) (snap_enabled_face_sets c) (initial_mask c)
    (initial_face_sets c) (initial_color c) (next_face_set c) (initial_active_vertex
    c) (initial_active_face_set c) (initial_mouse c) (initial_mouse_move c)
    (original_mouse_move c) (fill_color c) (blend_mode c).

Definition set_invert (c : ExpandCache) (v : bool) : ExpandCache :=
  mkExpandCache (target c) (falloff_factor c) (face_falloff_factor c)
    (max_falloff_factor c) (max_face_falloff_factor c) (active_factor c)
    (falloff_factor_type c) v (preserve c) (falloff_gradient c) (snap c) (move c)
    (modify_active c) (expand_from_active c) (snap_enabled_face_sets c)
    (initial_mask c) (initial_face_sets c) (initial_color c) (next_face_set c)
    (initial_active_vertex c) (initial_active_face_set c) (initial_mouse c)
    (initial_mouse_move c) (original_mouse_move c) (fill_color c) (blend_mode c).

Definition set_preserve (c : ExpandCache) (v : bool) : ExpandCache :=
  mkExpandCache (target c) (falloff_factor c) (face_falloff_factor c)
    (max_falloff_factor c) (max_face_falloff_factor c) (active_factor c)
    (falloff_factor_type c) (invert c) v (falloff_gradient c) (snap c) (move c)
    (modify_active c) (expand_from_active c) (snap_enabled_face_sets c)
    (initial_mask c) (initial_face_sets c) (initial_color c) (next_face_set c)
    (initial_active_vertex c) (initial_active_face_set c) (initial_mouse c)
    (initial_mouse_move c) (original_mouse_move c) (fill_color c) (blend_mode c).

Definition set_falloff_gradient (c : ExpandCache) (v : bool) : ExpandCache :=
  mkExpandCache (target c) (falloff_factor c) (face_falloff_factor c)
    (max_falloff_factor c) (max_face_falloff_factor c) (active_factor c)
    (falloff_factor_type c) (invert c) (preserve c) v (snap c) (move c)
    (modify_active c) (expand_from_active c) (snap_enabled_face_sets c)
    (initial_mask c) (initial_face_sets c) (initial_color c) (next_face_set c)
    (initial_active_vertex c) (initial_active_face_set c) (initial_mouse c)
    (initial_mouse_move c) (original_mouse_move c) (fill_color c) (blend_mode c).

Definition set_snap (c : ExpandCache) (v : bool) : ExpandCache :=
  mkExpandCache (target c) (falloff_factor c) (face_falloff_factor c)
    (max_falloff_factor c) (max_face_falloff_factor c) (active_factor c)
    (falloff_factor_type c) (invert c) (preserve c) (falloff_gradient c) v (move c)
    (modify_active c) (expand_from_active c) (snap_enabled_face_sets c)
    (initial_mask c) (initial_face_sets c) (initial_color c) (next_face_set c)
    (initial_active_vertex c) (initial_active_face_set c) (initial_mouse c)
    (initial_mouse_move c) (original_mouse_move c) (fill_color c) (blend_mode c).

Definition set_move (c : ExpandCache) (v : bool) : ExpandCache :=
  mkExpandCache (target c) (falloff_factor c) (face_falloff_factor c)
    (max_falloff_factor c) (max_face_falloff_factor c) (active_factor c)
    (falloff_factor_type c) (invert c) (preserve c) (falloff_gradient c) (snap c) v
    (modify_active c) (expand_from_active c) (snap_enabled_face_sets c)
    (initial_mask c) (initial_face_sets c) (initial_color c) (next_face_set c)
    (initial_active_vertex c) (initial_active_face_set c) (initial_mouse c)
    (initial_mouse_move c) (original_mouse_move c) (fill_color c) (blend_mode c).

Definition set_snap_enabled_face_sets (c : ExpandCache) (v : option (list Z)) : ExpandCache :=
  mkExpandCache (target c) (falloff_factor c) (face_falloff_factor c)
    (max_falloff_factor c) (max_face_falloff_factor c) (active_factor c)
    (falloff_factor_type c) (invert c) (preserve c) (falloff_gradient c) (snap c)
    (move c) (modify_active c) (expand_from_active c) v (initial_mask c)
    (initial_face_sets c) (initial_color c) (next_face_set c) (initial_active_vertex
    c) (initial_active_face_set c) (initial_mouse c) (initial_mouse_move c)
    (original_mouse_move c) (fill_color c) (blend_mode c).

Definition set_initial_mask (c : ExpandCache) (v : list F32.float) : ExpandCache :=
  mkExpandCache (target c) (falloff_factor c) (face_falloff_factor c)
    (max_falloff_factor c) (max_face_falloff_factor c) (active_factor c)
    (falloff_factor_type c) (invert c) (preserve c) (falloff_gradient c) (snap c)
    (move c) (modify_active c) (expand_from_active c) (snap_enabled_face_sets c) v
    (initial_face_sets c) (initial_color c) (next_face_set c) (initial_active_vertex
    c) (initial_active_face_set c) (initial_mouse c) (initial_mouse_move c)
    (original_mouse_move c) (fill_color c) (blend_mode c).

Definition set_initial_face_sets (c : ExpandCache) (v : list Z) : ExpandCache :=
  mkExpandCache (target c) (falloff_factor c) (face_falloff_factor c)
    (max_falloff_factor c) (max_face_falloff_factor c) (active_factor c)
    (falloff_factor_type c) (invert c) (preserve c) (falloff_gradient c) (snap c)
    (move c) (modify_active c) (expand_from_active c) (snap_enabled_face_sets c)
    (initial_mask c) v (initial_color c) (next_face_set c) (initial_active_vertex c)
    (initial_active_face_set c) (initial_mouse c) (initial_mouse_move c)
    (original_mouse_move c) (fill_color c) (blend_mode c).

Definition set_initial_color (c : ExpandCache) (v : list float4) : ExpandCache :=
  mkExpandCache (target c) (falloff_factor c) (face_falloff_factor c)
    (max_falloff_factor c) (max_face_falloff_factor c) (active_factor c)
    (falloff_factor_type c) (invert c) (preserve c) (falloff_gradient c) (snap c)
    (move c) (modify_active c) (expand_from_active c) (snap_enabled_face_sets c)
    (initial_mask c) (initial_face_sets c) v (next_face_set c)
    (initial_active_vertex c) (initial_active_face_set c) (initial_mouse c)
    (initial_mouse_move c) (original_mouse_move c) (fill_color c) (blend_mode c).

Definition set_next_face_set (c : ExpandCache) (v : Z) : ExpandCache :=
  mkExpandCache (target c) (falloff_factor c) (face_falloff_factor c)
    (max_falloff_factor c) (max_face_falloff_factor c) (active_factor c)
    (falloff_factor_type c) (invert c) (preserve c) (falloff_gradient c) (snap c)
    (move c) (modify_active c) (expand_from_active c) (snap_enabled_face_sets c)
    (initial_mask c) (initial_face_sets c) (initial_color c) v
    (initial_active_vertex c) (initial_active_face_set c) (initial_mouse c)
    (initial_mouse_move c) (original_mouse_move c) (fill_color c) (blend_mode c).

Definition set_initial_active_vertex (c : ExpandCache) (v : Z) : ExpandCache :=
  mkExpandCache (target c) (falloff_factor c) (face_falloff_factor c)
    (max_falloff_factor c) (max_face_falloff_factor c) (active_factor c)
    (falloff_factor_type c) (invert c) (preserve c) (falloff_gradient c) (snap c)
    (move c) (modify_active c) (expand_from_active c) (snap_enabled_face_sets c)
    (initial_mask c) (initial_face_sets c) (initial_color c) (next_face_set c) v
    (initial_active_face_set c) (initial_mouse c) (initial_mouse_move c)
    (original_mouse_move c) (fill_color c) (blend_mode c).

Definition set_initial_active_face_set (c : ExpandCache) (v : Z) : ExpandCache :=
  mkExpandCache (target c) (falloff_factor c) (face_falloff_factor c)
    (max_falloff_factor c) (max_face_falloff_factor c) (active_factor c)
    (falloff_factor_type c) (invert c) (preserve c) (falloff_gradient c) (snap c)
    (move c) (modify_active c) (expand_from_active c) (snap_enabled_face_sets c)
    (initial_mask c) (initial_face_sets c) (initial_color c) (next_face_set c)
    (initial_active_vertex c) v (initial_mouse c) (initial_mouse_move c)
    (original_mouse_move c) (fill_color c) (blend_mode c).

Definition set_initial_mouse (c : ExpandCache) (v : float2) : ExpandCache :=
  mkExpandCache (target c) (falloff_factor c) (face_falloff_factor c)
    (max_falloff_factor c) (max_face_falloff_factor c) (active_factor c)
    (falloff_factor_type c) (invert c) (preserve c) (falloff_gradient c) (snap c)
    (move c) (modify_active c) (expand_from_active c) (snap_enabled_face_sets c)
    (initial_mask c) (initial_face_sets c) (initial_color c) (next_face_set c)
    (initial_active_vertex c) (initial_active_face_set c) v (initial_mouse_move c)
    (original_mouse_move c) (fill_color c) (blend_mode c).

Definition set_initial_mouse_move (c : ExpandCache) (v : float2) : ExpandCache :=
  mkExpandCache (target c) (falloff_factor c) (face_falloff_factor c)
    (max_falloff_factor c) (max_face_falloff_factor c) (active_factor c)
    (falloff_factor_type c) (invert c) (preserve c) (falloff_gradient c) (snap c)
    (move c) (modify_active c) (expand_from_active c) (snap_enabled_face_sets c)
    (initial_mask c) (initial_face_sets c) (initial_color c) (next_face_set c)
    (initial_active_vertex c) (initial_active_face_set c) (initial_mouse c) v
    (original_mouse_move c) (fill_color c) (blend_mode c).

Definition set_original_mouse_move (c : ExpandCache) (v : float2) : ExpandCache :=
  mkExpandCache (target c) (falloff_factor c) (face_falloff_factor c)
    (max_falloff_factor c) (max_face_falloff_factor c) (active_factor c)
    (falloff_factor_type c) (invert c) (preserve c) (falloff_gradient c) (snap c)
    (move c) (modify_active c) (expand_from_active c) (snap_enabled_face_sets c)
    (initial_mask c) (initial_face_sets c) (initial_color c) (next_face_set c)
    (initial_active_vertex c) (initial_active_face_set c) (initial_mouse c)
    (initial_mouse_move c) v (fill_color c) (blend_mode c).

(** The part of [SculptSession] that the operator reads and writes: the
    mask, the face sets and the colors of the mesh, the active vertex and
    face under the cursor, and the expand cache. *)
Record SculptSession := mkSession {
  vmask : list F32.float;
  face_sets : list Z;
  vcol : list float4;
  active_vertex : Z;
  active_face_index : nat;
  expand_cache : option ExpandCache
}.

(** The services of the host that the session calls. *)
Record Host := mkHost {
  mesh : Mesh;
  polys : PolyMesh;
  totfaces : nat;
  (** [SCULPT_geodesic_from_vertex_and_symm (sd, ob, vertex, FLT_MAX)] and
      [SCULPT_geodesic_distances_create (ob, initial_vertices, FLT_MAX)] *)
  SCULPT_geodesic_from_vertex_and_symm : Z -> list F32.float;
  SCULPT_geodesic_distances_create : list nat -> list F32.float;
  SCULPT_vertex_is_boundary : Z -> bool;
  (** [SCULPT_vertex_face_set_get], [SCULPT_active_face_set_get] (from the
      face sets and the active face), [ED_sculpt_face_sets_find_next_available_id] *)
  SCULPT_vertex_face_set_get : list Z -> nat -> Z;
  SCULPT_active_face_set_get : list Z -> nat -> Z;
  ED_sculpt_face_sets_find_next_available_id : list Z -> Z;
  (** [SCULPT_cursor_geometry_info_update]: the vertex and the face under
      the cursor, when it is over the mesh *)
  SCULPT_cursor_geometry_info_update : float2 -> option (Z * nat);
  IMB_blend_color_float : Z -> float4 -> float4 -> float4
}.

(** The properties of the operator and the brush settings read at
    invocation. *)
Record ExpandProps := mkProps {
  prop_invert : bool;
  use_mask_preserve : bool;
  use_falloff_gradient : bool;
  prop_target : eSculptExpandTargetType;
  use_modify_active : bool;
  use_expand_from_active : bool;
  brush_color : float4;
  brush_blend : Z
}.

Definition neg_FLT_MAX : F32.float := SFopp F32.FLT_MAX.

(** The maximum of the entries that are not [FLT_MAX], from [-FLT_MAX]. *)
Definition max_of_factors (n : nat) (factors : list F32.float) : F32.float :=
  for_range n
    (fun i mx => if F32.eqb (aget factors i) F32.FLT_MAX then mx
                 else F32.max_ff mx (aget factors i))
    neg_FLT_MAX.

Definition sculpt_expand_update_max_falloff_factor (h : Host) (c : ExpandCache)
  : ExpandCache :=
  set_max_falloff_factor c (max_of_factors (totvert (mesh h)) (falloff_factor c)).

Definition sculpt_expand_update_max_face_falloff_factor (h : Host) (c : ExpandCache)
  : ExpandCache :=
  set_max_face_falloff_factor c (max_of_factors (totfaces h) (face_falloff_factor c)).

Definition sculpt_expand_mesh_face_falloff_from_vertex_falloff (h : Host)
           (c : ExpandCache) : ExpandCache :=
  set_face_falloff_factor c
    (map (fun poly =>
            let accum :=
              for_range (totloop poly)
                (fun l accum =>
                   let v := default O (mloop (polys h) !! (l + loopstart poly)%nat) in
                   F32.add accum (aget (falloff_factor c) v))
                F32.zero in
            F32.div accum (F32.of_int (Z.of_nat (totloop poly))))
         (mpoly (polys h))).

Definition sculpt_expand_falloff_factors_from_vertex_and_symm_create (h : Host)
           (c : ExpandCache) (vertex : Z) (falloff_type : eSculptExpandFalloffType)
  : ExpandCache :=
  let factors :=
    match falloff_type with
    | SCULPT_EXPAND_FALLOFF_GEODESICS => SCULPT_geodesic_from_vertex_and_symm h vertex
    | SCULPT_EXPAND_FALLOFF_TOPOLOGY => sculpt_expand_topology_falloff_create (mesh h) vertex
    | SCULPT_EXPAND_FALLOFF_NORMALS =>
        sculpt_expand_normal_falloff_create (mesh h) vertex (F32.of_int 300)
    | SCULPT_EXPAND_FALLOFF_SPHERICAL => sculpt_expand_spherical_falloff_create (mesh h) vertex
    | SCULPT_EXPAND_FALLOFF_BOUNDARY_TOPOLOGY =>
        sculpt_expand_boundary_topology_falloff_create (mesh h) vertex
    end in
  let c := set_falloff_factor c factors in
  let c := set_falloff_factor_type c falloff_type in
  let c := sculpt_expand_update_max_falloff_factor h c in
  match target c with
  | SCULPT_EXPAND_TARGET_FACE_SETS =>
      sculpt_expand_update_max_face_falloff_factor h
        (sculpt_expand_mesh_face_falloff_from_vertex_falloff h c)
  | _ => c
  end.

(** [sculpt_expand_cache_free] releases the arrays of the cache and the
    cache itself; [sculpt_expand_cancel] does this and clears the status
    text, nothing else. *)
Definition sculpt_expand_cancel (ss : SculptSession) : SculptSession :=
  mkSession (vmask ss) (face_sets ss) (vcol ss) (active_vertex ss)
    (active_face_index ss) None.

Definition zmem (x : Z) (l : list Z) : bool := existsb (Z.eqb x) l.

Definition sculpt_expand_state_get (h : Host) (ss : SculptSession) (c : ExpandCache)
           (i : nat) : bool :=
  let enabled :=
    if snap c then
      let face_set := SCULPT_vertex_face_set_get h (face_sets ss) i in
      zmem face_set (default [] (snap_enabled_face_sets c))
    else F32.leb (aget (falloff_factor c) i) (active_factor c) in
  if invert c then negb enabled else enabled.

Definition sculpt_expand_face_state_get (ss : SculptSession) (c : ExpandCache)
           (f : nat) : bool :=
  let enabled :=
    match snap_enabled_face_sets c with
    | Some enabled_face_sets => zmem (iget (face_sets ss) f) enabled_face_sets
    | None => F32.leb (aget (face_falloff_factor c) f) (active_factor c)
    end in
  if invert c then negb enabled else enabled.

Definition sculpt_expand_gradient_falloff_get (c : ExpandCache) (i : nat) : F32.float :=
  if negb (falloff_gradient c) then F32.one
  else if invert c then
    F32.div (F32.sub (aget (falloff_factor c) i) (active_factor c))
            (F32.sub (max_falloff_factor c) (active_factor c))
  else F32.sub F32.one (F32.div (aget (falloff_factor c) i) (active_factor c)).

Definition set_vmask (ss : SculptSession) (v : list F32.float) : SculptSession :=
  mkSession v (face_sets ss) (vcol ss) (active_vertex ss) (active_face_index ss)
    (expand_cache ss).
Definition set_face_sets (ss : SculptSession) (v : list Z) : SculptSession :=
  mkSession (vmask ss) v (vcol ss) (active_vertex ss) (active_face_index ss)
    (expand_cache ss).
Definition set_vcol (ss : SculptSession) (v : list float4) : SculptSession :=
  mkSession (vmask ss) (face_sets ss) v (active_vertex ss) (active_face_index ss)
    (expand_cache ss).
Definition set_expand_cache (ss : SculptSession) (c : option ExpandCache)
  : SculptSession :=
  mkSession (vmask ss) (face_sets ss) (vcol ss) (active_vertex ss)
    (active_face_index ss) c.

(** [clamp_f] of the math library: first against the upper bound. *)
Definition clamp_f (value lo hi : F32.float) : F32.float :=
  if F32.ltb hi value then hi else if F32.ltb value lo then lo else value.

(** [sculpt_expand_mask_update_task_cb], over all the vertices of all the
    nodes. *)
Definition sculpt_expand_mask_update (h : Host) (c : ExpandCache) (ss : SculptSession)
  : SculptSession :=
  for_range (totvert (mesh h))
    (fun i ss =>
       (* the local [initial_mask]: the mask of the vertex before this update *)
       let vd_initial_mask := aget (vmask ss) i in
       let enabled := sculpt_expand_state_get h ss c i in
       let new_mask :=
         if enabled then sculpt_expand_gradient_falloff_get c i else F32.zero in
       let new_mask :=
         if preserve c then F32.max_ff new_mask (aget (initial_mask c) i) else new_mask in
       if F32.eqb new_mask vd_initial_mask then ss
       else set_vmask ss (<[i := clamp_f new_mask F32.zero F32.one]> (vmask ss)))
    ss.

Definition sculpt_expand_face_sets_update (h : Host) (c : ExpandCache)
           (ss : SculptSession) : SculptSession :=
  for_range (totfaces h)
    (fun f ss =>
       let enabled := sculpt_expand_face_state_get ss c f in
       if negb enabled then ss
       else if preserve c then
         set_face_sets ss (<[f := iget (face_sets ss) f + next_face_set c]> (face_sets ss))
       else set_face_sets ss (<[f := next_face_set c]> (face_sets ss)))
    ss.

Definition zero_v4 : float4 := (F32.zero, F32.zero, F32.zero, F32.zero).

Definition mul_v4_v4fl (a : float4) (f : F32.float) : float4 :=
  let '(a0, a1, a2, a3) := a in (F32.mul a0 f, F32.mul a1 f, F32.mul a2 f, F32.mul a3 f).

Definition equals_v4v4 (a b : float4) : bool :=
  let '(a0, a1, a2, a3) := a in
  let '(b0, b1, b2, b3) := b in
  F32.eqb a0 b0 && F32.eqb a1 b1 && F32.eqb a2 b2 && F32.eqb a3 b3.

Definition sculpt_expand_colors_update (h : Host) (c : ExpandCache) (ss : SculptSession)
  : SculptSession :=
  for_range (totvert (mesh h))
    (fun i ss =>
       (* the local [initial_color]: the color of the vertex before this update *)
       let vd_initial_color := default zero_v4 (vcol ss !! i) in
       let enabled := sculpt_expand_state_get h ss c i in
       let fade :=
         if enabled then sculpt_expand_gradient_falloff_get c i else F32.zero in
       let fade := F32.mul fade (F32.sub F32.one (aget (vmask ss) i)) in
       let fade := clamp_f fade F32.zero F32.one in
       let final_fill_color := mul_v4_v4fl (fill_color c) fade in
       let final_color :=
         IMB_blend_color_float h (blend_mode c)
           (default zero_v4 (initial_color c !! i)) final_fill_color in
       if equals_v4v4 vd_initial_color final_color then ss
       else set_vcol ss (<[i := final_color]> (vcol ss)))
    ss.

Definition sculpt_expand_initial_state_store (h : Host) (ss : SculptSession)
           (c : ExpandCache) : ExpandCache :=
  let c := set_initial_mask c (map (fun i => aget (vmask ss) i) (seq 0 (totvert (mesh h)))) in
  let c := set_initial_face_sets c
             (map (fun i => iget (face_sets ss) i) (seq 0 (totfaces h))) in
  match target c with
  | SCULPT_EXPAND_TARGET_COLORS =>
      set_initial_color c
        (map (fun i => default zero_v4 (vcol ss !! i)) (seq 0 (totvert (mesh h))))
  | _ => c
  end.

Definition sculpt_expand_face_sets_restore (h : Host) (c : ExpandCache)
           (ss : SculptSession) : SculptSession :=
  for_range (totfaces h)
    (fun i ss => set_face_sets ss (<[i := iget (initial_face_sets c) i]> (face_sets ss)))
    ss.

(** [sculpt_expand_update_for_vertex]: the new cache and the new mesh
    channels. *)
Definition sculpt_expand_update_for_vertex (h : Host) (ss : SculptSession)
           (c : ExpandCache) (vertex : Z) : SculptSession :=
  let c :=
    if vertex =? SCULPT_EXPAND_VERTEX_NONE then set_active_factor c (max_falloff_factor c)
    else set_active_factor c (aget (falloff_factor c) (Z.to_nat vertex)) in
  let ss :=
    match target c with
    | SCULPT_EXPAND_TARGET_FACE_SETS => sculpt_expand_face_sets_restore h c ss
    | _ => ss
    end in
  let ss :=
    match target c with
    | SCULPT_EXPAND_TARGET_MASK => sculpt_expand_mask_update h c ss
    | SCULPT_EXPAND_TARGET_FACE_SETS => sculpt_expand_face_sets_update h c ss
    | SCULPT_EXPAND_TARGET_COLORS => sculpt_expand_colors_update h c ss
    end in
  set_expand_cache ss (Some c).

(** The vertex under the cursor, or [SCULPT_EXPAND_VERTEX_NONE]; a hit
    moves the active vertex and the active face of the session. *)
Definition sculpt_expand_target_vertex_update_and_get (h : Host) (ss : SculptSession)
           (mouse : float2) : SculptSession * Z :=
  match SCULPT_cursor_geometry_info_update h mouse with
  | Some (v, f) =>
      (mkSession (vmask ss) (face_sets ss) (vcol ss) v f (expand_cache ss), v)
  | None => (ss, SCULPT_EXPAND_VERTEX_NONE)
  end.

(** [sculpt_expand_finish]: the undo step is closed and the cache freed;
    the mesh channels stay as the last update left them. *)
Definition sculpt_expand_finish (ss : SculptSession) : SculptSession :=
  set_expand_cache ss None.

Definition sculpt_expand_bitmap_from_enabled (h : Host) (ss : SculptSession)
           (c : ExpandCache) : list bool :=
  map (fun i => sculpt_expand_state_get h ss c i) (seq 0 (totvert (mesh h))).

(** [sculpt_expand_resursion_step_add].  The topological distances that
    the function computes from the same boundary are stored nowhere; the
    new falloff is the geodesic one from the boundary of the enabled
    vertices. *)
Definition sculpt_expand_resursion_step_add (h : Host) (ss : SculptSession)
           (c : ExpandCache) : ExpandCache :=
  let enabled_vertices := sculpt_expand_bitmap_from_enabled h ss c in
  let initial_vertices :=
    for_range (totvert (mesh h))
      (fun i initial_vertices =>
         if negb (default false (enabled_vertices !! i)) then initial_vertices
         else
           let is_expand_boundary :=
             fold_left
               (fun b ni => if negb (default false (enabled_vertices !! ni)) then true else b)
               (neighbors (mesh h) i) false in
           if is_expand_boundary then initial_vertices ++ [i] else initial_vertices)
      [] in
  let c := set_face_falloff_factor c [] in
  let c := set_falloff_factor c (SCULPT_geodesic_distances_create h initial_vertices) in
  let c := sculpt_expand_update_max_falloff_factor h c in
  match target c with
  | SCULPT_EXPAND_TARGET_FACE_SETS =>
      sculpt_expand_update_max_face_falloff_factor h
        (sculpt_expand_mesh_face_falloff_from_vertex_falloff h c)
  | _ => c
  end.

Definition sculpt_expand_set_initial_components_for_mouse (h : Host)
           (ss : SculptSession) (c : ExpandCache) (mouse : float2)
  : SculptSession * ExpandCache :=
  let '(ss, initial_vertex) := sculpt_expand_target_vertex_update_and_get h ss mouse in
  let initial_vertex :=
    if initial_vertex =? SCULPT_EXPAND_VERTEX_NONE then active_vertex ss
    else initial_vertex in
  let active_face_set :=
    SCULPT_active_face_set_get h (face_sets ss) (active_face_index ss) in
  let c := set_initial_mouse c mouse in
  let c := set_initial_active_vertex c initial_vertex in
  let c := set_initial_active_face_set c active_face_set in
  let c :=
    if modify_active c then set_next_face_set c active_face_set
    else set_next_face_set c
           (ED_sculpt_face_sets_find_next_available_id h (face_sets ss)) in
  (ss, c).

Definition sub_v2_v2v2 (a b : float2) : float2 :=
  (F32.sub (fst a) (fst b), F32.sub (snd a) (snd b)).
Definition add_v2_v2v2 (a b : float2) : float2 :=
  (F32.add (fst a) (fst b), F32.add (snd a) (snd b)).

Definition sculpt_expand_move_propagation_origin (h : Host) (ss : SculptSession)
           (c : ExpandCache) (mouse : float2) : SculptSession * ExpandCache :=
  let move_disp := sub_v2_v2v2 mouse (initial_mouse_move c) in
  let new_mouse := add_v2_v2v2 move_disp (original_mouse_move c) in
  let '(ss, c) := sculpt_expand_set_initial_components_for_mouse h ss c new_mouse in
  (ss, sculpt_expand_falloff_factors_from_vertex_and_symm_create h c
         (initial_active_vertex c) (falloff_factor_type c)).

(** The [GSet] of face set ids: [BLI_gset_add] puts the key in without
    looking for it, [BLI_gset_remove] takes one entry out. *)
Fixpoint gset_remove (x : Z) (l : list Z) : list Z :=
  match l with
  | [] => []
  | y :: l => if x =? y then l else y :: gset_remove x l
  end.

Definition sculpt_expand_snap_initialize_from_enabled (h : Host) (ss : SculptSession)
           (c : ExpandCache) : ExpandCache :=
  let prev_snap_state := snap c in
  let prev_invert_state := invert c in
  let c := set_invert (set_snap c false) false in
  let enabled_vertices := sculpt_expand_bitmap_from_enabled h ss c in
  let enabled_face_sets := default [] (snap_enabled_face_sets c) in
  let enabled_face_sets :=
    for_range (totfaces h)
      (fun i enabled_face_sets => iget (initial_face_sets c) i :: enabled_face_sets)
      enabled_face_sets in
  let enabled_face_sets :=
    for_range (totfaces h)
      (fun p_index enabled_face_sets =>
         let poly := default (mkPoly 0 0) (mpoly (polys h) !! p_index) in
         let any_disabled :=
           for_range (totloop poly)
             (fun l any_disabled =>
                let v := default O (mloop (polys h) !! (l + loopstart poly)%nat) in
                if negb (default false (enabled_vertices !! v)) then true
                else any_disabled)
             false in
         if any_disabled then
           let face_set := iget (initial_face_sets c) p_index in
           if zmem face_set enabled_face_sets then gset_remove face_set enabled_face_sets
           else enabled_face_sets
         else enabled_face_sets)
      enabled_face_sets in
  let c := set_snap_enabled_face_sets c (Some enabled_face_sets) in
  set_invert (set_snap c prev_snap_state) prev_invert_state.

(** The items of the modal keymap. *)
Inductive modal_key :=
| SCULPT_EXPAND_MODAL_CONFIRM
| SCULPT_EXPAND_MODAL_CANCEL
| SCULPT_EXPAND_MODAL_INVERT
| SCULPT_EXPAND_MODAL_PRESERVE_TOGGLE
| SCULPT_EXPAND_MODAL_GRADIENT_TOGGLE
| SCULPT_EXPAND_MODAL_FALLOFF_CYCLE
| SCULPT_EXPAND_MODAL_RECURSION_STEP
| SCULPT_EXPAND_MODAL_MOVE_TOGGLE
| SCULPT_EXPAND_MODAL_FALLOFF_GEODESICS
| SCULPT_EXPAND_MODAL_FALLOFF_TOPOLOGY
| SCULPT_EXPAND_MODAL_FALLOFF_SPHERICAL
| SCULPT_EXPAND_MODAL_SNAP_TOGGLE.

Inductive event_type := EVT_MODAL_MAP | MOUSEMOVE | EVT_OTHER.

Record wmEvent := mkEvent { ev_type : event_type; ev_val : modal_key; mval : Z * Z }.

Inductive operator_result := OPERATOR_RUNNING_MODAL | OPERATOR_FINISHED.

Definition event_mouse (event : wmEvent) : float2 :=
  (F32.of_int (fst (mval event)), F32.of_int (snd (mval event))).

(** [sculpt_expand_modal].  The keymap has an item for cancelling, the
    switch has no case for it. *)
Definition sculpt_expand_modal (h : Host) (ss : SculptSession) (event : wmEvent)
  : SculptSession * operator_result :=
  let mouse := event_mouse event in
  let '(ss, target_expand_vertex) :=
    sculpt_expand_target_vertex_update_and_get h ss mouse in
  match expand_cache ss with
  | None => (ss, OPERATOR_RUNNING_MODAL)
  | Some c =>
      let keyed : SculptSession * ExpandCache * bool :=
        match ev_type event with
        | EVT_MODAL_MAP =>
            match ev_val event with
            | SCULPT_EXPAND_MODAL_INVERT => (ss, set_invert c (negb (invert c)), false)
            | SCULPT_EXPAND_MODAL_PRESERVE_TOGGLE =>
                (ss, set_preserve c (negb (preserve c)), false)
            | SCULPT_EXPAND_MODAL_GRADIENT_TOGGLE =>
                (ss, set_falloff_gradient c (negb (falloff_gradient c)), false)
            | SCULPT_EXPAND_MODAL_SNAP_TOGGLE =>
                if snap c then
                  (ss, set_snap_enabled_face_sets (set_snap c false) None, false)
                else
                  let c := set_snap c true in
                  let c :=
                    match snap_enabled_face_sets c with
                    | None => set_snap_enabled_face_sets c (Some [])
                    | Some _ => c
                    end in
                  (ss, sculpt_expand_snap_initialize_from_enabled h ss c, false)
            | SCULPT_EXPAND_MODAL_MOVE_TOGGLE =>
                if move c then (ss, set_move c false, false)
                else
                  let c := set_move c true in
                  let c := set_initial_mouse_move c mouse in
                  (ss, set_original_mouse_move c (initial_mouse c), false)
            | SCULPT_EXPAND_MODAL_RECURSION_STEP =>
                (ss, sculpt_expand_resursion_step_add h ss c, false)
            | SCULPT_EXPAND_MODAL_CONFIRM =>
                (sculpt_expand_finish
                   (sculpt_expand_update_for_vertex h ss c target_expand_vertex),
                 c, true)
            | SCULPT_EXPAND_MODAL_FALLOFF_GEODESICS =>
                (ss, sculpt_expand_falloff_factors_from_vertex_and_symm_create h c
                       (initial_active_vertex c) SCULPT_EXPAND_FALLOFF_GEODESICS, false)
            | SCULPT_EXPAND_MODAL_FALLOFF_TOPOLOGY =>
                (ss, sculpt_expand_falloff_factors_from_vertex_and_symm_create h c
                       (initial_active_vertex c) SCULPT_EXPAND_FALLOFF_TOPOLOGY, false)
            | SCULPT_EXPAND_MODAL_FALLOFF_SPHERICAL =>
                (ss, sculpt_expand_falloff_factors_from_vertex_and_symm_create h c
                       (initial_active_vertex c) SCULPT_EXPAND_FALLOFF_SPHERICAL, false)
            | _ => (ss, c, false)
            end
        | _ => (ss, c, false)
        end in
      let '(ss, c, finished) := keyed in
      if finished then (ss, OPERATOR_FINISHED)
      else
        match ev_type event with
        | MOUSEMOVE =>
            let '(ss, c) :=
              if move c then sculpt_expand_move_propagation_origin h ss c mouse
              else (ss, c) in
            let c :=
              if snap c then
                let active_face_set_id :=
                  iget (initial_face_sets c) (active_face_index ss) in
                let enabled_face_sets := default [] (snap_enabled_face_sets c) in
                if negb (zmem active_face_set_id enabled_face_sets) then
                  set_snap_enabled_face_sets c
                    (Some (active_face_set_id :: enabled_face_sets))
                else c
              else c in
            (sculpt_expand_update_for_vertex h ss c target_expand_vertex,
             OPERATOR_RUNNING_MODAL)
        | _ => (set_expand_cache ss (Some c), OPERATOR_RUNNING_MODAL)
        end
  end.

(** The cache as [MEM_callocN] returns it, then
    [sculpt_expand_cache_initial_config_set]. *)
Definition sculpt_expand_cache_initial_config_set (props : ExpandProps) : ExpandCache :=
  mkExpandCache (prop_target props) [] [] F32.zero F32.zero F32.zero
    SCULPT_EXPAND_FALLOFF_GEODESICS
    (prop_invert props) (use_mask_preserve props) (use_falloff_gradient props)
    false false (use_modify_active props) (use_expand_from_active props) None
    [] [] [] 0 0 0 (F32.zero, F32.zero) (F32.zero, F32.zero) (F32.zero, F32.zero)
    (brush_color props) (brush_blend props).

(** [sculpt_expand_invoke]; [None] when the erasure of the active face set
    id runs out of fuel. *)
Definition sculpt_expand_invoke (fuel : nat) (h : Host) (ss : SculptSession)
           (props : ExpandProps) (event : wmEvent) : option SculptSession :=
  let c := sculpt_expand_cache_initial_config_set props in
  let mouse := event_mouse event in
  let '(ss, c) := sculpt_expand_set_initial_components_for_mouse h ss c mouse in
  let c := sculpt_expand_initial_state_store h ss c in
  let stored :=
    if modify_active c then
      match sculpt_expand_delete_face_set_id fuel (polys h) (initial_face_sets c)
              (totfaces h) (next_face_set c) with
      | Some erased => Some (set_initial_face_sets c erased)
      | None => None
      end
    else Some c in
  match stored with
  | None => None
  | Some c =>
      let falloff_type :=
        if SCULPT_vertex_is_boundary h (initial_active_vertex c)
        then SCULPT_EXPAND_FALLOFF_BOUNDARY_TOPOLOGY
        else SCULPT_EXPAND_FALLOFF_GEODESICS in
      let c := sculpt_expand_falloff_factors_from_vertex_and_symm_create h c
                 (initial_active_vertex c) falloff_type in
      Some (sculpt_expand_update_for_vertex h ss c (initial_active_vertex c))
  end.

(** The mesh channels a session paints on. *)
Definition mesh_channels (ss : SculptSession)
  : list F32.float * list Z * list float4 :=
  (vmask ss, face_sets ss, vcol ss).

(** The session after the modal events [events], as long as the operator
    keeps running. *)
Fixpoint run_modal (h : Host) (ss : SculptSession) (events : list wmEvent)
  : SculptSession :=
  match events with
  | [] => ss
  | event :: events =>
      match sculpt_expand_modal h ss event with
      | (ss, OPERATOR_RUNNING_MODAL) => run_modal h ss events
      | (ss, OPERATOR_FINISHED) => ss
      end
  end.

(** ** Statements about the falloffs *)

(** [hops d]: the float reached from 0.0 by [d] additions of 1.0, which
    is how the traversals count; it is the number [d] itself as long as
    [d] is at most 2^24. *)
Definition hops (d : nat) : F32.float :=
  Nat.iter d (fun f : F32.float => F32.add f F32.one) F32.zero.

(** [walk edges s v w]: a walk from [s] to [v] along [edges] whose edges
    not flagged as duplicates number [w]. *)
Inductive walk (edges : nat -> list (nat * bool)) (s : nat) : nat -> nat -> Prop :=
| walk_here : walk edges s s O
| walk_step (v t : nat) (dup : bool) (w : nat) :
    walk edges s v w -> (t, dup) ∈ edges v ->
    walk edges s t (if dup then w else S w).

(** [v] is at distance [d] of the seed set: some walk from a seed has
    weight [d], none has less. *)
Definition at_distance (edges : nat -> list (nat * bool)) (seeds : list nat)
           (v d : nat) : Prop :=
  (exists s, s ∈ seeds /\ walk edges s v d)
  /\ forall s d', s ∈ seeds -> walk edges s v d' -> (d <= d')%nat.

Definition reachable (edges : nat -> list (nat * bool)) (seeds : list nat)
           (v : nat) : Prop :=
  exists s d, s ∈ seeds /\ walk edges s v d.

(** The edges of the plain neighbour iteration: none is a duplicate. *)
Definition plain_edges (m : Mesh) (v : nat) : list (nat * bool) :=
  map (fun ni => (ni, false)) (neighbors m v).

(** The origins of the valid symmetry iterations that resolve to a
    vertex, in iteration order. *)
Definition symmetry_origins (m : Mesh) (vertex : Z) : list nat :=
  omap (fun symm_it =>
          if is_symmetry_iteration_valid m symm_it (symm m) then
            let v := symmetry_origin m vertex symm_it in
            if v =? -1 then None else Some (Z.to_nat v)
          else None)
       (seq 0 (S (symm m))).


(** The boundary vertices of the valid symmetry iterations. *)
Definition boundary_seeds (m : Mesh) (vertex : Z) : list nat :=
  concat (map (fun symm_it =>
                 if is_symmetry_iteration_valid m symm_it (symm m)
                 then boundary_vertices m (symmetry_origin m vertex symm_it)
                 else [])
              (seq 0 (S (symm m)))).

(** Every index handed out by the mesh is a vertex index. *)
Definition edges_in_range (n : nat) (edges : nat -> list (nat * bool)) : Prop :=
  forall v t dup, (t, dup) ∈ edges v -> (t < n)%nat.

(** The bitmap [vis] with the vertices of [l] marked. *)
Definition mark_all (vis : list bool) (l : list nat) : list bool :=
  fold_left (fun vis s => <[s := true]> vis) l vis.

(** The traversal state inside a flood fill and its user data. *)
Definition flood_state (st : SculptFloodFill * ExpandFloodFillData)
  : bfs_state F32.float :=
  (queue (fst st), visited_vertices (fst st), dists (snd st)).

(** An infinity or a NaN; a huge value: [FLT_MAX], an infinity or a NaN. *)
Definition inf_or_nan (a : F32.float) : Prop :=
  match a with S754_infinity _ | S754_nan => True | _ => False end.

Definition huge (a : F32.float) : Prop := a = F32.FLT_MAX \/ inf_or_nan a.

(** Membership in the interval [0, 1]. *)
Definition in_unit_interval (a : F32.float) : bool :=
  F32.leb F32.zero a && F32.leb a F32.one.

(** *** The invariant of the traversal *)

Definition is_visited (vis : list bool) (v : nat) : Prop := vis !! v = Some true.

Definition level_of (lev : list nat) (v : nat) : nat := default O (lev !! v).

(** The state of a traversal that counts in naturals, between two rounds:
    the queue holds visited vertices in the order of their levels, which
    span at most two consecutive values; a visited vertex is at most one
    level above any queued one and its level is the weight of a walk from a
    seed; the edges of a visited vertex that has left the queue lead to
    visited vertices at most one level up; the seeds are visited, at level
    0. *)
Definition bfs_inv (edges : nat -> list (nat * bool)) (n : nat) (seeds : list nat)
           (q : list nat) (vis : list bool) (lev : list nat) : Prop :=
  (length vis = n /\ length lev = n)
  /\ (forall v, v ∈ q -> is_visited vis v)
  /\ (forall v, is_visited vis v ->
        exists s, s ∈ seeds /\ walk edges s v (level_of lev v))
  /\ (forall i j a b, (i <= j)%nat -> q !! i = Some a -> q !! j = Some b ->
        (level_of lev a <= level_of lev b)%nat)
  /\ (forall a v, a ∈ q -> is_visited vis v ->
        (level_of lev v <= S (level_of lev a))%nat)
  /\ (forall v, is_visited vis v -> v ∉ q ->
        forall t dup, (t, dup) ∈ edges v ->
          is_visited vis t /\ (level_of lev t <= S (level_of lev v))%nat)
  /\ (forall s, s ∈ seeds -> is_visited vis s /\ level_of lev s = O).

(** The topological falloff as the specification states it: every vertex
    at distance [d] of the origin set, duplicate edges counting for
    nothing, holds the float [d]. *)
Definition topological_exact (m : Mesh) (vertex : Z) : Prop :=
  forall v d,
    at_distance (neighbors_dup m) (symmetry_origins m vertex) v d ->
    sculpt_expand_topology_falloff_create m vertex !! v = Some (hops d).

(** ** Small meshes used as examples *)

(** The Euclidean distance with binary32 arithmetic throughout. *)
Definition euclid_len (a b : vec3) : F32.float :=
  let '(a0, a1, a2) := a in
  let '(b0, b1, b2) := b in
  let d0 := F32.sub b0 a0 in
  let d1 := F32.sub b1 a1 in
  let d2 := F32.sub b2 a2 in
  SFsqrt F32.prec F32.emax
    (F32.add (F32.add (F32.mul d0 d0) (F32.mul d1 d1)) (F32.mul d2 d2)).

Definition euclid_dot (a b : vec3) : F32.float :=
  let '(a0, a1, a2) := a in
  let '(b0, b1, b2) := b in
  F32.add (F32.add (F32.mul a0 b0) (F32.mul a1 b1)) (F32.mul a2 b2).

(** Two vertices joined by an edge, at (0,0,0) and (1,0,0); one symmetry
    axis, whose flipped origin resolves to no vertex. *)
Definition edge_mesh : Mesh :=
  mkMesh 2
    (fun v => match v with O => [1%nat] | 1%nat => [O] | _ => [] end)
    (fun v => match v with O => [(1%nat, false)] | 1%nat => [(O, false)] | _ => [] end)
    (fun v => if v =? 0 then zero_v3 else (F32.one, F32.zero, F32.zero))
    (fun _ => (F32.zero, F32.zero, F32.one))
    1 (fun _ _ => true) (fun co _ => co) (fun _ => -1)
    (fun v => if v =? 0 then [O] else [])
    euclid_len euclid_dot (fun a _ => a).

(** Four vertices; vertex 2 is a duplicate of vertex 0 (a seam), vertex 1
    is a neighbour of 0, and vertex 3 a neighbour of both 1 and 2.  Each
    iteration lists the neighbours first and the duplicates last. *)
Definition seam_mesh : Mesh :=
  mkMesh 4
    (fun v => match v with
              | 0 => [1] | 1 => [0; 3] | 2 => [3] | 3 => [1; 2] | _ => []
              end%nat)
    (fun v => match v with
              | 0 => [(1, false); (2, true)]
              | 1 => [(0, false); (3, false)]
              | 2 => [(3, false); (0, true)]
              | 3 => [(1, false); (2, false)]
              | _ => []
              end%nat)
    (fun _ => zero_v3) (fun _ => (F32.zero, F32.zero, F32.one))
    0 (fun _ _ => true) (fun co _ => co) (fun _ => -1)
    (fun _ => [])
    euclid_len euclid_dot (fun a _ => a).

(** A triangle: three vertices, each the neighbour of the two others. *)
Definition triangle_mesh : Mesh :=
  mkMesh 3
    (fun v => match v with 0 => [1; 2] | 1 => [0; 2] | 2 => [0; 1] | _ => [] end%nat)
    (fun v => match v with
              | 0 => [(1, false); (2, false)]
              | 1 => [(0, false); (2, false)]
              | 2 => [(0, false); (1, false)]
              | _ => []
              end%nat)
    (fun _ => zero_v3) (fun _ => (F32.zero, F32.zero, F32.one))
    0 (fun _ _ => true) (fun co _ => co) (fun _ => -1)
    (fun _ => [])
    euclid_len euclid_dot (fun a _ => a).

(** Two triangles without a common vertex; face 0 carries the id 2, face 1
    the id 1. *)
Definition island_mesh : PolyMesh :=
  mkPolyMesh [mkPoly 0 3; mkPoly 3 3] [0; 1; 2; 3; 4; 5]%nat
    [[0]; [0]; [0]; [1]; [1]; [1]]%nat.
Definition island_face_sets : list Z := [2; 1].

(** The 5 by 5 grid, each vertex joined to its neighbours in the row and in
    the column; vertex [5 r + c] sits in row [r], column [c]. *)
Definition grid_neighbors (v : nat) : list nat :=
  let r := (v / 5)%nat in
  let c := (v mod 5)%nat in
  (if (0 <? r)%nat then [(v - 5)%nat] else [])
  ++ (if (r <? 4)%nat then [(v + 5)%nat] else [])
  ++ (if (0 <? c)%nat then [(v - 1)%nat] else [])
  ++ (if (c <? 4)%nat then [(v + 1)%nat] else []).

Definition grid_mesh : Mesh :=
  mkMesh 25
    (fun v => if (v <? 25)%nat then grid_neighbors v else [])
    (fun v => if (v <? 25)%nat then map (fun ni => (ni, false)) (grid_neighbors v) else [])
    (fun _ => zero_v3) (fun _ => (F32.zero, F32.zero, F32.one))
    0 (fun _ _ => true) (fun co _ => co) (fun _ => -1)
    (fun _ => [])
    euclid_len euclid_dot (fun a _ => a).

(** A session on [edge_mesh]: the mask is the target, nothing is masked at
    the start; the cursor is over vertex 0 when its x coordinate is 0 and
    over vertex 1 otherwise; the geodesic distances from vertex 0 are 0 and
    1. *)
Definition demo_host : Host :=
  mkHost edge_mesh (mkPolyMesh [] [] []) 0
    (fun _ => [F32.zero; F32.one]) (fun _ => [F32.zero; F32.zero])
    (fun _ => false) (fun _ _ => 0) (fun _ _ => 0) (fun _ => 1)
    (fun mouse => if F32.eqb (fst mouse) F32.zero then Some (0, O) else Some (1, O))
    (fun _ dst _ => dst).

Definition demo_props : ExpandProps :=
  mkProps false false false SCULPT_EXPAND_TARGET_MASK false false
    (F32.one, F32.one, F32.one, F32.one) 0.

Definition demo_session : SculptSession :=
  mkSession [F32.zero; F32.zero] [] [] 0 O None.

Definition demo_click : wmEvent := mkEvent EVT_OTHER SCULPT_EXPAND_MODAL_CONFIRM (0, 0).
Definition demo_move : wmEvent := mkEvent MOUSEMOVE SCULPT_EXPAND_MODAL_CONFIRM (1, 0).
Definition demo_key (k : modal_key) : wmEvent := mkEvent EVT_MODAL_MAP k (1, 0).

(** A session that is running on [demo_host], with the geodesic falloff
    from vertex 0 in its cache. *)
Definition demo_cache : ExpandCache :=
  set_falloff_factor (sculpt_expand_cache_initial_config_set demo_props)
    [F32.zero; F32.one].

Definition demo_running : SculptSession :=
  mkSession [F32.zero; F32.zero] [] [] 0 O (Some demo_cache).

(** Two triangles with a common edge: face 0 on the vertices 0, 1, 2 and
    face 1 on the vertices 1, 2, 3. *)
Definition pair_polys : PolyMesh :=
  mkPolyMesh [mkPoly 0 3; mkPoly 3 3] [0; 1; 2; 1; 2; 3]%nat
    [[0]; [0; 1]; [0; 1]; [1]]%nat.

Definition pair_mesh : Mesh :=
  mkMesh 4
    (fun v => match v with
              | 0 => [1; 2] | 1 => [0; 2; 3] | 2 => [0; 1; 3] | 3 => [1; 2] | _ => []
              end%nat)
    (fun v => match v with
              | 0 => [(1, false); (2, false)]
              | 1 => [(0, false); (2, false); (3, false)]
              | 2 => [(0, false); (1, false); (3, false)]
              | 3 => [(1, false); (2, false)]
              | _ => []
              end%nat)
    (fun _ => zero_v3) (fun _ => (F32.zero, F32.zero, F32.one))
    0 (fun _ _ => true) (fun co _ => co) (fun _ => -1)
    (fun _ => [])
    euclid_len euclid_dot (fun a _ => a).

(** A session on the two triangles with the face sets as the target: face
    0 carries the id 2, face 1 the id 1, and the next face set is 3. *)
Definition pair_host : Host :=
  mkHost pair_mesh pair_polys 2
    (fun _ => [F32.zero; F32.one; F32.one; F32.of_int 2])
    (fun _ => [F32.zero; F32.zero; F32.zero; F32.zero])
    (fun _ => false) (fun _ _ => 0) (fun _ _ => 0) (fun _ => 3)
    (fun _ => None) (fun _ dst _ => dst).

Definition pair_props : ExpandProps :=
  mkProps false false false SCULPT_EXPAND_TARGET_FACE_SETS false false
    (F32.one, F32.one, F32.one, F32.one) 0.

Definition pair_cache : ExpandCache :=
  set_initial_face_sets
    (set_next_face_set
       (set_face_falloff_factor
          (set_falloff_factor (sculpt_expand_cache_initial_config_set pair_props)
             [F32.zero; F32.one; F32.one; F32.of_int 2])
          [F32.zero; F32.one])
       3)
    [2; 1].

Definition pair_session (face_sets : list Z) : SculptSession :=
  mkSession [F32.zero; F32.zero; F32.zero; F32.zero] face_sets [] 0 O (Some pair_cache).

End Expand.

(** * Properties *)

(** Case analysis on the integer comparisons of a goal. *)
Ltac case_cmp :=
  repeat match goal with
    | |- context [?a <=? ?b] => destruct (Z.leb_spec a b)
    | |- context [?a <? ?b] => destruct (Z.ltb_spec a b)
    | |- context [?a =? ?b] => destruct (Z.eqb_spec a b)
    end.

Module FillFacts.
Import Fill.

(** *** Pixel access *)

Lemma get_set_pixel_same ibuf idx col :
  0 <= idx < Z.of_nat (length (rect_float ibuf)) ->
  get_pixel (set_pixel ibuf idx col) idx = col.
Proof.
  intros H. unfold get_pixel, set_pixel.
  destruct (idx <? 0) eqn:E; [lia|]. simpl.
  rewrite list_lookup_insert_eq by lia. reflexivity.
Qed.

Lemma get_set_pixel_other ibuf idx idx' col :
  idx <> idx' -> 0 <= idx' ->
  get_pixel (set_pixel ibuf idx col) idx' = get_pixel ibuf idx'.
Proof.
  intros Hne H. unfold get_pixel, set_pixel.
  destruct (idx <? 0) eqn:E; [reflexivity|]. simpl.
  destruct (idx' <? 0) eqn:E'; [reflexivity|].
  rewrite list_lookup_insert_ne by lia. reflexivity.
Qed.

Lemma set_pixel_x ibuf idx col : x (set_pixel ibuf idx col) = x ibuf.
Proof. unfold set_pixel. destruct (idx <? 0); reflexivity. Qed.

Lemma set_pixel_y ibuf idx col : y (set_pixel ibuf idx col) = y ibuf.
Proof. unfold set_pixel. destruct (idx <? 0); reflexivity. Qed.

Lemma set_pixel_length ibuf idx col :
  length (rect_float (set_pixel ibuf idx col)) = length (rect_float ibuf).
Proof.
  unfold set_pixel. destruct (idx <? 0); [reflexivity|]. simpl.
  apply length_insert.
Qed.

(** *** The seed search *)


Lemma find_seed_found ibuf i n s :
  0 <= i -> find_seed ibuf i n = s -> s <> -1 ->
  i <= s < i + Z.of_nat n
  /\ is_blue (get_pixel ibuf s) = true
  /\ forall k, i <= k < s -> is_blue (get_pixel ibuf k) = false.
Proof.
  revert i. induction n as [|n IH]; intros i Hi Hs Hne; simpl in Hs.
  - congruence.
  - destruct (is_blue (get_pixel ibuf i)) eqn:E.
    + subst s. repeat split; try lia. exact E.
    + destruct (IH (i + 1) ltac:(lia) Hs Hne) as (Hr & Hb & Hl).
      repeat split; try lia; [exact Hb|].
      intros k Hk. destruct (Z.eq_dec k i) as [->|]; [exact E|].
      apply Hl. lia.
Qed.



(** *** Inversion *)

Lemma invert_loop_x ibuf n : x (invert_loop ibuf n) = x ibuf.
Proof.
  revert ibuf. induction n as [|n IH]; intros ibuf; simpl; [reflexivity|].
  rewrite IH. apply set_pixel_x.
Qed.

Lemma invert_loop_y ibuf n : y (invert_loop ibuf n) = y ibuf.
Proof.
  revert ibuf. induction n as [|n IH]; intros ibuf; simpl; [reflexivity|].
  rewrite IH. apply set_pixel_y.
Qed.

Lemma invert_loop_length ibuf n :
  length (rect_float (invert_loop ibuf n)) = length (rect_float ibuf).
Proof.
  revert ibuf. induction n as [|n IH]; intros ibuf; simpl; [reflexivity|].
  rewrite IH. apply set_pixel_length.
Qed.

(** The loop remaps the pixels 1..n and leaves the others alone. *)
Lemma invert_loop_get ibuf n v :
  0 <= v < Z.of_nat (length (rect_float ibuf)) ->
  get_pixel (invert_loop ibuf n) v =
    if (1 <=? v) && (v <=? Z.of_nat n) then invert_color (get_pixel ibuf v)
    else get_pixel ibuf v.
Proof.
  revert ibuf. induction n as [|n IH]; intros ibuf Hv.
  - cbn [invert_loop Z.of_nat]. case_cmp; try reflexivity; lia.
  - cbn [invert_loop]. rewrite IH by (rewrite set_pixel_length; exact Hv).
    destruct (Z.eq_dec v (Z.of_nat (S n))) as [->|Hne].
    + rewrite get_set_pixel_same by exact Hv.
      replace (Z.of_nat (S n) <=? Z.of_nat n) with false
        by (symmetry; apply Z.leb_gt; lia).
      replace (1 <=? Z.of_nat (S n)) with true by (symmetry; apply Z.leb_le; lia).
      rewrite Z.leb_refl, andb_false_r. reflexivity.
    + rewrite get_set_pixel_other by lia.
      case_cmp; try reflexivity; lia.
Qed.

Lemma invert_image_get ibuf v :
  Z.of_nat (length (rect_float ibuf)) = x ibuf * y ibuf ->
  1 <= v < x ibuf * y ibuf ->
  get_pixel (gpencil_invert_image ibuf) v = invert_color (get_pixel ibuf v).
Proof.
  intros Hlen Hv. unfold gpencil_invert_image.
  rewrite invert_loop_get by lia.
  replace (1 <=? v) with true by (symmetry; apply Z.leb_le; lia).
  replace (v <=? Z.of_nat (Z.to_nat (x ibuf * y ibuf - 1))) with true
    by (symmetry; apply Z.leb_le; lia).
  reflexivity.
Qed.

Lemma invert_image_dims ibuf :
  x (gpencil_invert_image ibuf) = x ibuf
  /\ y (gpencil_invert_image ibuf) = y ibuf
  /\ length (rect_float (gpencil_invert_image ibuf)) = length (rect_float ibuf).
Proof.
  unfold gpencil_invert_image.
  rewrite invert_loop_x, invert_loop_y, invert_loop_length. auto.
Qed.

Lemma invert_color_twice p :
  invert_color (invert_color p) =
    if is_green p then green_col else if is_red p then red_col else clear_px.
Proof.
  unfold invert_color.
  destruct (is_green p); [reflexivity|].
  destruct (is_red p); reflexivity.
Qed.

(** C8, as amended.  On a canvas with one pixel per index, inverting
    twice sends every pixel of index 1 and above to a pure colour decided
    by the classification the inversion itself uses (green first, then
    red): a pixel whose green channel is 1.0 ends pure green, a pixel
    that is not green and whose red channel is 1.0 ends pure red, every
    other pixel ends transparent.  Nothing is said about index 0. *)
Theorem invert_twice_classification (ibuf : ImBuf) (v : Z) :
  Z.of_nat (length (rect_float ibuf)) = x ibuf * y ibuf ->
  1 <= v < x ibuf * y ibuf ->
  let p := get_pixel ibuf v in
  let q := get_pixel (gpencil_invert_image (gpencil_invert_image ibuf)) v in
  (is_green p = true -> q = green_col)
  /\ (is_green p = false -> is_red p = true -> q = red_col)
  /\ (is_green p = false -> is_red p = false -> q = clear_px).
Proof.
  intros Hlen Hv p q.
  assert (Hq : q = invert_color (invert_color p)).
  { subst p q.
    destruct (invert_image_dims ibuf) as (Hx & Hy & Hl).
    rewrite invert_image_get by (rewrite ?Hx, ?Hy, ?Hl; assumption).
    rewrite invert_image_get by assumption. reflexivity. }
  rewrite Hq, invert_color_twice.
  repeat split; intros; repeat match goal with H : _ = _ |- _ => rewrite H end;
    reflexivity.
Qed.

Lemma invert_twice_classification_witness :
  get_pixel (gpencil_invert_image (gpencil_invert_image two_tone_canvas)) 1
  = green_col.
Proof.
  refine (proj1 (invert_twice_classification two_tone_canvas 1 _ _) _);
    [reflexivity | simpl; lia | reflexivity].
Defined.

(** C8, as stated, fails: a pixel with both the red and the green channel
    at 1.0 is red before the round trip and pure green after it. *)
Lemma invert_twice_loses_red : ~ invert_twice_restores two_tone_canvas.
Proof.
  intros H. destruct (H 1 ltac:(simpl; lia)) as (_ & Hred & _).
  specialize (Hred eq_refl). vm_compute in Hred. discriminate.
Qed.

(** The loop of the inversion stops before index 0, so that pixel keeps
    its value whatever its colour. *)
Lemma invert_image_skips_first ibuf :
  0 < Z.of_nat (length (rect_float ibuf)) ->
  get_pixel (gpencil_invert_image ibuf) 0 = get_pixel ibuf 0.
Proof.
  intros H. unfold gpencil_invert_image. rewrite invert_loop_get by lia.
  reflexivity.
Qed.

(** On [two_tone_canvas] the blue pixel at index 0, neither green nor red,
    is still blue after the round trip, not transparent. *)
Example invert_twice_first_pixel :
  let p := get_pixel two_tone_canvas 0 in
  is_green p = false /\ is_red p = false
  /\ get_pixel (gpencil_invert_image (gpencil_invert_image two_tone_canvas)) 0
     = blue_col.
Proof. repeat split. Qed.

(** *** Erasing the processed area *)










(** *** Leak suppression *)

Lemma leak_scan_true ibuf pt in_range i n :
  leak_scan ibuf pt in_range i n = true <->
  exists k, i <= k < i + Z.of_nat n
    /\ (in_range (pt k) = false \/ is_red (get_pixel ibuf (pt k)) = true).
Proof.
  revert i. induction n as [|n IH]; intros i; cbn [leak_scan].
  - split; [discriminate | intros (k & Hk & _); lia].
  - destruct (in_range (pt i)) eqn:Er.
    + destruct (is_red (get_pixel ibuf (pt i))) eqn:Ered.
      * split; [|reflexivity]. intros _. exists i. split; [lia | auto].
      * rewrite IH. split; intros (k & Hk & Hc).
        -- exists k. split; [lia | exact Hc].
        -- exists k. split; [|exact Hc].
           destruct (Z.eq_dec k i) as [->|]; [|lia].
           destruct Hc; congruence.
    + split; [|reflexivity]. intros _. exists i. split; [lia | auto].
Qed.

Lemma is_leak_narrow_horz ibuf maxpixel gap v :
  is_leak_narrow ibuf maxpixel gap v LEAK_HORZ = true <->
  edge_or_red_above ibuf maxpixel gap v /\ edge_or_red_below ibuf gap v.
Proof.
  unfold is_leak_narrow, edge_or_red_above, edge_or_red_below.
  change (LEAK_HORZ =? LEAK_HORZ) with true.
  change (LEAK_HORZ =? LEAK_VERT) with false. cbv iota beta zeta.
  rewrite andb_true_iff, !leak_scan_true.
  split; intros [(i & Hi & Ha) (j & Hj & Hb)]; split.
  - exists i. split; [lia|]. destruct Ha as [Ha|Ha]; [left | right; exact Ha].
    apply Z.leb_gt in Ha. exact Ha.
  - exists j. split; [lia|]. destruct Hb as [Hb|Hb]; [left | right; exact Hb].
    apply Z.leb_gt in Hb. exact Hb.
  - exists i. split; [lia|]. destruct Ha as [Ha|Ha]; [left | right; exact Ha].
    apply Z.leb_gt. exact Ha.
  - exists j. split; [lia|]. destruct Hb as [Hb|Hb]; [left | right; exact Hb].
    apply Z.leb_gt. exact Hb.
Qed.

Lemma is_leak_narrow_vert ibuf maxpixel gap v :
  is_leak_narrow ibuf maxpixel gap v LEAK_VERT = true <->
  edge_or_red_left ibuf gap v /\ edge_or_red_right ibuf gap v.
Proof.
  unfold is_leak_narrow, edge_or_red_left, edge_or_red_right.
  change (LEAK_VERT =? LEAK_HORZ) with false.
  change (LEAK_VERT =? LEAK_VERT) with true. cbv iota beta zeta.
  rewrite andb_true_iff, !leak_scan_true.
  split; intros [(i & Hi & Ha) (j & Hj & Hb)]; split.
  - exists (gap - i). split; [lia|]. destruct Ha as [Ha|Ha]; [left | right; exact Ha].
    apply Z.leb_gt in Ha. exact Ha.
  - exists (gap - j). split; [lia|]. destruct Hb as [Hb|Hb]; [left | right; exact Hb].
    apply Z.leb_gt in Hb. exact Hb.
  - exists (gap - i). split; [lia|].
    replace (gap - (gap - i)) with i by lia.
    destruct Ha as [Ha|Ha]; [left | right; exact Ha].
    apply Z.leb_gt. exact Ha.
  - exists (gap - j). split; [lia|].
    replace (gap - (gap - j)) with j by lia.
    destruct Hb as [Hb|Hb]; [left | right; exact Hb].
    apply Z.leb_gt. exact Hb.
Qed.

(** Without a gap width nothing is ever suppressed. *)
Lemma is_leak_narrow_no_gap ibuf maxpixel gap v type :
  gap <= 0 -> is_leak_narrow ibuf maxpixel gap v type = false.
Proof.
  intros Hgap. unfold is_leak_narrow.
  replace (Z.to_nat gap) with O by lia. cbn [leak_scan].
  destruct (type =? LEAK_HORZ); destruct (type =? LEAK_VERT); reflexivity.
Qed.

(** With a gap width that reaches across the whole image the edge is
    always found on both sides. *)
Lemma is_leak_narrow_saturated ibuf gap v type :
  0 < x ibuf -> 0 <= v <= x ibuf * y ibuf - 1 ->
  x ibuf <= gap -> y ibuf <= gap ->
  type = LEAK_HORZ \/ type = LEAK_VERT ->
  is_leak_narrow ibuf (x ibuf * y ibuf - 1) gap v type = true.
Proof.
  intros Hx Hv Hgx Hgy [-> | ->].
  - apply is_leak_narrow_horz. split; exists (y ibuf); (split; [nia|]); left; nia.
  - apply is_leak_narrow_vert. unfold edge_or_red_left, edge_or_red_right.
    rewrite Z.quot_div_nonneg by lia.
    pose proof (Z.mod_pos_bound v (x ibuf) Hx) as Hm.
    pose proof (Z.div_mod v (x ibuf) ltac:(lia)) as Hd.
    split; exists (x ibuf); (split; [lia|]); left; nia.
Qed.

(** In a gap of two pixels [g], [g + 1] between the boundary pixels
    [g - 1] and [g + 2] of a row, pushing up or down is suppressed. *)
Lemma row_gap_suppressed ibuf maxpixel gap g v :
  2 <= gap ->
  is_red (get_pixel ibuf (g - 1)) = true ->
  is_red (get_pixel ibuf (g + 2)) = true ->
  v = g \/ v = g + 1 ->
  is_leak_narrow ibuf maxpixel gap v LEAK_VERT = true.
Proof.
  intros Hgap Hl Hr Hv. apply is_leak_narrow_vert.
  unfold edge_or_red_left, edge_or_red_right.
  destruct Hv as [-> | ->]; split.
  - exists 1. split; [lia | right; exact Hl].
  - exists 2. split; [lia | right; exact Hr].
  - exists 2. split; [lia | right].
    replace (g + 1 - 2) with (g - 1) by lia. exact Hl.
  - exists 1. split; [lia | right].
    replace (g + 1 + 1) with (g + 2) by lia. exact Hr.
Qed.

(** In a gap of two pixels [g], [g + x] between the boundary pixels
    [g - x] and [g + 2 x] of a column, pushing left or right is
    suppressed. *)
Lemma column_gap_suppressed ibuf maxpixel gap g v :
  2 <= gap ->
  is_red (get_pixel ibuf (g - x ibuf)) = true ->
  is_red (get_pixel ibuf (g + 2 * x ibuf)) = true ->
  v = g \/ v = g + x ibuf ->
  is_leak_narrow ibuf maxpixel gap v LEAK_HORZ = true.
Proof.
  intros Hgap Hl Hr Hv. apply is_leak_narrow_horz.
  unfold edge_or_red_above, edge_or_red_below.
  destruct Hv as [-> | ->]; split.
  - exists 2. split; [lia | right].
    replace (g + x ibuf * 2) with (g + 2 * x ibuf) by lia. exact Hr.
  - exists 1. split; [lia | right].
    replace (g - x ibuf * 1) with (g - x ibuf) by lia. exact Hl.
  - exists 1. split; [lia | right].
    replace (g + x ibuf + x ibuf * 1) with (g + 2 * x ibuf) by lia. exact Hr.
  - exists 2. split; [lia | right].
    replace (g + x ibuf - x ibuf * 2) with (g - x ibuf) by lia. exact Hl.
Qed.

(** The pushes of one round: each neighbour inside the image is pushed
    unless the leak test at the popped pixel says "narrow". *)
Lemma fill_visit_pushes leak ibuf maxpixel v stack :
  is_red (get_pixel ibuf v) = false ->
  is_green (get_pixel ibuf v) = false ->
  let filled := set_pixel ibuf v fill_col in
  let horz := is_leak_narrow filled maxpixel leak v LEAK_HORZ in
  let vert := is_leak_narrow filled maxpixel leak v LEAK_VERT in
  fill_visit leak ibuf maxpixel v stack =
    (filled,
     (if (0 <=? v - x ibuf) && negb vert then [v - x ibuf] else [])
     ++ (if (v + x ibuf <=? maxpixel) && negb vert then [v + x ibuf] else [])
     ++ (if (v + 1 <=? maxpixel) && negb horz then [v + 1] else [])
     ++ (if (0 <=? v - 1) && negb horz then [v - 1] else [])
     ++ stack).
Proof.
  intros Hr Hg filled horz vert. unfold fill_visit.
  rewrite Hr, Hg. cbn [negb andb]. fold filled. fold horz. fold vert.
  rewrite (set_pixel_x ibuf v fill_col : x filled = x ibuf).
  f_equal.
  destruct ((0 <=? v - x ibuf) && negb vert);
    destruct ((v + x ibuf <=? maxpixel) && negb vert);
    destruct ((v + 1 <=? maxpixel) && negb horz);
    destruct ((0 <=? v - 1) && negb horz); reflexivity.
Qed.

Lemma forallb_seqZ (P : Z -> bool) lo n v :
  forallb P (seqZ lo n) = true -> lo <= v < lo + n -> P v = true.
Proof.
  intros H Hv. rewrite forallb_forall in H. apply H.
  apply list_elem_of_In, elem_of_seqZ. lia.
Qed.

Lemma gap_canvas_wide_leak leak :
  6 <= leak ->
  gpencil_boundaryfill_area 200 leak gap_canvas
  = Some (set_pixel gap_canvas 2 fill_col).
Proof.
  intros Hleak.
  change (gpencil_boundaryfill_area 200 leak gap_canvas)
    with (fill_loop 200 leak gap_canvas 29 [2]).
  cbn [fill_loop].
  rewrite fill_visit_pushes by reflexivity.
  change 29 with (x (set_pixel gap_canvas 2 fill_col)
                  * y (set_pixel gap_canvas 2 fill_col) - 1).
  rewrite !is_leak_narrow_saturated by (simpl; auto; lia).
  rewrite !andb_false_r. reflexivity.
Qed.

Lemma gap_canvas_not_crossed leak :
  2 <= leak ->
  exists r, gpencil_boundaryfill_area 200 leak gap_canvas = Some r
    /\ forall v, 18 <= v <= 29 -> is_green (get_pixel r v) = false.
Proof.
  intros Hleak.
  assert (Hcases : leak = 2 \/ leak = 3 \/ leak = 4 \/ leak = 5 \/ 6 <= leak) by lia.
  assert (Hall : forall r,
             forallb (fun v => negb (is_green (get_pixel r v))) (seqZ 18 12) = true ->
             forall v, 18 <= v <= 29 -> is_green (get_pixel r v) = false).
  { intros r H v Hv. apply negb_true_iff.
    apply (forallb_seqZ (fun v => negb (is_green (get_pixel r v))) 18 12); [exact H | lia]. }
  destruct Hcases as [-> | [-> | [-> | [-> | Hbig]]]].
  - eexists. split; [vm_compute; reflexivity|]. apply Hall. vm_compute. reflexivity.
  - eexists. split; [vm_compute; reflexivity|]. apply Hall. vm_compute. reflexivity.
  - eexists. split; [vm_compute; reflexivity|]. apply Hall. vm_compute. reflexivity.
  - eexists. split; [vm_compute; reflexivity|]. apply Hall. vm_compute. reflexivity.
  - eexists. split; [apply gap_canvas_wide_leak; exact Hbig|].
    apply Hall. vm_compute. reflexivity.
Qed.

Lemma gap_canvas_crossed :
  exists r, gpencil_boundaryfill_area 200 0 gap_canvas = Some r
    /\ forall v, 18 <= v <= 29 -> is_green (get_pixel r v) = true.
Proof.
  eexists. split; [vm_compute; reflexivity|].
  intros v Hv.
  apply (forallb_seqZ (fun v => is_green (get_pixel _ v)) 18 12); [|lia].
  vm_compute. reflexivity.
Qed.

(** C4.  Before a neighbour is pushed, the leak test is run at the popped
    pixel: for a push to the left or right it scans up to [leak_gap]
    pixels above and below, for a push up or down up to [leak_gap] pixels
    to the left and right, and it answers "narrow" exactly when a red
    pixel or the edge of the image is found on both sides; a neighbour
    inside the image is pushed exactly when the answer is not "narrow".
    Hence in a gap of two pixels between two boundary pixels every push
    across the gap is suppressed once [leak_gap >= 2], and nothing is
    suppressed with [leak_gap = 0]: on the canvas [gap_canvas] the fill
    stays below the boundary for every [leak_gap >= 2] and covers the
    rows above it for [leak_gap = 0]. *)
Theorem leak_suppression :
  (forall ibuf maxpixel gap v,
      (is_leak_narrow ibuf maxpixel gap v LEAK_HORZ = true <->
       edge_or_red_above ibuf maxpixel gap v /\ edge_or_red_below ibuf gap v)
      /\ (is_leak_narrow ibuf maxpixel gap v LEAK_VERT = true <->
          edge_or_red_left ibuf gap v /\ edge_or_red_right ibuf gap v))
  /\ (forall leak ibuf maxpixel v stack,
        is_red (get_pixel ibuf v) = false ->
        is_green (get_pixel ibuf v) = false ->
        let filled := set_pixel ibuf v fill_col in
        let horz := is_leak_narrow filled maxpixel leak v LEAK_HORZ in
        let vert := is_leak_narrow filled maxpixel leak v LEAK_VERT in
        fill_visit leak ibuf maxpixel v stack =
          (filled,
           (if (0 <=? v - x ibuf) && negb vert then [v - x ibuf] else [])
           ++ (if (v + x ibuf <=? maxpixel) && negb vert then [v + x ibuf] else [])
           ++ (if (v + 1 <=? maxpixel) && negb horz then [v + 1] else [])
           ++ (if (0 <=? v - 1) && negb horz then [v - 1] else [])
           ++ stack))
  /\ (forall ibuf maxpixel gap g v,
        2 <= gap ->
        is_red (get_pixel ibuf (g - 1)) = true ->
        is_red (get_pixel ibuf (g + 2)) = true ->
        v = g \/ v = g + 1 ->
        is_leak_narrow ibuf maxpixel gap v LEAK_VERT = true)
  /\ (forall ibuf maxpixel gap g v,
        2 <= gap ->
        is_red (get_pixel ibuf (g - x ibuf)) = true ->
        is_red (get_pixel ibuf (g + 2 * x ibuf)) = true ->
        v = g \/ v = g + x ibuf ->
        is_leak_narrow ibuf maxpixel gap v LEAK_HORZ = true)
  /\ (forall ibuf maxpixel gap v type,
        gap <= 0 -> is_leak_narrow ibuf maxpixel gap v type = false)
  /\ (forall leak, 2 <= leak ->
        exists r, gpencil_boundaryfill_area 200 leak gap_canvas = Some r
          /\ forall v, 18 <= v <= 29 -> is_green (get_pixel r v) = false)
  /\ (exists r, gpencil_boundaryfill_area 200 0 gap_canvas = Some r
        /\ forall v, 18 <= v <= 29 -> is_green (get_pixel r v) = true).
Proof.
  split; [intros; split; [apply is_leak_narrow_horz | apply is_leak_narrow_vert]|].
  split; [intros; apply fill_visit_pushes; assumption|].
  split; [intros; eapply row_gap_suppressed; eassumption|].
  split; [intros; eapply column_gap_suppressed; eassumption|].
  split; [intros; apply is_leak_narrow_no_gap; assumption|].
  split; [intros; apply gap_canvas_not_crossed; assumption|].
  apply gap_canvas_crossed.
Qed.

Lemma leak_suppression_witness :
  is_leak_narrow gap_canvas 29 2 14 LEAK_VERT = true
  /\ fill_visit 2 gap_canvas 29 14 [] = (set_pixel gap_canvas 14 fill_col, [15; 13])
  /\ is_leak_narrow gap_canvas 29 0 14 LEAK_VERT = false
  /\ exists r, gpencil_boundaryfill_area 200 2 gap_canvas = Some r
       /\ forall v, 18 <= v <= 29 -> is_green (get_pixel r v) = false.
Proof.
  destruct leak_suppression as (_ & Hpush & Hrow & _ & Hzero & Hstay & _).
  split; [|split; [|split]].
  - apply (Hrow gap_canvas 29 2 14 14);
      [lia | reflexivity | reflexivity | left; reflexivity].
  - rewrite (Hpush 2 gap_canvas 29 14 []) by reflexivity. reflexivity.
  - apply Hzero. lia.
  - apply Hstay. lia.
Defined.

(** *** Painting a list of pixels *)

Lemma get_pixel_negative ibuf p : p < 0 -> get_pixel ibuf p = zero_v4.
Proof. intros H. unfold get_pixel. destruct (Z.ltb_spec p 0); [reflexivity | lia]. Qed.

Lemma get_pixel_outside ibuf p :
  Z.of_nat (length (rect_float ibuf)) <= p -> get_pixel ibuf p = zero_v4.
Proof.
  intros H. unfold get_pixel. destruct (Z.ltb_spec p 0); [reflexivity|].
  rewrite lookup_ge_None_2 by lia. reflexivity.
Qed.

Lemma get_set_pixel_ne ibuf idx idx' col :
  idx <> idx' -> get_pixel (set_pixel ibuf idx col) idx' = get_pixel ibuf idx'.
Proof.
  intros Hne. destruct (Z.lt_ge_cases idx' 0) as [Hneg|Hpos].
  - rewrite !get_pixel_negative by exact Hneg. reflexivity.
  - apply get_set_pixel_other; assumption.
Qed.

Lemma paint_spec col l : forall ibuf,
  let r := paint col l ibuf in
  x r = x ibuf /\ y r = y ibuf
  /\ length (rect_float r) = length (rect_float ibuf)
  /\ (forall p, p ∈ l -> 0 <= p < Z.of_nat (length (rect_float ibuf)) ->
        get_pixel r p = col)
  /\ (forall p, p ∉ l -> get_pixel r p = get_pixel ibuf p).
Proof.
  induction l as [|a l IH]; intros ibuf; cbn [paint fold_left].
  - repeat split; try reflexivity. intros p Hp. inversion Hp.
  - destruct (IH (set_pixel ibuf a col)) as (Hx & Hy & Hlen & Hin & Hout).
    unfold paint in Hx, Hy, Hlen, Hin, Hout.
    rewrite set_pixel_x in Hx. rewrite set_pixel_y in Hy.
    rewrite set_pixel_length in Hlen, Hin.
    repeat split; try assumption.
    + intros p Hp Hb. destruct (decide (p ∈ l)) as [Hl|Hl].
      * apply Hin; assumption.
      * rewrite Hout by exact Hl.
        apply elem_of_cons in Hp as [-> | Hp]; [|contradiction].
        apply get_set_pixel_same. exact Hb.
    + intros p Hp. apply not_elem_of_cons in Hp as [Hne Hl].
      rewrite Hout by exact Hl. apply get_set_pixel_ne. congruence.
Qed.

(** Two canvases of the same size with the same pixels are equal. *)
Lemma ibuf_ext (a b : ImBuf) :
  x a = x b -> y a = y b ->
  length (rect_float a) = length (rect_float b) ->
  (forall p, 0 <= p < Z.of_nat (length (rect_float a)) ->
     get_pixel a p = get_pixel b p) ->
  a = b.
Proof.
  destruct a as [xa ya ra], b as [xb yb rb]. cbn. intros -> -> Hlen Hpx.
  f_equal. apply list_eq. intros i.
  destruct (Nat.lt_ge_cases i (length ra)) as [Hi|Hi].
  - specialize (Hpx (Z.of_nat i) ltac:(lia)). unfold get_pixel in Hpx. cbn in Hpx.
    destruct (Z.ltb_spec (Z.of_nat i) 0); [lia|]. rewrite Nat2Z.id in Hpx.
    destruct (lookup_lt_is_Some_2 ra i Hi) as [pa Ha].
    destruct (lookup_lt_is_Some_2 rb i ltac:(lia)) as [pb Hb].
    rewrite Ha, Hb in Hpx |- *. cbn in Hpx. congruence.
  - rewrite !lookup_ge_None_2 by lia. reflexivity.
Qed.

(** *** [gpencil_set_borders] *)

Lemma fold_two_paint (f g : ImBuf -> Z -> Z) col l : forall ibuf,
  (forall ib ib' idx, x ib = x ib' -> y ib = y ib' ->
     f ib idx = f ib' idx /\ g ib idx = g ib' idx) ->
  fold_left (fun ib idx => set_pixel (set_pixel ib (f ib idx) col)
                             (g (set_pixel ib (f ib idx) col) idx) col) l ibuf
  = paint col (l ≫= fun idx => [f ibuf idx; g ibuf idx]) ibuf.
Proof.
  intros ibuf Hfg. revert ibuf. induction l as [|a l IH]; intros ibuf; [reflexivity|].
  cbn [fold_left]. rewrite IH.
  change ((a :: l) ≫= (fun idx => [f ibuf idx; g ibuf idx]))
    with ([f ibuf a; g ibuf a] ++ (l ≫= fun idx => [f ibuf idx; g ibuf idx])).
  unfold paint. rewrite fold_left_app. cbn [fold_left].
  set (ib1 := set_pixel ibuf (f ibuf a) col).
  set (ib2 := set_pixel ib1 (g ib1 a) col).
  assert (H1 : x ib1 = x ibuf /\ y ib1 = y ibuf)
    by (unfold ib1; rewrite set_pixel_x, set_pixel_y; auto).
  assert (H2 : x ib2 = x ibuf /\ y ib2 = y ibuf)
    by (unfold ib2; rewrite set_pixel_x, set_pixel_y; auto).
  destruct H1 as [H1x H1y], H2 as [H2x H2y].
  replace (g ibuf a) with (g ib1 a) by (apply (Hfg ib1 ibuf a); assumption).
  fold ib2. unfold paint. f_equal.
  apply list_bind_ext; [|reflexivity]. intros idx.
  destruct (Hfg ib2 ibuf idx H2x H2y) as [-> ->]. reflexivity.
Qed.

Lemma set_borders_paint ibuf transparent :
  gpencil_set_borders ibuf transparent
  = paint (border_fill_col (if transparent then 0 else 1)) (border_indices ibuf) ibuf.
Proof.
  unfold gpencil_set_borders, border_indices.
  set (col := border_fill_col (if transparent then 0 else 1)).
  rewrite (fold_two_paint (fun _ idx => idx) (fun ib idx => idx + x ib * (y ib - 1)) col).
  2:{ intros ib ib' idx Hx Hy. rewrite Hx, Hy. auto. }
  destruct (paint_spec col
    (seqZ 0 (x ibuf) ≫= fun idx => [idx; idx + x ibuf * (y ibuf - 1)]) ibuf)
    as (Hx & Hy & _).
  set (ib1 := paint col _ ibuf) in *.
  rewrite (fold_two_paint (fun ib idx => x ib * idx)
             (fun ib idx => x ib * idx + (x ib - 1)) col).
  2:{ intros ib ib' idx Hx' Hy'. rewrite Hx'. auto. }
  rewrite Hx, Hy. unfold ib1, paint. rewrite fold_left_app. reflexivity.
Qed.

Lemma border_indices_spec ibuf p :
  0 < x ibuf -> 0 < y ibuf ->
  p ∈ border_indices ibuf <->
  exists row col, 0 <= row < y ibuf /\ 0 <= col < x ibuf
    /\ p = x ibuf * row + col
    /\ (row = 0 \/ row = y ibuf - 1 \/ col = 0 \/ col = x ibuf - 1).
Proof.
  intros Hx Hy. unfold border_indices.
  rewrite elem_of_app, !list_elem_of_bind. split.
  - intros [(idx & Hp & Hidx)|(idx & Hp & Hidx)];
      apply elem_of_seqZ in Hidx;
      apply elem_of_cons in Hp as [-> | Hp];
      try (apply list_elem_of_singleton in Hp as ->).
    + exists 0, idx. repeat split; try lia.
    + exists (y ibuf - 1), idx. repeat split; try lia.
    + exists idx, 0. repeat split; try lia.
    + exists idx, (x ibuf - 1). repeat split; try lia.
  - intros (row & col & Hrow & Hcol & -> & [-> | [-> | [-> | ->]]]).
    + left. exists col. split; [|apply elem_of_seqZ; lia].
      apply elem_of_cons. left. lia.
    + left. exists col. split; [|apply elem_of_seqZ; lia].
      apply elem_of_cons. right. apply list_elem_of_singleton. lia.
    + right. exists row. split; [|apply elem_of_seqZ; lia].
      apply elem_of_cons. left. lia.
    + right. exists row. split; [|apply elem_of_seqZ; lia].
      apply elem_of_cons. right. apply list_elem_of_singleton. lia.
Qed.

(** X1.  On a well-formed canvas [gpencil_set_borders] writes the frame of
    one pixel and nothing else: the pixels of row 0, of the last row, of
    column 0 and of the last column become [fill_col[coloridx]], which is red
    when [transparent] is set and transparent when it is not; every other
    pixel and the size of the canvas are kept. *)
Theorem set_borders_frame (ibuf : ImBuf) (transparent : bool) (row col : Z) :
  wf_ibuf ibuf -> 0 <= row < y ibuf -> 0 <= col < x ibuf ->
  let r := gpencil_set_borders ibuf transparent in
  x r = x ibuf /\ y r = y ibuf
  /\ length (rect_float r) = length (rect_float ibuf)
  /\ get_pixel r (x ibuf * row + col) =
       if (row =? 0) || (row =? y ibuf - 1) || (col =? 0) || (col =? x ibuf - 1)
       then (if transparent then red_col else clear_px)
       else get_pixel ibuf (x ibuf * row + col).
Proof.
  intros (Hx & Hy & Hlen) Hrow Hcol. cbn zeta. rewrite set_borders_paint.
  destruct (paint_spec (border_fill_col (if transparent then 0 else 1))
              (border_indices ibuf) ibuf) as (Hrx & Hry & Hrlen & Hin & Hout).
  repeat split; try assumption.
  assert (Hcol_eq : border_fill_col (if transparent then 0 else 1)
                    = if transparent then red_col else clear_px)
    by (destruct transparent; reflexivity).
  destruct ((row =? 0) || (row =? y ibuf - 1) || (col =? 0) || (col =? x ibuf - 1))
    eqn:E.
  - rewrite <- Hcol_eq. apply Hin.
    + apply (proj2 (border_indices_spec ibuf _ Hx Hy)). exists row, col.
      rewrite !orb_true_iff, !Z.eqb_eq in E. repeat split; lia.
    + nia.
  - apply Hout. rewrite border_indices_spec by assumption.
    intros (row' & col' & Hrow' & Hcol' & Heq & Hedge).
    assert (row' = row) by nia. subst row'.
    assert (col' = col) by lia. subst col'.
    rewrite !orb_false_iff, !Z.eqb_neq in E. tauto.
Qed.

Lemma set_borders_frame_witness :
  get_pixel (gpencil_set_borders gap_canvas true) (6 * 2 + 0) = red_col
  /\ get_pixel (gpencil_set_borders gap_canvas true) (6 * 1 + 2)
     = get_pixel gap_canvas (6 * 1 + 2).
Proof.
  split.
  - apply (set_borders_frame gap_canvas true 2 0); [unfold wf_ibuf; simpl; lia | simpl; lia..].
  - apply (set_borders_frame gap_canvas true 1 2); [unfold wf_ibuf; simpl; lia | simpl; lia..].
Defined.

(** X2.  A second pass of [gpencil_set_borders] overrides the first: the
    canvas after two passes is the canvas after the second pass alone.  The
    pass that cleans the frame after the fill takes away all that the pass
    before the fill had stamped. *)
Theorem set_borders_override (ibuf : ImBuf) (first second : bool) :
  gpencil_set_borders (gpencil_set_borders ibuf first) second
  = gpencil_set_borders ibuf second.
Proof.
  rewrite !set_borders_paint.
  set (c1 := border_fill_col (if first then 0 else 1)).
  set (c2 := border_fill_col (if second then 0 else 1)).
  destruct (paint_spec c1 (border_indices ibuf) ibuf) as (Hx1 & Hy1 & Hl1 & Hin1 & Hout1).
  set (m := paint c1 (border_indices ibuf) ibuf) in *.
  assert (Hidx : border_indices m = border_indices ibuf)
    by (unfold border_indices; rewrite Hx1, Hy1; reflexivity).
  rewrite Hidx.
  destruct (paint_spec c2 (border_indices ibuf) m) as (Hx2 & Hy2 & Hl2 & Hin2 & Hout2).
  destruct (paint_spec c2 (border_indices ibuf) ibuf) as (Hx3 & Hy3 & Hl3 & Hin3 & Hout3).
  apply ibuf_ext; try congruence.
  intros p Hp. destruct (decide (p ∈ border_indices ibuf)) as [Hb|Hb].
  - rewrite Hin2, Hin3; [reflexivity | assumption | lia | assumption | lia].
  - rewrite Hout2, Hout3, Hout1; auto.
Qed.

(** *** The flood fill *)

Lemma filter_insert_length {A : Type} (P : A -> bool) (c : A) (l : list A) :
  forall i a, l !! i = Some a -> P a = true -> P c = false ->
  S (length (List.filter P (<[i := c]> l))) = length (List.filter P l).
Proof.
  induction l as [|b l IH]; intros [|i] a Hl Ha Hc; try discriminate.
  - cbn in Hl. injection Hl as ->. cbn. rewrite Ha, Hc. reflexivity.
  - cbn in Hl. cbn. destruct (P b); cbn; rewrite <- (IH i a Hl Ha Hc); reflexivity.
Qed.

Lemma filter_length_le {A : Type} (P : A -> bool) (l : list A) :
  (length (List.filter P l) <= length l)%nat.
Proof. induction l as [|b l IH]; cbn; [lia|]. destruct (P b); cbn; lia. Qed.

Lemma unfilled_set_pixel ibuf v :
  0 <= v < Z.of_nat (length (rect_float ibuf)) ->
  fillable (get_pixel ibuf v) = true ->
  S (unfilled (set_pixel ibuf v fill_col)) = unfilled ibuf.
Proof.
  intros Hv Hf. unfold unfilled, set_pixel, get_pixel in *.
  destruct (Z.ltb_spec v 0); [lia|]. cbn [rect_float].
  destruct (lookup_lt_is_Some_2 (rect_float ibuf) (Z.to_nat v) ltac:(lia)) as [a Ha].
  rewrite Ha in Hf. cbn in Hf.
  apply (filter_insert_length fillable fill_col _ _ a Ha Hf). reflexivity.
Qed.

Lemma fill_visit_skip leak ibuf maxpixel v stack :
  fillable (get_pixel ibuf v) = false ->
  fill_visit leak ibuf maxpixel v stack = (ibuf, stack).
Proof.
  intros H. unfold fill_visit. unfold fillable in H. rewrite H. reflexivity.
Qed.

Lemma fill_path_fillable ibuf maxpixel s p :
  fill_path ibuf maxpixel s p -> fillable (get_pixel ibuf p) = true.
Proof. intros H. destruct H; assumption. Qed.

(** One round of the fill loop keeps [fill_inv], brings the measure
    [length stack + 5 * unfilled] down, and keeps [fill_closed] when the
    leak test is off. *)
Lemma fill_visit_inv leak ibuf maxpixel s cur v stack :
  0 < x ibuf ->
  Z.of_nat (length (rect_float ibuf)) = maxpixel + 1 ->
  fill_inv ibuf maxpixel s cur (v :: stack) ->
  let cur' := fst (fill_visit leak cur maxpixel v stack) in
  let stack' := snd (fill_visit leak cur maxpixel v stack) in
  fill_inv ibuf maxpixel s cur' stack'
  /\ (length stack' + 5 * unfilled cur' <= length stack + 5 * unfilled cur)%nat
  /\ (leak <= 0 -> fill_closed ibuf maxpixel s cur (v :: stack) ->
      fill_closed ibuf maxpixel s cur' stack').
Proof.
  intros Hxpos Hlen ((Hx & Hy & Hl) & Hpx & Hst). cbn zeta.
  destruct (fillable (get_pixel cur v)) eqn:Hf.
  2:{ rewrite fill_visit_skip by exact Hf. cbn [fst snd]. split; [|split].
      - split; [auto|]. split; [exact Hpx|].
        intros w Hw. apply Hst. apply elem_of_cons. auto.
      - lia.
      - intros _ (Hseed & Hcl). split.
        + destruct Hseed as [Hs|Hs]; [|auto].
          apply elem_of_cons in Hs as [-> | Hs]; auto.
        + intros u t Hu Hc. destruct (Hcl u t Hu Hc) as [Ht|Ht]; [|auto].
          apply elem_of_cons in Ht as [-> | Ht]; auto. }
  assert (Hsame : get_pixel cur v = get_pixel ibuf v).
  { destruct (Hpx v) as [H|[H _]]; [exact H|]. rewrite H in Hf. discriminate. }
  destruct (Hst v ltac:(apply elem_of_cons; auto)) as [Hv Hfrom].
  assert (Hpath : fill_path ibuf maxpixel s v).
  { destruct Hfrom as [-> | (u & Hu & Hc)].
    - apply fill_path_seed. rewrite <- Hsame. exact Hf.
    - destruct (Hpx u) as [H|[_ H]]; [contradiction|].
      apply (fill_path_step _ _ _ u v H Hc). rewrite <- Hsame. exact Hf. }
  assert (Hred : is_red (get_pixel cur v) = false /\ is_green (get_pixel cur v) = false).
  { unfold fillable in Hf. apply andb_true_iff in Hf as [H1 H2].
    apply negb_true_iff in H1, H2. auto. }
  destruct Hred as [Hred Hgreen].
  rewrite (fill_visit_pushes leak cur maxpixel v stack Hred Hgreen). cbn [fst snd].
  set (filled := set_pixel cur v fill_col).
  assert (Hget_v : get_pixel filled v = fill_col)
    by (apply get_set_pixel_same; lia).
  assert (Hget_o : forall p, p <> v -> get_pixel filled p = get_pixel cur p)
    by (intros p Hp; apply get_set_pixel_ne; congruence).
  assert (Hchanged : get_pixel filled v <> get_pixel ibuf v).
  { rewrite Hget_v, <- Hsame. intros E. rewrite <- E in Hf. discriminate. }
  rewrite Hx.
  set (horz := is_leak_narrow filled maxpixel leak v LEAK_HORZ).
  set (vert := is_leak_narrow filled maxpixel leak v LEAK_VERT).
  set (pushes := (if (0 <=? v - x ibuf) && negb vert then [v - x ibuf] else [])
      ++ (if (v + x ibuf <=? maxpixel) && negb vert then [v + x ibuf] else [])
      ++ (if (v + 1 <=? maxpixel) && negb horz then [v + 1] else [])
      ++ (if (0 <=? v - 1) && negb horz then [v - 1] else [])).
  replace ((if (0 <=? v - x ibuf) && negb vert then [v - x ibuf] else [])
      ++ (if (v + x ibuf <=? maxpixel) && negb vert then [v + x ibuf] else [])
      ++ (if (v + 1 <=? maxpixel) && negb horz then [v + 1] else [])
      ++ (if (0 <=? v - 1) && negb horz then [v - 1] else []) ++ stack)
    with (pushes ++ stack) by (unfold pushes; rewrite <- !app_assoc; reflexivity).
  assert (Hpushes : forall t, t ∈ pushes -> 0 <= t <= maxpixel /\ contact ibuf maxpixel v t).
  { intros t Ht. unfold pushes in Ht. unfold contact.
    repeat (apply elem_of_app in Ht as [Ht|Ht]);
      match type of Ht with
      | _ ∈ (if ?c then _ else _) => destruct c eqn:Ec
      end;
      try (inversion Ht; fail);
      apply list_elem_of_singleton in Ht; subst t;
      apply andb_true_iff in Ec as [Ec _]; apply Z.leb_le in Ec; lia. }
  assert (Hplen : (length pushes <= 4)%nat).
  { unfold pushes. rewrite !length_app.
    destruct ((0 <=? v - x ibuf) && negb vert), ((v + x ibuf <=? maxpixel) && negb vert),
      ((v + 1 <=? maxpixel) && negb horz), ((0 <=? v - 1) && negb horz); cbn; lia. }
  split; [|split].
  - split; [|split].
    + unfold filled. rewrite set_pixel_x, set_pixel_y, set_pixel_length. auto.
    + intros p. destruct (Z.eq_dec p v) as [-> | Hne].
      * right. auto.
      * rewrite (Hget_o p Hne). apply Hpx.
    + intros w Hw. apply elem_of_app in Hw as [Hw|Hw].
      * destruct (Hpushes w Hw) as [Hr Hc]. split; [exact Hr|].
        right. exists v. auto.
      * destruct (Hst w ltac:(apply elem_of_cons; auto)) as [Hr Hc].
        split; [exact Hr|]. destruct Hc as [-> | (u & Hu & Hc)]; [auto|].
        right. exists u. split; [|exact Hc].
        rewrite Hget_o; [exact Hu|]. intros ->. contradiction.
  - pose proof (unfilled_set_pixel cur v ltac:(lia) Hf) as Hm. fold filled in Hm.
    rewrite length_app. lia.
  - intros Hleak (Hseed & Hcl).
    assert (Hno : horz = false /\ vert = false)
      by (split; apply is_leak_narrow_no_gap; exact Hleak).
    destruct Hno as [Hh Hv'].
    assert (Hall : forall t, contact ibuf maxpixel v t -> t ∈ pushes).
    { intros t Hc. unfold pushes. rewrite Hh, Hv'. cbn [negb]. rewrite !andb_true_r.
      rewrite !elem_of_app.
      destruct Hc as [[-> H]|[[-> H]|[[-> H]|[-> H]]]].
      - right; right; right. destruct (Z.leb_spec 0 (v - 1)); [|lia].
        apply list_elem_of_singleton. reflexivity.
      - right; right; left. destruct (Z.leb_spec (v + 1) maxpixel); [|lia].
        apply list_elem_of_singleton. reflexivity.
      - right; left. destruct (Z.leb_spec (v + x ibuf) maxpixel); [|lia].
        apply list_elem_of_singleton. reflexivity.
      - left. destruct (Z.leb_spec 0 (v - x ibuf)); [|lia].
        apply list_elem_of_singleton. reflexivity. }
    assert (Hkeep : forall t, fillable (get_pixel cur t) = false ->
                              fillable (get_pixel filled t) = false).
    { intros t Ht. destruct (Z.eq_dec t v) as [-> | Hne].
      - rewrite Hget_v. reflexivity.
      - rewrite Hget_o by exact Hne. exact Ht. }
    assert (Hstack : forall t, t ∈ v :: stack ->
              t ∈ pushes ++ stack \/ fillable (get_pixel filled t) = false).
    { intros t Ht. apply elem_of_cons in Ht as [-> | Ht].
      - right. rewrite Hget_v. reflexivity.
      - left. apply elem_of_app. auto. }
    split.
    + destruct Hseed as [Hs|Hs]; [apply Hstack; exact Hs | right; apply Hkeep; exact Hs].
    + intros u t Hu Hc. destruct (Z.eq_dec u v) as [-> | Hne].
      * left. apply elem_of_app. left. apply Hall. exact Hc.
      * rewrite Hget_o in Hu by exact Hne.
        destruct (Hcl u t Hu Hc) as [Ht|Ht]; [apply Hstack; exact Ht|].
        right. apply Hkeep. exact Ht.
Qed.

Lemma fill_loop_total leak ibuf maxpixel s : forall fuel cur stack,
  0 < x ibuf ->
  Z.of_nat (length (rect_float ibuf)) = maxpixel + 1 ->
  fill_inv ibuf maxpixel s cur stack ->
  (length stack + 5 * unfilled cur <= fuel)%nat ->
  exists r, fill_loop fuel leak cur maxpixel stack = Some r
    /\ fill_inv ibuf maxpixel s r []
    /\ (leak <= 0 -> fill_closed ibuf maxpixel s cur stack ->
        fill_closed ibuf maxpixel s r []).
Proof.
  induction fuel as [|fuel IH]; intros cur stack Hx Hlen Hinv Hfuel.
  - destruct stack as [|v stack]; [|cbn in Hfuel; lia].
    exists cur. cbn. auto.
  - destruct stack as [|v stack]; [exists cur; cbn; auto|].
    cbn [fill_loop].
    destruct (fill_visit_inv leak ibuf maxpixel s cur v stack Hx Hlen Hinv)
      as (Hinv' & Hm & Hcl).
    destruct (fill_visit leak cur maxpixel v stack) as [cur' stack'].
    cbn [fst snd] in Hinv', Hm, Hcl.
    destruct (IH cur' stack' Hx Hlen Hinv') as (r & Hr & Hri & Hrc).
    { cbn [length] in Hfuel. lia. }
    exists r. split; [exact Hr|]. split; [exact Hri|].
    intros Hleak Hc. apply Hrc; [exact Hleak|]. apply Hcl; assumption.
Qed.

(** The state in which [gpencil_boundaryfill_area] enters its loop. *)
Lemma fill_inv_initial ibuf maxpixel s :
  fill_inv ibuf maxpixel s ibuf
    (if (0 <=? s) && (s <=? maxpixel) then [s] else []).
Proof.
  split; [auto|]. split; [auto|].
  intros v Hv. destruct ((0 <=? s) && (s <=? maxpixel)) eqn:E; [|inversion Hv].
  apply list_elem_of_singleton in Hv as ->.
  apply andb_true_iff in E as [E1 E2]. apply Z.leb_le in E1, E2. auto.
Qed.

Lemma boundaryfill_total leak ibuf fuel :
  wf_ibuf ibuf ->
  (1 + 5 * length (rect_float ibuf) <= fuel)%nat ->
  let maxpixel := x ibuf * y ibuf - 1 in
  let s := find_seed ibuf 0 (Z.to_nat maxpixel) in
  exists r, gpencil_boundaryfill_area fuel leak ibuf = Some r
    /\ fill_inv ibuf maxpixel s r []
    /\ (leak <= 0 -> s <> -1 -> fill_closed ibuf maxpixel s r []).
Proof.
  intros (Hx & Hy & Hlen) Hfuel maxpixel s. unfold gpencil_boundaryfill_area.
  fold maxpixel. fold s.
  destruct (fill_loop_total leak ibuf maxpixel s fuel ibuf
              (if (0 <=? s) && (s <=? maxpixel) then [s] else []))
    as (r & Hr & Hinv & Hcl).
  - exact Hx.
  - unfold maxpixel. lia.
  - apply fill_inv_initial.
  - pose proof (filter_length_le fillable (rect_float ibuf)) as Hle.
    unfold unfilled. destruct ((0 <=? s) && (s <=? maxpixel)); cbn [length]; lia.
  - exists r. split; [exact Hr|]. split; [exact Hinv|].
    intros Hleak Hs. apply Hcl; [exact Hleak|].
    destruct (find_seed_found ibuf 0 (Z.to_nat maxpixel) s ltac:(lia) eq_refl Hs)
      as (Hrange & _).
    split.
    + left. destruct (Z.leb_spec 0 s); [|lia].
      destruct (Z.leb_spec s maxpixel); [|lia].
      apply list_elem_of_singleton. reflexivity.
    + intros u t Hu. contradiction.
Qed.

(** X3.  The loop of [gpencil_boundaryfill_area] ends on every
    well-formed canvas: a pixel is painted at most once and pushes at most
    four indices, so 1 + 5 * (number of pixels) rounds are enough.  The size
    of the canvas is kept. *)
Theorem boundaryfill_terminates (leak : Z) (ibuf : ImBuf) (fuel : nat) :
  wf_ibuf ibuf ->
  (1 + 5 * length (rect_float ibuf) <= fuel)%nat ->
  exists r, gpencil_boundaryfill_area fuel leak ibuf = Some r
    /\ x r = x ibuf /\ y r = y ibuf
    /\ length (rect_float r) = length (rect_float ibuf).
Proof.
  intros Hwf Hfuel.
  destruct (boundaryfill_total leak ibuf fuel Hwf Hfuel) as (r & Hr & (Hd & _) & _).
  exists r. split; [exact Hr | exact Hd].
Qed.

Lemma boundaryfill_terminates_witness :
  exists r, gpencil_boundaryfill_area 200 2 gap_canvas = Some r
    /\ x r = x gap_canvas /\ y r = y gap_canvas
    /\ length (rect_float r) = length (rect_float gap_canvas).
Proof.
  apply (boundaryfill_terminates 2 gap_canvas 200).
  - unfold wf_ibuf. simpl. lia.
  - simpl. lia.
Defined.

(** X4.  The fill never writes a pixel whose red or green channel is
    1.0; a pixel that it changes becomes the fill colour and is joined to the
    seed by a chain of contact pixels (the indices v - 1, v + 1, v + x and
    v - x inside [0, maxpixel]) that were all paintable. *)
Theorem boundaryfill_paints_reachable (leak : Z) (ibuf : ImBuf) (fuel : nat) :
  wf_ibuf ibuf ->
  (1 + 5 * length (rect_float ibuf) <= fuel)%nat ->
  let maxpixel := x ibuf * y ibuf - 1 in
  let s := find_seed ibuf 0 (Z.to_nat maxpixel) in
  exists r, gpencil_boundaryfill_area fuel leak ibuf = Some r
    /\ forall p,
         (is_red (get_pixel ibuf p) = true \/ is_green (get_pixel ibuf p) = true ->
          get_pixel r p = get_pixel ibuf p)
         /\ (get_pixel r p <> get_pixel ibuf p ->
             get_pixel r p = fill_col /\ fill_path ibuf maxpixel s p).
Proof.
  intros Hwf Hfuel maxpixel s.
  destruct (boundaryfill_total leak ibuf fuel Hwf Hfuel)
    as (r & Hr & (_ & Hpx & _) & _).
  fold maxpixel s in Hpx. exists r. split; [exact Hr|]. intros p.
  destruct (Hpx p) as [H|[H Hpath]].
  - split; [auto | contradiction].
  - split; [|auto]. intros Hc.
    apply fill_path_fillable in Hpath. unfold fillable in Hpath.
    apply andb_true_iff in Hpath as [H1 H2]. apply negb_true_iff in H1, H2.
    destruct Hc; congruence.
Qed.

Lemma boundaryfill_paints_reachable_witness :
  exists r, gpencil_boundaryfill_area 200 2 gap_canvas = Some r
    /\ forall p,
         (is_red (get_pixel gap_canvas p) = true
          \/ is_green (get_pixel gap_canvas p) = true ->
          get_pixel r p = get_pixel gap_canvas p)
         /\ (get_pixel r p <> get_pixel gap_canvas p ->
             get_pixel r p = fill_col
             /\ fill_path gap_canvas (x gap_canvas * y gap_canvas - 1)
                  (find_seed gap_canvas 0
                     (Z.to_nat (x gap_canvas * y gap_canvas - 1))) p).
Proof.
  apply (boundaryfill_paints_reachable 2 gap_canvas 200).
  - unfold wf_ibuf. simpl. lia.
  - simpl. lia.
Defined.

(** X5.  With the leak test off ([fill_leak <= 0]) and a seed on the
    canvas, the fill paints exactly the pixels that a chain of paintable
    contact pixels joins to the seed, and keeps every other pixel. *)
Theorem boundaryfill_fills_region (leak : Z) (ibuf : ImBuf) (fuel : nat) (s : Z) :
  wf_ibuf ibuf -> leak <= 0 ->
  find_seed ibuf 0 (Z.to_nat (x ibuf * y ibuf - 1)) = s -> s <> -1 ->
  (1 + 5 * length (rect_float ibuf) <= fuel)%nat ->
  exists r, gpencil_boundaryfill_area fuel leak ibuf = Some r
    /\ forall p,
         (fill_path ibuf (x ibuf * y ibuf - 1) s p -> get_pixel r p = fill_col)
         /\ (~ fill_path ibuf (x ibuf * y ibuf - 1) s p ->
             get_pixel r p = get_pixel ibuf p).
Proof.
  intros Hwf Hleak Hs Hseed Hfuel.
  destruct (boundaryfill_total leak ibuf fuel Hwf Hfuel)
    as (r & Hr & (_ & Hpx & _) & Hcl).
  rewrite Hs in Hpx, Hcl. specialize (Hcl Hleak Hseed) as [Hcs Hcc].
  exists r. split; [exact Hr|].
  assert (Hchanged : forall p, fillable (get_pixel ibuf p) = true ->
            fillable (get_pixel r p) = false ->
            get_pixel r p <> get_pixel ibuf p /\ get_pixel r p = fill_col).
  { intros p Hf Hnf. destruct (Hpx p) as [H|[H _]].
    - rewrite H in Hnf. congruence.
    - split; [|exact H]. intros E. rewrite E in Hnf. congruence. }
  intros p. split.
  - intros Hpath. enough (get_pixel r p <> get_pixel ibuf p /\ get_pixel r p = fill_col)
      by tauto.
    induction Hpath as [Hf | v t Hpath IH Hc Hf].
    + apply Hchanged; [exact Hf|].
      destruct Hcs as [Hin|Hnf]; [inversion Hin | exact Hnf].
    + apply Hchanged; [exact Hf|]. destruct IH as [IH _].
      destruct (Hcc v t IH Hc) as [Hin|Hnf]; [inversion Hin | exact Hnf].
  - intros Hno. destruct (Hpx p) as [H|[_ H]]; [exact H | contradiction].
Qed.

Lemma boundaryfill_fills_region_witness :
  exists r, gpencil_boundaryfill_area 16 0 seeded_canvas = Some r
    /\ forall p,
         (fill_path seeded_canvas (x seeded_canvas * y seeded_canvas - 1) 1 p ->
          get_pixel r p = fill_col)
         /\ (~ fill_path seeded_canvas (x seeded_canvas * y seeded_canvas - 1) 1 p ->
             get_pixel r p = get_pixel seeded_canvas p).
Proof.
  apply (boundaryfill_fills_region 0 seeded_canvas 16 1).
  - unfold wf_ibuf. simpl. lia.
  - lia.
  - reflexivity.
  - lia.
  - simpl. lia.
Defined.

(** X6.  With a leak threshold as large as the width and the height
    of the canvas every push is suppressed: the fill paints the seed pixel
    (when it is neither red nor green) and nothing else, in one round. *)
Theorem boundaryfill_saturated_leak (leak : Z) (ibuf : ImBuf) (fuel : nat) (s : Z) :
  wf_ibuf ibuf -> x ibuf <= leak -> y ibuf <= leak ->
  find_seed ibuf 0 (Z.to_nat (x ibuf * y ibuf - 1)) = s -> s <> -1 ->
  (1 <= fuel)%nat ->
  gpencil_boundaryfill_area fuel leak ibuf
  = Some (if fillable (get_pixel ibuf s) then set_pixel ibuf s fill_col else ibuf).
Proof.
  intros (Hx & Hy & Hlen) Hlx Hly Hs Hseed Hfuel.
  unfold gpencil_boundaryfill_area. rewrite Hs.
  destruct (find_seed_found ibuf 0 _ s ltac:(lia) Hs Hseed) as (Hrange & _).
  destruct (Z.leb_spec 0 s); [|lia].
  destruct (Z.leb_spec s (x ibuf * y ibuf - 1)); [|lia]. cbn [andb].
  destruct fuel as [|fuel]; [lia|]. cbn [fill_loop].
  destruct (fillable (get_pixel ibuf s)) eqn:Hf.
  - assert (Hred : is_red (get_pixel ibuf s) = false
                   /\ is_green (get_pixel ibuf s) = false).
    { unfold fillable in Hf. apply andb_true_iff in Hf as [H1 H2].
      apply negb_true_iff in H1, H2. auto. }
    destruct Hred as [Hred Hgreen].
    rewrite (fill_visit_pushes leak ibuf _ s [] Hred Hgreen).
    set (filled := set_pixel ibuf s fill_col).
    assert (Hnarrow : forall type, type = LEAK_HORZ \/ type = LEAK_VERT ->
              is_leak_narrow filled (x ibuf * y ibuf - 1) leak s type = true).
    { intros type Ht.
      pose proof (is_leak_narrow_saturated filled leak s type) as Hsat.
      assert (Hfx : x filled = x ibuf) by apply set_pixel_x.
      assert (Hfy : y filled = y ibuf) by apply set_pixel_y.
      rewrite Hfx, Hfy in Hsat. apply Hsat; try assumption. lia. }
    rewrite (Hnarrow LEAK_HORZ), (Hnarrow LEAK_VERT) by auto.
    cbn [negb]. rewrite !andb_false_r. cbn [app]. destruct fuel; reflexivity.
  - rewrite (fill_visit_skip leak ibuf _ s [] Hf). destruct fuel; reflexivity.
Qed.

Lemma boundaryfill_saturated_leak_witness :
  gpencil_boundaryfill_area 1 6 gap_canvas
  = Some (if fillable (get_pixel gap_canvas 2) then set_pixel gap_canvas 2 fill_col
          else gap_canvas).
Proof.
  apply (boundaryfill_saturated_leak 6 gap_canvas 1 2).
  - unfold wf_ibuf. simpl. lia.
  - simpl. lia.
  - simpl. lia.
  - reflexivity.
  - lia.
  - lia.
Defined.

(** *** The leak test grows with its threshold *)

(** X7.  [is_leak_narrow] grows with its limit: a pixel that is narrow
    for a limit is narrow for every larger limit, in both directions. *)
Theorem is_leak_narrow_monotone (ibuf : ImBuf) (maxpixel limit limit' index type : Z) :
  limit <= limit' ->
  is_leak_narrow ibuf maxpixel limit index type = true ->
  is_leak_narrow ibuf maxpixel limit' index type = true.
Proof.
  intros Hle H.
  assert (Hgrow : forall (P : Z -> Prop),
            (exists i, 1 <= i <= limit /\ P i) -> exists i, 1 <= i <= limit' /\ P i).
  { intros P (i & Hi & HP). exists i. split; [lia | exact HP]. }
  destruct (Z.eq_dec type LEAK_HORZ) as [-> | Hh].
  - apply is_leak_narrow_horz in H as [Ha Hb]. apply is_leak_narrow_horz.
    split; [apply (Hgrow _ Ha) | apply (Hgrow _ Hb)].
  - destruct (Z.eq_dec type LEAK_VERT) as [-> | Hv].
    + apply is_leak_narrow_vert in H as [Ha Hb]. apply is_leak_narrow_vert.
      split; [apply (Hgrow _ Ha) | apply (Hgrow _ Hb)].
    + unfold is_leak_narrow in H.
      destruct (Z.eqb_spec type LEAK_HORZ); [contradiction|].
      destruct (Z.eqb_spec type LEAK_VERT); [contradiction|].
      discriminate.
Qed.

Lemma is_leak_narrow_monotone_witness :
  is_leak_narrow gap_canvas 29 5 14 LEAK_VERT = true.
Proof.
  apply (is_leak_narrow_monotone gap_canvas 29 2 5 14 LEAK_VERT).
  - lia.
  - reflexivity.
Defined.

(** *** One inversion *)

(** X8.  One pass of [gpencil_invert_image] on a well-formed canvas:
    pixel 0 is kept as it is (the loop ends before index 0); every other
    pixel becomes red when its green channel is 1.0, else green when its red
    channel is 1.0, else transparent.  The size of the canvas is kept. *)
Theorem invert_image_pixels (ibuf : ImBuf) (v : Z) :
  wf_ibuf ibuf -> 0 <= v < x ibuf * y ibuf ->
  let r := gpencil_invert_image ibuf in
  x r = x ibuf /\ y r = y ibuf
  /\ length (rect_float r) = length (rect_float ibuf)
  /\ get_pixel r v =
       if v =? 0 then get_pixel ibuf 0
       else if is_green (get_pixel ibuf v) then red_col
       else if is_red (get_pixel ibuf v) then green_col
       else clear_px.
Proof.
  intros (Hx & Hy & Hlen) Hv. cbn zeta.
  destruct (invert_image_dims ibuf) as (Hrx & Hry & Hrl).
  repeat split; try assumption.
  destruct (Z.eqb_spec v 0) as [-> | Hne].
  - apply invert_image_skips_first. lia.
  - rewrite invert_image_get by lia. reflexivity.
Qed.

Lemma invert_image_pixels_witness :
  get_pixel (gpencil_invert_image two_tone_canvas) 1 = red_col
  /\ get_pixel (gpencil_invert_image two_tone_canvas) 0 = get_pixel two_tone_canvas 0.
Proof.
  split.
  - apply (invert_image_pixels two_tone_canvas 1); [unfold wf_ibuf; simpl; lia | simpl; lia].
  - apply (invert_image_pixels two_tone_canvas 0); [unfold wf_ibuf; simpl; lia | simpl; lia].
Defined.

Lemma invert_color_thrice p :
  invert_color (invert_color (invert_color p)) = invert_color p.
Proof.
  unfold invert_color.
  destruct (is_green p); [reflexivity|]. destruct (is_red p); reflexivity.
Qed.

(** X9.  Three inversions are one inversion: on a canvas that
    [gpencil_invert_image] has produced, inverting twice is the identity. *)
Theorem invert_image_thrice (ibuf : ImBuf) :
  wf_ibuf ibuf ->
  gpencil_invert_image (gpencil_invert_image (gpencil_invert_image ibuf))
  = gpencil_invert_image ibuf.
Proof.
  intros (Hx & Hy & Hlen).
  destruct (invert_image_dims ibuf) as (Hx1 & Hy1 & Hl1).
  set (a := gpencil_invert_image ibuf) in *.
  destruct (invert_image_dims a) as (Hx2 & Hy2 & Hl2).
  set (b := gpencil_invert_image a) in *.
  destruct (invert_image_dims b) as (Hx3 & Hy3 & Hl3).
  apply ibuf_ext; try congruence.
  intros p Hp. destruct (Z.eq_dec p 0) as [-> | Hne].
  - rewrite invert_image_skips_first by lia.
    unfold b. rewrite invert_image_skips_first by lia. reflexivity.
  - rewrite invert_image_get by (rewrite ?Hx2, ?Hy2, ?Hx1, ?Hy1; lia).
    unfold b. rewrite invert_image_get by (rewrite ?Hx1, ?Hy1; lia).
    unfold a. rewrite invert_image_get by lia.
    apply invert_color_thrice.
Qed.

Lemma invert_image_thrice_witness :
  gpencil_invert_image (gpencil_invert_image (gpencil_invert_image two_tone_canvas))
  = gpencil_invert_image two_tone_canvas.
Proof.
  apply (invert_image_thrice two_tone_canvas). unfold wf_ibuf. simpl. lia.
Defined.

(** *** The processed area *)





(** *** The stroke buffer *)

Lemma pixel_centres_exact_spec n : forall d k,
  pixel_centres_exact n d = true -> d <= k < d + Z.of_nat n ->
  F32.to_int (F32.add (F32.of_int k) half) = k.
Proof.
  induction n as [|n IH]; intros d k H Hk; [lia|].
  cbn [pixel_centres_exact] in H. apply andb_true_iff in H as [H1 H2].
  destruct (Z.eq_dec k d) as [-> | Hne]; [apply Z.eqb_eq; exact H1|].
  apply (IH (d + 1)); [exact H2 | lia].
Qed.

Lemma pixel_centre_exact v :
  0 <= v < 65536 -> F32.to_int (F32.add (F32.of_int v) half) = v.
Proof.
  intros Hv.
  assert (H : pixel_centres_exact (Z.to_nat 65536) 0 = true) by (vm_compute; reflexivity).
  apply (pixel_centres_exact_spec _ 0 v H). lia.
Qed.

(** X12.  The outline coordinates survive the stroke buffer:
    [gpencil_points_from_stack] stores x + 0.5 and y + 0.5 as floats, and the
    casts [(int)] of [gpencil_erase_processed_area] give x and y back, for
    coordinates from 0 to 65535. *)
Theorem points_from_stack_round_trip (stack : list (Z * Z)) :
  (forall v, v ∈ stack -> 0 <= fst v < 65536 /\ 0 <= snd v < 65536) ->
  map (fun point2D => (F32.to_int (pt_x point2D), F32.to_int (pt_y point2D)))
    (gpencil_points_from_stack stack) = stack.
Proof.
  induction stack as [|[vx vy] stack IH]; intros H; [reflexivity|].
  cbn [gpencil_points_from_stack map pt_x pt_y fst snd].
  destruct (H (vx, vy) ltac:(apply elem_of_cons; auto)) as [Hvx Hvy].
  cbn [fst snd] in Hvx, Hvy.
  rewrite !pixel_centre_exact by assumption. f_equal.
  apply IH. intros v Hv. apply H. apply elem_of_cons. auto.
Qed.

Lemma points_from_stack_round_trip_witness :
  map (fun point2D => (F32.to_int (pt_x point2D), F32.to_int (pt_y point2D)))
    (gpencil_points_from_stack [(3, 4); (0, 65535)]) = [(3, 4); (0, 65535)].
Proof.
  apply (points_from_stack_round_trip [(3, 4); (0, 65535)]).
  intros v Hv. apply elem_of_cons in Hv as [-> | Hv].
  - simpl. lia.
  - apply list_elem_of_singleton in Hv as ->. simpl. lia.
Defined.

(** *** [dilate_shape] *)

Lemma red_in_bounds ibuf p :
  is_red (get_pixel ibuf p) = true -> 0 <= p < Z.of_nat (length (rect_float ibuf)).
Proof.
  intros H. destruct (Z.lt_ge_cases p 0) as [Hn|Hn].
  - rewrite get_pixel_negative in H by exact Hn. discriminate.
  - destruct (Z.lt_ge_cases p (Z.of_nat (length (rect_float ibuf)))) as [Hb|Hb]; [lia|].
    rewrite get_pixel_outside in H by exact Hb. discriminate.
Qed.

(** The pushes of one round, as a list. *)
Lemma dilate_visit_pushes ibuf maxpixel v stack :
  is_green (get_pixel ibuf v) = true ->
  let red_at := fun index => is_red (get_pixel ibuf index) in
  let c_lt := (0 <=? v - 1) && red_at (v - 1) in
  let c_rt := (v + 1 <=? maxpixel) && red_at (v + 1) in
  let c_tp := (v + x ibuf <=? maxpixel) && red_at (v + x ibuf) in
  let c_bm := (0 <=? v - x ibuf) && red_at (v - x ibuf) in
  let lt := if c_lt then v - 1 else 0 in
  let rt := if c_rt then v + 1 else 0 in
  let tp := if c_tp then v + x ibuf else 0 in
  let bm := if c_bm then v - x ibuf else 0 in
  dilate_visit ibuf maxpixel v stack =
    (if negb (bm =? 0) && negb (rt =? 0) && red_at (bm + 1) then [bm + 1] else [])
    ++ (if negb (bm =? 0) && negb (lt =? 0) && red_at (bm - 1) then [bm - 1] else [])
    ++ (if negb (tp =? 0) && negb (rt =? 0) && red_at (tp + 1) then [tp + 1] else [])
    ++ (if negb (tp =? 0) && negb (lt =? 0) && red_at (tp - 1) then [tp - 1] else [])
    ++ (if c_bm then [v - x ibuf] else [])
    ++ (if c_tp then [v + x ibuf] else [])
    ++ (if c_rt then [v + 1] else [])
    ++ (if c_lt then [v - 1] else [])
    ++ stack.
Proof.
  intros Hg. cbn zeta. unfold dilate_visit. rewrite Hg.
  destruct ((0 <=? v - 1) && is_red (get_pixel ibuf (v - 1)));
    destruct ((v + 1 <=? maxpixel) && is_red (get_pixel ibuf (v + 1)));
    destruct ((v + x ibuf <=? maxpixel) && is_red (get_pixel ibuf (v + x ibuf)));
    destruct ((0 <=? v - x ibuf) && is_red (get_pixel ibuf (v - x ibuf)));
    cbn iota beta zeta;
    repeat match goal with
      | |- context [if ?c then _ :: _ else _] => destruct c
      end;
    reflexivity.
Qed.

Lemma dilate_visit_sound ibuf maxpixel v stack p :
  p ∈ dilate_visit ibuf maxpixel v stack ->
  p ∈ stack
  \/ (is_green (get_pixel ibuf v) = true /\ is_red (get_pixel ibuf p) = true
      /\ p - v ∈ moore_offsets (x ibuf)).
Proof.
  destruct (is_green (get_pixel ibuf v)) eqn:Hg.
  2:{ unfold dilate_visit. rewrite Hg. auto. }
  rewrite (dilate_visit_pushes ibuf maxpixel v stack Hg). cbn zeta.
  unfold moore_offsets. rewrite !elem_of_cons, elem_of_nil.
  intros H.
  repeat (apply elem_of_app in H as [H|H];
    [ right; split; [reflexivity|];
      match type of H with
      | _ ∈ (if ?c then _ else _) =>
          destruct c eqn:Ec; [|inversion H];
          apply list_elem_of_singleton in H; subst p
      end;
      repeat match goal with
        | E : _ && _ = true |- _ => apply andb_true_iff in E as [? ?]
        end;
      split; [assumption|];
      repeat match goal with
        | E : negb (?t =? 0) = true |- _ =>
            apply negb_true_iff, Z.eqb_neq in E
        end;
      repeat match goal with
        | E : context [if ?c then _ else _] |- _ => destruct c
        | |- context [if ?c then _ else _] => destruct c
        end;
      lia
    | ]).
  left. exact H.
Qed.

Lemma dilate_visit_app ibuf maxpixel v stack :
  dilate_visit ibuf maxpixel v stack = dilate_visit ibuf maxpixel v [] ++ stack.
Proof.
  destruct (is_green (get_pixel ibuf v)) eqn:Hg.
  - rewrite !(dilate_visit_pushes ibuf maxpixel v _ Hg). cbn zeta.
    rewrite app_nil_r, <- !app_assoc. reflexivity.
  - unfold dilate_visit. rewrite Hg. reflexivity.
Qed.

Lemma dilate_scan_elem ibuf maxpixel p n : forall stack,
  p ∈ dilate_scan ibuf maxpixel n stack <->
  p ∈ stack
  \/ exists v, 1 <= v <= Z.of_nat n /\ p ∈ dilate_visit ibuf maxpixel v [].
Proof.
  induction n as [|n IH]; intros stack; cbn [dilate_scan].
  - split; [auto|]. intros [H|(v & Hv & _)]; [exact H | lia].
  - rewrite IH, dilate_visit_app, elem_of_app. split.
    + intros [[H|H]|(v & Hv & H)].
      * right. exists (Z.of_nat (S n)). split; [lia | exact H].
      * auto.
      * right. exists v. split; [lia | exact H].
    + intros [H|(v & Hv & H)]; [auto|].
      destruct (Z.eq_dec v (Z.of_nat (S n))) as [-> | Hne]; [auto|].
      right. exists v. split; [lia | exact H].
Qed.

(** X13.  [dilate_shape] keeps the size of the canvas and only turns
    red pixels green: a pixel that it changes was red, is green afterwards,
    and is one of the eight index neighbours of a pixel of index 1 or more
    that was green on the canvas as it came in (the dilation does not
    creep). *)
Theorem dilate_shape_pixels (ibuf : ImBuf) (p : Z) :
  let r := dilate_shape ibuf in
  x r = x ibuf /\ y r = y ibuf
  /\ length (rect_float r) = length (rect_float ibuf)
  /\ (get_pixel r p = get_pixel ibuf p
      \/ (get_pixel r p = green_col
          /\ is_red (get_pixel ibuf p) = true
          /\ exists v, 1 <= v <= x ibuf * y ibuf - 1
               /\ is_green (get_pixel ibuf v) = true
               /\ p - v ∈ moore_offsets (x ibuf))).
Proof.
  cbn zeta. unfold dilate_shape.
  set (maxpixel := x ibuf * y ibuf - 1).
  set (stack := dilate_scan ibuf maxpixel (Z.to_nat maxpixel) []).
  destruct (paint_spec green_col stack ibuf) as (Hx & Hy & Hl & Hin & Hout).
  unfold paint, green_col in Hx, Hy, Hl, Hin, Hout.
  repeat split; try assumption.
  destruct (decide (p ∈ stack)) as [Hp|Hp]; [|left; apply Hout; exact Hp].
  right. pose proof Hp as Hstack. unfold stack in Hp.
  apply dilate_scan_elem in Hp as [Hp|(v & Hv & Hp)]; [inversion Hp|].
  apply dilate_visit_sound in Hp as [Hp|(Hg & Hr & Hoff)]; [inversion Hp|].
  split; [apply Hin; [exact Hstack | apply red_in_bounds; exact Hr]|].
  split; [exact Hr|]. exists v. split; [lia|]. split; [exact Hg | exact Hoff].
Qed.

(** X14.  Every red contact pixel (left, right, top, bottom, inside
    [0, maxpixel]) of a green pixel of index 1 or more is green after
    [dilate_shape]. *)
Theorem dilate_shape_contacts (ibuf : ImBuf) (v t : Z) :
  1 <= v <= x ibuf * y ibuf - 1 ->
  is_green (get_pixel ibuf v) = true ->
  contact ibuf (x ibuf * y ibuf - 1) v t ->
  is_red (get_pixel ibuf t) = true ->
  get_pixel (dilate_shape ibuf) t = green_col.
Proof.
  intros Hv Hg Hc Hr. unfold dilate_shape.
  set (maxpixel := x ibuf * y ibuf - 1) in *.
  set (stack := dilate_scan ibuf maxpixel (Z.to_nat maxpixel) []).
  destruct (paint_spec green_col stack ibuf) as (_ & _ & _ & Hin & _).
  unfold paint, green_col in Hin. apply Hin; [|apply red_in_bounds; exact Hr].
  apply dilate_scan_elem. right. exists v. split; [lia|].
  rewrite (dilate_visit_pushes ibuf maxpixel v [] Hg). cbn zeta.
  rewrite !elem_of_app.
  destruct Hc as [[-> H]|[[-> H]|[[-> H]|[-> H]]]]; rewrite Hr, andb_true_r.
  - do 7 right. left. destruct (Z.leb_spec 0 (v - 1)); [|lia].
    apply list_elem_of_singleton. reflexivity.
  - do 6 right. left. destruct (Z.leb_spec (v + 1) maxpixel); [|lia].
    apply list_elem_of_singleton. reflexivity.
  - do 5 right. left. destruct (Z.leb_spec (v + x ibuf) maxpixel); [|lia].
    apply list_elem_of_singleton. reflexivity.
  - do 4 right. left. destruct (Z.leb_spec 0 (v - x ibuf)); [|lia].
    apply list_elem_of_singleton. reflexivity.
Qed.

Lemma dilate_shape_contacts_witness :
  get_pixel (dilate_shape cross_canvas) 1 = green_col.
Proof.
  apply (dilate_shape_contacts cross_canvas 4 1).
  - simpl. lia.
  - reflexivity.
  - right. right. right. simpl. lia.
  - reflexivity.
Defined.

(** *** The outline *)

Lemma find_back_offset_range bo l : forall i,
  let r := find_back_offset bo i l in
  r = -1 \/ i <= r < i + Z.of_nat (length l).
Proof.
  induction l as [|o l IH]; intros i; cbn [find_back_offset length]; [auto|].
  destruct ((fst bo =? fst o) && (snd bo =? snd o)); [right; lia|].
  destruct (IH (i + 1)) as [H|H]; [auto | right; lia].
Qed.

Lemma offset_lookup cur_back_offset :
  0 <= cur_back_offset ->
  default (0, 0) (offset !! Z.to_nat (Z.rem (cur_back_offset + 1) NEIGHBOR_COUNT))
  ∈ offset.
Proof.
  intros H. pose proof (Z.rem_bound_pos (cur_back_offset + 1) NEIGHBOR_COUNT
                          ltac:(lia) ltac:(reflexivity)) as Hb.
  unfold NEIGHBOR_COUNT in *.
  destruct (lookup_lt_is_Some_2 offset (Z.to_nat (Z.rem (cur_back_offset + 1) 8)))
    as [o Ho]; [cbn; lia|].
  rewrite Ho. cbn. apply (list_elem_of_lookup_2 _ _ _ Ho).
Qed.

Lemma chained_cons a b l :
  (fst a - fst b, snd a - snd b) ∈ offset -> chained (b :: l) -> chained (a :: b :: l).
Proof.
  intros Hab Hl [|i] p q Hp Hq.
  - cbn in Hp, Hq. injection Hp as <-. injection Hq as <-. exact Hab.
  - cbn in Hp, Hq. apply (Hl i p q); assumption.
Qed.

Lemma chained_tail l : chained l -> chained (tail l).
Proof.
  intros H. destruct l as [|a l]; [exact H|]. cbn.
  intros i p q Hp Hq. apply (H (S i) p q); assumption.
Qed.

Lemma outline_check_inv ibuf n : forall cur_back_offset st,
  0 <= cur_back_offset -> outline_inv ibuf st ->
  outline_inv ibuf (outline_check ibuf n cur_back_offset st).
Proof.
  induction n as [|n IH]; intros cur st Hcur Hinv; cbn [outline_check]; [exact Hinv|].
  pose proof (offset_lookup cur Hcur) as Ho.
  set (o := default (0, 0) (offset !! Z.to_nat (Z.rem (cur + 1) NEIGHBOR_COUNT))) in *.
  cbn [fst snd].
  destruct (is_green (get_pixel ibuf
              (x ibuf * (snd (boundary_co st) + snd o) + (fst (boundary_co st) + fst o))))
    eqn:Hg.
  - destruct Hinv as (Hhead & Hgreen & Hchain). split; [reflexivity|]. split.
    + cbn [outline_stack]. intros co Hco. apply elem_of_cons in Hco as [-> | Hco].
      * exact Hg.
      * apply Hgreen. exact Hco.
    + cbn [outline_stack]. destruct (outline_stack st) as [|b l]; [discriminate|].
      cbn in Hhead. injection Hhead as ->.
      apply chained_cons; [|exact Hchain]. cbn [fst snd].
      replace (fst (boundary_co st) + fst o - fst (boundary_co st)) with (fst o) by lia.
      replace (snd (boundary_co st) + snd o - snd (boundary_co st)) with (snd o) by lia.
      destruct o. exact Ho.
  - apply IH; [lia|]. exact Hinv.
Qed.

Lemma outline_round_inv ibuf start_co st :
  outline_inv ibuf st -> outline_inv ibuf (fst (outline_round ibuf start_co st)).
Proof.
  intros Hinv. unfold outline_round. cbn [fst].
  destruct (find_back_offset_range (backtracked_offset st) offset 0) as [H|H].
  - rewrite H. exact Hinv.
  - destruct (Z.eqb_spec (find_back_offset (backtracked_offset st) 0 offset) (-1));
      [exact Hinv|].
    apply outline_check_inv; [lia | exact Hinv].
Qed.

Lemma outline_loop_inv ibuf start_co fuel : forall st pts,
  outline_inv ibuf st ->
  outline_loop ibuf fuel start_co st = Some pts ->
  (forall co, co ∈ pts -> is_green (pixel_at ibuf co) = true) /\ chained pts.
Proof.
  induction fuel as [|fuel IH]; intros st pts Hinv Hr; [discriminate|].
  cbn [outline_loop] in Hr.
  pose proof (outline_round_inv ibuf start_co st Hinv) as Hinv'.
  destruct (outline_round ibuf start_co st) as [st' back]. cbn [fst] in Hinv'.
  destruct back; [|apply (IH st' pts Hinv' Hr)].
  injection Hr as <-. destruct Hinv' as (_ & Hgreen & Hchain). split.
  - intros co Hco. apply Hgreen. destruct (outline_stack st'); [inversion Hco|].
    apply elem_of_cons. auto.
  - apply chained_tail. exact Hchain.
Qed.

Lemma outline_start_green ibuf n idx :
  outline_start ibuf n = Some idx -> is_green (get_pixel ibuf idx) = true.
Proof.
  induction n as [|n IH]; cbn [outline_start]; [discriminate|].
  destruct (is_green (get_pixel ibuf (Z.of_nat (S n)))) eqn:Hg; [|exact IH].
  intros H. injection H as <-. exact Hg.
Qed.

Lemma outline_init_inv ibuf idx :
  is_green (get_pixel ibuf idx) = true -> outline_inv ibuf (outline_init ibuf idx).
Proof.
  intros Hg. unfold outline_init. split; [reflexivity|]. split.
  - cbn [outline_stack]. intros co Hco. apply list_elem_of_singleton in Hco as ->.
    unfold pixel_at. cbn [fst snd]. rewrite <- Z.quot_rem'. exact Hg.
  - intros i a b Ha Hb. cbn in Hb. destruct i; discriminate.
Qed.

(** X15.  Whenever [gpencil_get_outline_points] returns, every point
    of the outline is a green pixel of the canvas (dilated when asked for),
    read at index x * co[1] + co[0], and each point is one step of the table
    [offset] away from the point pushed before it. *)
Theorem outline_points_green_chain (fuel : nat) (ibuf : ImBuf) (dilate : bool)
        (r : ImBuf) (pts : list (Z * Z)) :
  gpencil_get_outline_points fuel ibuf dilate = Some (r, pts) ->
  r = (if dilate then dilate_shape ibuf else ibuf)
  /\ (forall co, co ∈ pts -> is_green (pixel_at r co) = true)
  /\ chained pts.
Proof.
  unfold gpencil_get_outline_points.
  set (ib := if dilate then dilate_shape ibuf else ibuf).
  destruct (outline_start ib _) as [idx|] eqn:Hs.
  - destruct (outline_loop ib fuel _ _) as [stack|] eqn:Hl; [|discriminate].
    intros H. injection H as <- <-. split; [reflexivity|].
    apply (outline_loop_inv ib (boundary_co (outline_init ib idx)) fuel
             (outline_init ib idx) stack); [|exact Hl].
    apply outline_init_inv. apply (outline_start_green _ _ _ Hs).
  - intros H. injection H as <- <-. split; [reflexivity|]. split.
    + intros co Hco. inversion Hco.
    + intros i a b Ha. discriminate.
Qed.

Lemma outline_points_green_chain_witness :
  block_canvas = block_canvas
  /\ (forall co, co ∈ [(2, 1); (1, 1); (1, 2); (1, 1); (2, 2)] ->
        is_green (pixel_at block_canvas co) = true)
  /\ chained [(2, 1); (1, 1); (1, 2); (1, 1); (2, 2)].
Proof.
  apply (outline_points_green_chain 5 block_canvas false block_canvas
           [(2, 1); (1, 1); (1, 2); (1, 1); (2, 2)]).
  reflexivity.
Defined.

Lemma outline_check_lonely ibuf n : forall cur_back_offset st,
  0 <= cur_back_offset ->
  (forall o, o ∈ offset ->
     is_green (pixel_at ibuf (fst (boundary_co st) + fst o,
                              snd (boundary_co st) + snd o)) = false) ->
  let st' := outline_check ibuf n cur_back_offset st in
  boundary_co st' = boundary_co st /\ outline_stack st' = outline_stack st.
Proof.
  induction n as [|n IH]; intros cur st Hcur Hlone; cbn [outline_check]; [auto|].
  pose proof (offset_lookup cur Hcur) as Ho.
  set (o := default (0, 0) (offset !! Z.to_nat (Z.rem (cur + 1) NEIGHBOR_COUNT))) in *.
  cbn [fst snd]. pose proof (Hlone o Ho) as Hg. unfold pixel_at in Hg.
  cbn [fst snd] in Hg. rewrite Hg.
  apply (IH (cur + 1) (mkOutline (boundary_co st) (backtracked_offset st) _
                         (outline_stack st))); [lia | exact Hlone].
Qed.

Lemma outline_round_lonely ibuf st :
  (forall o, o ∈ offset ->
     is_green (pixel_at ibuf (fst (boundary_co st) + fst o,
                              snd (boundary_co st) + snd o)) = false) ->
  snd (outline_round ibuf (boundary_co st) st) = true
  /\ outline_stack (fst (outline_round ibuf (boundary_co st) st)) = outline_stack st.
Proof.
  intros Hlone. unfold outline_round. cbn [fst snd].
  set (cur := find_back_offset (backtracked_offset st) 0 offset).
  assert (Hboth : boundary_co (if cur =? -1 then st
                               else outline_check ibuf (Z.to_nat (NEIGHBOR_COUNT - 1))
                                      cur st) = boundary_co st
                  /\ outline_stack (if cur =? -1 then st
                                    else outline_check ibuf
                                           (Z.to_nat (NEIGHBOR_COUNT - 1)) cur st)
                     = outline_stack st).
  { destruct (Z.eqb_spec cur (-1)) as [_|Hne]; [auto|].
    apply outline_check_lonely; [|exact Hlone].
    destruct (find_back_offset_range (backtracked_offset st) offset 0) as [H|H];
      fold cur in H; lia. }
  destruct Hboth as [Hb Hk]. rewrite Hb, Hk, !Z.eqb_refl. auto.
Qed.

(** X16.  When the pixel that the tracing starts from has no green
    pixel among the eight around it, [gpencil_get_outline_points] ends in its
    first round and the outline is empty. *)
Theorem outline_lonely_pixel (fuel : nat) (ibuf : ImBuf) (idx : Z) :
  outline_start ibuf (Z.to_nat (x ibuf * y ibuf - 1)) = Some idx ->
  (forall o, o ∈ offset ->
     is_green (pixel_at ibuf (Z.rem idx (x ibuf) + fst o, idx ÷ x ibuf + snd o))
     = false) ->
  (1 <= fuel)%nat ->
  gpencil_get_outline_points fuel ibuf false = Some (ibuf, []).
Proof.
  intros Hs Hlone Hfuel. unfold gpencil_get_outline_points. rewrite Hs.
  destruct fuel as [|fuel]; [lia|]. cbn [outline_loop].
  destruct (outline_round_lonely ibuf (outline_init ibuf idx) Hlone) as [Hback Hk].
  destruct (outline_round ibuf _ (outline_init ibuf idx)) as [st' back].
  cbn [fst snd] in Hback, Hk. subst back. rewrite Hk. reflexivity.
Qed.

Lemma outline_lonely_pixel_witness :
  gpencil_get_outline_points 1 cross_canvas false = Some (cross_canvas, []).
Proof.
  apply (outline_lonely_pixel 1 cross_canvas 4).
  - reflexivity.
  - intros o Ho. unfold offset in Ho.
    repeat (apply elem_of_cons in Ho as [-> | Ho]; [reflexivity|]).
    inversion Ho.
  - lia.
Defined.

End FillFacts.

Module ExpandFacts.
Import Expand.

(** *** The order of binary32 numbers *)

(** Case analysis on the shapes, signs, exponents and mantissas of the
    floats of a goal about [F32.leb] and [F32.ltb]. *)
Ltac float_order :=
  unfold F32.leb, F32.ltb, SFleb, SFltb, SFcompare;
  repeat match goal with f : F32.float |- _ => destruct f as [[]|[]| |[] ? ?] end;
  simpl; try discriminate; try reflexivity; try congruence;
  repeat match goal with
    | |- context [Pos.compare_cont Eq ?a ?b] =>
        change (Pos.compare_cont Eq a b) with (Pos.compare a b)
    end;
  repeat match goal with
    | |- context [Z.compare ?a ?b] => destruct (Z.compare_spec a b)
    end;
  repeat match goal with
    | |- context [Pos.compare ?a ?b] => destruct (Pos.compare_spec a b)
    end;
  simpl; try discriminate; try reflexivity; try congruence; try lia.

Lemma leb_trans (a b c : F32.float) :
  F32.leb a b = true -> F32.leb b c = true -> F32.leb a c = true.
Proof. float_order. Qed.

(** Two numbers that are not NaN (each is below something) are comparable. *)
Lemma ltb_false_leb (a b x y : F32.float) :
  F32.leb a x = true -> F32.leb b y = true ->
  F32.ltb a b = false -> F32.leb b a = true.
Proof. float_order. Qed.

Lemma ltb_leb (a b : F32.float) : F32.ltb a b = true -> F32.leb a b = true.
Proof. float_order. Qed.

Lemma leb_refl (a x : F32.float) : F32.leb a x = true -> F32.leb a a = true.
Proof. float_order. Qed.


(** *** Counting in floats *)

Lemma same_eq (a b : F32.float) : F32.same a b = true -> a = b.
Proof.
  destruct a as [s|s| |s m e], b as [s'|s'| |s' m' e']; cbn; try discriminate.
  - intros H. apply Bool.eqb_prop in H. congruence.
  - intros H. apply Bool.eqb_prop in H. congruence.
  - reflexivity.
  - intros H. apply andb_true_iff in H as [H He]. apply andb_true_iff in H as [Hs Hm].
    apply Bool.eqb_prop in Hs. apply Pos.eqb_eq in Hm. apply Z.eqb_eq in He.
    congruence.
Qed.

Lemma succ_exact_spec n : forall d k,
  F32.succ_exact n d = true -> d <= k < d + Z.of_nat n ->
  F32.add (F32.of_int k) F32.one = F32.of_int (k + 1).
Proof.
  induction n as [|n IH]; intros d k H Hk; [lia|].
  cbn [F32.succ_exact] in H. apply andb_true_iff in H as [H1 H2].
  destruct (Z.eq_dec k d) as [->|]; [apply same_eq, H1|].
  apply (IH (d + 1)); [exact H2 | lia].
Qed.

(** Up to 2^17 the float reached by [d] additions of 1.0 is the number [d]
    itself, without any rounding. *)
Lemma hops_is_number (d : nat) :
  Z.of_nat d <= 131072 -> hops d = F32.of_int (Z.of_nat d).
Proof.
  assert (Hall : F32.succ_exact (Z.to_nat 131072) 0 = true) by (vm_compute; reflexivity).
  induction d as [|d IH]; intros Hd; [reflexivity|].
  change (hops (S d)) with (F32.add (hops d) F32.one). rewrite IH by lia.
  replace (Z.of_nat (S d)) with (Z.of_nat d + 1) by lia.
  apply (succ_exact_spec _ 0 _ Hall). lia.
Qed.

(** *** Loops *)

Lemma for_range_S {S : Type} n (body : nat -> S -> S) s :
  for_range (Datatypes.S n) body s = body n (for_range n body s).
Proof.
  unfold for_range. rewrite seq_S, fold_left_app. reflexivity.
Qed.

(** A loop that rewrites entry [i] of an array in round [i]. *)
Lemma for_range_pointwise {A : Type} (f : nat -> list A -> A) n (l : list A) :
  let r := for_range n (fun i d => <[i := f i d]> d) l in
  length r = length l
  /\ forall j, (n <= j)%nat -> r !! j = l !! j.
Proof.
  induction n as [|n [IHl IHj]]; cbn zeta.
  - split; [reflexivity | intros; reflexivity].
  - rewrite for_range_S. split.
    + rewrite length_insert. exact IHl.
    + intros j Hj. rewrite list_lookup_insert_ne by lia. apply IHj. lia.
Qed.

(** A loop that replaces entry [i] by a function of its current value. *)
Lemma for_range_entries (h : nat -> F32.float -> F32.float) n (l : list F32.float) :
  let r := for_range n (fun i d => <[i := h i (aget d i)]> d) l in
  length r = length l
  /\ (forall j, (j < n)%nat -> (j < length l)%nat -> r !! j = Some (h j (aget l j)))
  /\ (forall j, (n <= j)%nat -> r !! j = l !! j).
Proof.
  induction n as [|n (IHl & IHlt & IHge)]; cbn zeta.
  - split; [reflexivity|]. split; [intros; lia | intros; reflexivity].
  - rewrite for_range_S. split; [rewrite length_insert; exact IHl|]. split.
    + intros j Hj Hlen. destruct (decide (j = n)) as [->|Hne].
      * rewrite list_lookup_insert_eq by lia.
        unfold aget at 1. rewrite IHge by lia. reflexivity.
      * rewrite list_lookup_insert_ne by lia. apply IHlt; lia.
    + intros j Hj. rewrite list_lookup_insert_ne by lia. apply IHge. lia.
Qed.

(** *** The spherical falloff *)

Section Spherical.
Variable m : Mesh.
Variable vertex : Z.





End Spherical.


(** *** Breadth-first traversal: the loop reaches its exit *)

Lemma unvisited_insert vis i :
  vis !! i = Some false ->
  S (unvisited (<[i := true]> vis)) = unvisited vis.
Proof.
  unfold unvisited. revert i. induction vis as [|b vis IH]; intros i Hi.
  - discriminate.
  - destruct i as [|i].
    + injection Hi as ->.
      change (<[0%nat := true]> (false :: vis)) with (true :: vis).
      rewrite !filter_cons. repeat case_decide; try congruence. reflexivity.
    + change (<[S i := true]> (b :: vis)) with (b :: <[i := true]> vis).
      rewrite !filter_cons. specialize (IH i Hi).
      case_decide; cbn [length]; lia.
Qed.

Section Traversal.
Context {D : Type} (dzero : D) (dsucc : D -> D).
Variable edges : nat -> list (nat * bool).

Lemma bfs_edge_measure from_v st e :
  let st' := bfs_edge dzero dsucc from_v st e in
  (length (fst (fst st')) + unvisited (snd (fst st')))%nat
  = (length (fst (fst st)) + unvisited (snd (fst st)))%nat.
Proof.
  destruct st as [[q vis] dists_array], e as [to_v dup]. cbn zeta.
  unfold bfs_edge. destruct (vis !! to_v) as [[|]|] eqn:E; try reflexivity.
  cbn [fst snd]. rewrite length_app. cbn [length].
  pose proof (unvisited_insert vis to_v E). lia.
Qed.

Lemma bfs_edges_measure from_v es : forall st,
  let st' := fold_left (bfs_edge dzero dsucc from_v) es st in
  (length (fst (fst st')) + unvisited (snd (fst st')))%nat
  = (length (fst (fst st)) + unvisited (snd (fst st)))%nat.
Proof.
  induction es as [|e es IH]; intros st; cbn zeta; cbn [fold_left].
  - reflexivity.
  - rewrite IH. apply bfs_edge_measure.
Qed.

(** With as much fuel as the length of the queue plus the number of
    unvisited vertices, the loop ends on an empty queue. *)
Lemma bfs_loop_complete fuel : forall st,
  (length (fst (fst st)) + unvisited (snd (fst st)) <= fuel)%nat ->
  fst (fst (bfs_loop dzero dsucc edges fuel st)) = [].
Proof.
  induction fuel as [|fuel IH]; intros [[q vis] dists_array] Hfuel.
  - cbn in *. destruct q; [reflexivity | cbn in Hfuel; lia].
  - cbn [bfs_loop]. destruct q as [|from_v q]; [reflexivity|].
    apply IH.
    pose proof (bfs_edges_measure from_v (edges from_v) (q, vis, dists_array)) as Hm.
    cbn zeta in Hm. rewrite Hm. cbn [fst snd length] in *. lia.
Qed.

End Traversal.

(** The same for the flood fill, whatever the visitor does: a vertex is
    queued at most once, when it is marked. *)
Lemma floodfill_edge_measure (func : floodfill_cb) from_v st e :
  let st' := floodfill_edge func from_v st e in
  (length (queue (fst st')) + unvisited (visited_vertices (fst st'))
   <= length (queue (fst st)) + unvisited (visited_vertices (fst st)))%nat.
Proof.
  destruct st as [[q vis] data], e as [to_v dup]. cbn zeta. unfold floodfill_edge.
  cbn [fst snd queue visited_vertices].
  destruct (vis !! to_v) as [[|]|] eqn:E; try (cbn [fst queue visited_vertices]; lia).
  pose proof (unvisited_insert vis to_v E).
  destruct (func from_v to_v dup data) as [data' [|]];
    cbn [fst queue visited_vertices]; rewrite ?length_app; cbn [length]; lia.
Qed.

Lemma floodfill_edges_measure (func : floodfill_cb) from_v es : forall st,
  let st' := fold_left (floodfill_edge func from_v) es st in
  (length (queue (fst st')) + unvisited (visited_vertices (fst st'))
   <= length (queue (fst st)) + unvisited (visited_vertices (fst st)))%nat.
Proof.
  induction es as [|e es IH]; intros st; cbn zeta; cbn [fold_left]; [lia|].
  etransitivity; [apply IH | apply floodfill_edge_measure].
Qed.

Lemma floodfill_loop_complete (m : Mesh) (func : floodfill_cb) fuel : forall st,
  (length (queue (fst st)) + unvisited (visited_vertices (fst st)) <= fuel)%nat ->
  queue (fst (floodfill_loop m func fuel st)) = [].
Proof.
  induction fuel as [|fuel IH]; intros st Hfuel.
  - cbn. destruct (queue (fst st)); [reflexivity | cbn in Hfuel; lia].
  - cbn [floodfill_loop]. destruct (queue (fst st)) as [|from_v q] eqn:E; [exact E|].
    apply IH.
    pose proof (floodfill_edges_measure func from_v (neighbors_dup m from_v)
                  (mkFloodFill q (visited_vertices (fst st)), snd st)) as Hm.
    cbn zeta in Hm. cbn [fst snd queue visited_vertices length] in *. lia.
Qed.

(** [SCULPT_floodfill_execute] always runs its loop to the end. *)
Lemma floodfill_execute_complete (m : Mesh) flood func userdata :
  queue (fst (SCULPT_floodfill_execute m flood func userdata)) = [].
Proof. apply floodfill_loop_complete. cbn [fst]. lia. Qed.

(** The traversal commutes with a map on the distances that respects zero
    and successor. *)
Section TraversalMap.
Context {D D' : Type} (dzero : D) (dsucc : D -> D) (dzero' : D') (dsucc' : D' -> D').
Variable h : D -> D'.
Hypothesis h_zero : h dzero = dzero'.
Hypothesis h_succ : forall d, h (dsucc d) = dsucc' (h d).
Variable edges : nat -> list (nat * bool).

Let lift (st : bfs_state D) : bfs_state D' :=
  (fst (fst st), snd (fst st), h <$> snd st).

Lemma bfs_edge_map from_v st e :
  bfs_edge dzero' dsucc' from_v (lift st) e = lift (bfs_edge dzero dsucc from_v st e).
Proof.
  destruct st as [[q vis] dists_array], e as [to_v dup]. unfold lift, bfs_edge.
  cbn [fst snd]. destruct (vis !! to_v) as [[|]|]; try reflexivity.
  cbn [fst snd]. rewrite list_fmap_insert, list_lookup_fmap.
  f_equal. f_equal. destruct (dists_array !! from_v); cbn;
    destruct dup; rewrite ?h_succ, ?h_zero; reflexivity.
Qed.

Lemma bfs_edges_map from_v es : forall st,
  fold_left (bfs_edge dzero' dsucc' from_v) es (lift st)
  = lift (fold_left (bfs_edge dzero dsucc from_v) es st).
Proof.
  induction es as [|e es IH]; intros st; cbn [fold_left]; [reflexivity|].
  rewrite bfs_edge_map. apply IH.
Qed.

Lemma bfs_loop_map fuel : forall st,
  bfs_loop dzero' dsucc' edges fuel (lift st)
  = lift (bfs_loop dzero dsucc edges fuel st).
Proof.
  induction fuel as [|fuel IH]; intros [[q vis] dists_array]; [reflexivity|].
  cbn [bfs_loop]. unfold lift at 1. cbn [fst snd].
  destruct q as [|from_v q]; [reflexivity|].
  change (q, vis, h <$> dists_array) with (lift (q, vis, dists_array)).
  rewrite bfs_edges_map. apply IH.
Qed.

End TraversalMap.

(** *** Breadth-first traversal: the levels are shortest distances *)

Section Levels.
Variable edges : nat -> list (nat * bool).
Variable n : nat.
Variable seeds : list nat.

Lemma bfs_edges_spec h es : forall q0 vis0 lev0,
  length vis0 = n -> length lev0 = n -> is_visited vis0 h ->
  (forall t dup, (t, dup) ∈ es -> (t < n)%nat /\ dup = false) ->
  exists new vis1 lev1,
    fold_left (bfs_edge O S h) es (q0, vis0, lev0) = (q0 ++ new, vis1, lev1)
    /\ length vis1 = n /\ length lev1 = n
    /\ (forall w, w ∈ new ->
          ~ is_visited vis0 w /\ (w, false) ∈ es
          /\ lev1 !! w = Some (S (level_of lev0 h)))
    /\ (forall v, is_visited vis1 v <-> is_visited vis0 v \/ v ∈ new)
    /\ (forall v, is_visited vis0 v -> lev1 !! v = lev0 !! v)
    /\ (forall t dup, (t, dup) ∈ es -> is_visited vis1 t).
Proof.
  induction es as [|[w dup] es IH]; intros q0 vis0 lev0 Hlv Hll Hh Hes.
  - exists [], vis0, lev0. cbn [fold_left]. rewrite app_nil_r.
    split; [reflexivity|]. split; [exact Hlv|]. split; [exact Hll|].
    split; [intros w Hw; inversion Hw|].
    split; [intros v; split; [auto | intros [H|H]; [exact H | inversion H]]|].
    split; [reflexivity|]. intros t dup Ht. inversion Ht.
  - destruct (Hes w dup ltac:(left)) as [Hw ->].
    assert (Hes' : forall t dup, (t, dup) ∈ es -> (t < n)%nat /\ dup = false)
      by (intros t dup Ht; apply Hes; right; exact Ht).
    cbn [fold_left]. unfold bfs_edge at 2.
    destruct (vis0 !! w) as [[|]|] eqn:Evis.
    + destruct (IH q0 vis0 lev0 Hlv Hll Hh Hes')
        as (new & vis1 & lev1 & Heq & Hlv1 & Hll1 & Hnew & Hvis & Hold & Hall).
      exists new, vis1, lev1. split; [exact Heq|]. split; [exact Hlv1|].
      split; [exact Hll1|]. split.
      { intros x Hx. destruct (Hnew x Hx) as (H1 & H2 & H3).
        split; [exact H1|]. split; [right; exact H2 | exact H3]. }
      split; [exact Hvis|]. split; [exact Hold|].
      intros t dup Ht. apply elem_of_cons in Ht as [Ht|Ht].
      * injection Ht as -> ->. apply Hvis. left. exact Evis.
      * eapply Hall; exact Ht.
    + assert (Hne : h <> w) by (intros ->; unfold is_visited in Hh; congruence).
      set (vis0' := <[w := true]> vis0).
      set (lev0' := <[w := S (default O (lev0 !! h))]> lev0).
      destruct (IH (q0 ++ [w]) vis0' lev0')
        as (new & vis1 & lev1 & Heq & Hlv1 & Hll1 & Hnew & Hvis & Hold & Hall).
      { subst vis0'. rewrite length_insert. exact Hlv. }
      { subst lev0'. rewrite length_insert. exact Hll. }
      { unfold is_visited, vis0'. rewrite list_lookup_insert_ne by auto. exact Hh. }
      { exact Hes'. }
      assert (Hw' : is_visited vis0' w)
        by (unfold is_visited, vis0'; apply list_lookup_insert_eq; lia).
      assert (Hmono : forall v, is_visited vis0 v -> is_visited vis0' v).
      { intros v Hv. unfold is_visited, vis0'.
        destruct (decide (v = w)) as [->|];
          [apply list_lookup_insert_eq; lia | rewrite list_lookup_insert_ne by auto; exact Hv]. }
      assert (Hback : forall v, is_visited vis0' v -> is_visited vis0 v \/ v = w).
      { intros v Hv. destruct (decide (v = w)) as [->|]; [right; reflexivity|].
        left. unfold is_visited, vis0' in Hv.
        rewrite list_lookup_insert_ne in Hv by auto. exact Hv. }
      exists (w :: new), vis1, lev1.
      split; [rewrite Heq, <- app_assoc; reflexivity|].
      split; [exact Hlv1|]. split; [exact Hll1|]. split.
      { intros x Hx. apply elem_of_cons in Hx as [->|Hx].
        - split; [unfold is_visited; congruence|]. split; [left|].
          rewrite (Hold w Hw'). subst lev0'. unfold level_of.
          apply list_lookup_insert_eq. lia.
        - destruct (Hnew x Hx) as (H1 & H2 & H3).
          split; [intros Hv; apply H1, Hmono, Hv|]. split; [right; exact H2|].
          rewrite H3. unfold level_of, lev0'.
          rewrite list_lookup_insert_ne by auto. reflexivity. }
      split.
      { intros v. rewrite Hvis. split.
        - intros [Hv|Hv]; [|right; right; exact Hv].
          destruct (Hback v Hv) as [Hv'| ->]; [left; exact Hv' | right; left].
        - intros [Hv|Hv]; [left; apply Hmono, Hv|].
          apply elem_of_cons in Hv as [->|Hv]; [left; exact Hw' | right; exact Hv]. }
      split.
      { intros v Hv. rewrite (Hold v (Hmono v Hv)). subst lev0'.
        apply list_lookup_insert_ne. intros ->. unfold is_visited in Hv. congruence. }
      intros t dup Ht. apply elem_of_cons in Ht as [Ht|Ht].
      * injection Ht as -> ->. apply Hvis. left. exact Hw'.
      * eapply Hall; exact Ht.
    + apply lookup_ge_None in Evis. lia.
Qed.

Hypothesis edges_range : edges_in_range n edges.
Hypothesis edges_plain : forall v t dup, (t, dup) ∈ edges v -> dup = false.

(** One round of the loop keeps the invariant. *)
Lemma bfs_step_inv h t vis lev :
  bfs_inv edges n seeds (h :: t) vis lev ->
  exists q' vis' lev',
    fold_left (bfs_edge O S h) (edges h) (t, vis, lev) = (q', vis', lev')
    /\ bfs_inv edges n seeds q' vis' lev'.
Proof.
  intros ((Hlv & Hll) & I2 & I3 & I4 & I6 & I7 & I8).
  assert (Hh : is_visited vis h) by (apply I2; left).
  destruct (bfs_edges_spec h (edges h) t vis lev Hlv Hll Hh)
    as (new & vis1 & lev1 & Heq & Hlv1 & Hll1 & Hnew & Hvis & Hold & Hall).
  { intros x dup Hx. split; [eapply edges_range; exact Hx | eapply edges_plain; exact Hx]. }
  exists (t ++ new), vis1, lev1. split; [exact Heq|].
  set (Lh := level_of lev h) in *.
  assert (HL1old : forall v, is_visited vis v -> level_of lev1 v = level_of lev v)
    by (intros v Hv; unfold level_of; rewrite (Hold v Hv); reflexivity).
  assert (HL1new : forall w, w ∈ new -> level_of lev1 w = S Lh).
  { intros w Hw. destruct (Hnew w Hw) as (_ & _ & Hl). unfold level_of. rewrite Hl.
    reflexivity. }
  assert (Hbound : forall v, is_visited vis1 v -> (level_of lev1 v <= S Lh)%nat).
  { intros v Hv. apply Hvis in Hv as [Hv|Hv].
    - rewrite (HL1old v Hv). apply I6; [left | exact Hv].
    - rewrite (HL1new v Hv). lia. }
  assert (Htail : forall a, a ∈ t -> is_visited vis a /\ (Lh <= level_of lev a)%nat).
  { intros a Ha. split; [apply I2; right; exact Ha|].
    apply list_elem_of_lookup in Ha as [i Hi].
    apply (I4 O (S i) h a); [lia | reflexivity | exact Hi]. }
  assert (Hlow : forall a, a ∈ t ++ new -> (Lh <= level_of lev1 a)%nat).
  { intros a Ha. apply elem_of_app in Ha as [Ha|Ha].
    - destruct (Htail a Ha) as [Hv Hle]. rewrite (HL1old a Hv). exact Hle.
    - rewrite (HL1new a Ha). lia. }
  split; [split; assumption|]. split.
  { intros v Hv. apply Hvis. apply elem_of_app in Hv as [Hv|Hv];
      [left; apply I2; right; exact Hv | right; exact Hv]. }
  split.
  { intros v Hv. apply Hvis in Hv as [Hv|Hv].
    - rewrite (HL1old v Hv). apply I3, Hv.
    - destruct (I3 h Hh) as (s & Hs & Hwalk). exists s. split; [exact Hs|].
      rewrite (HL1new v Hv). destruct (Hnew v Hv) as (_ & Hin & _).
      apply (walk_step edges s h v false Lh Hwalk Hin). }
  split.
  { intros i j a b Hij Ha Hb.
    destruct (decide (j < length t)%nat) as [Hj|Hj].
    - rewrite lookup_app_l in Ha, Hb by lia.
      assert (Hva : is_visited vis a)
        by (apply I2; right; apply list_elem_of_lookup; eauto).
      assert (Hvb : is_visited vis b)
        by (apply I2; right; apply list_elem_of_lookup; eauto).
      rewrite (HL1old a Hva), (HL1old b Hvb).
      apply (I4 (S i) (S j) a b); [lia | exact Ha | exact Hb].
    - rewrite lookup_app_r in Hb by lia.
      assert (Hb' : b ∈ new) by (apply list_elem_of_lookup; eauto).
      rewrite (HL1new b Hb'). apply Hbound, Hvis.
      destruct (decide (i < length t)%nat) as [Hi|Hi].
      + rewrite lookup_app_l in Ha by lia. left. apply I2. right.
        apply list_elem_of_lookup; eauto.
      + rewrite lookup_app_r in Ha by lia. right. apply list_elem_of_lookup; eauto. }
  split.
  { intros a v Ha Hv. pose proof (Hlow a Ha). pose proof (Hbound v Hv). lia. }
  split.
  { intros v Hv Hnq x dup Hx.
    assert (Hvold : is_visited vis v).
    { apply Hvis in Hv as [Hv|Hv]; [exact Hv|].
      exfalso. apply Hnq, elem_of_app. right. exact Hv. }
    destruct (decide (v = h)) as [->|Hne].
    - split; [eapply Hall; exact Hx|].
      rewrite (HL1old h Hh). apply Hbound. eapply Hall; exact Hx.
    - assert (Hnq' : v ∉ h :: t).
      { intros Hin. apply elem_of_cons in Hin as [->|Hin]; [congruence|].
        apply Hnq, elem_of_app. left. exact Hin. }
      destruct (I7 v Hvold Hnq' x dup Hx) as [Hvx Hlx].
      split; [apply Hvis; left; exact Hvx|].
      rewrite (HL1old x Hvx), (HL1old v Hvold). exact Hlx. }
  intros s Hs. destruct (I8 s Hs) as [Hv H0].
  split; [apply Hvis; left; exact Hv|]. rewrite (HL1old s Hv). exact H0.
Qed.

Lemma bfs_loop_inv fuel : forall q vis lev,
  bfs_inv edges n seeds q vis lev ->
  exists q' vis' lev',
    bfs_loop O S edges fuel (q, vis, lev) = (q', vis', lev')
    /\ bfs_inv edges n seeds q' vis' lev'.
Proof.
  induction fuel as [|fuel IH]; intros q vis lev Hinv.
  - exists q, vis, lev. split; [reflexivity | exact Hinv].
  - cbn [bfs_loop]. destruct q as [|h t].
    + exists [], vis, lev. split; [reflexivity | exact Hinv].
    + destruct (bfs_step_inv h t vis lev Hinv) as (q1 & vis1 & lev1 & Heq & Hinv1).
      rewrite Heq. apply IH, Hinv1.
Qed.

(** Once the queue is empty, the visited vertices are the reachable ones
    and the level of each is its distance from the seeds. *)
Lemma bfs_inv_final vis lev :
  bfs_inv edges n seeds [] vis lev ->
  (forall v, is_visited vis v <-> reachable edges seeds v)
  /\ (forall v d, at_distance edges seeds v d -> lev !! v = Some d)
  /\ (forall v, is_visited vis v ->
        exists d, at_distance edges seeds v d /\ lev !! v = Some d).
Proof.
  intros ((Hlv & Hll) & I2 & I3 & I4 & I6 & I7 & I8).
  assert (Hwalk : forall s v d, s ∈ seeds -> walk edges s v d ->
                    is_visited vis v /\ (level_of lev v <= d)%nat).
  { intros s v d Hs Hw. induction Hw as [|v x dup w Hw [IHv IHl] Hx].
    - destruct (I8 s Hs) as [Hv H0]. split; [exact Hv | lia].
    - rewrite (edges_plain v x dup Hx).
      destruct (I7 v IHv (not_elem_of_nil v) x dup Hx) as [Hvx Hlx].
      split; [exact Hvx | lia]. }
  assert (Hlev : forall v, is_visited vis v -> lev !! v = Some (level_of lev v)).
  { intros v Hv.
    assert (Hlt : (v < length lev)%nat).
    { rewrite Hll, <- Hlv. apply lookup_lt_Some in Hv. exact Hv. }
    destruct (lookup_lt_is_Some_2 lev v Hlt) as [d' Hd'].
    unfold level_of. rewrite Hd'. reflexivity. }
  split; [|split].
  - intros v. split.
    + intros Hv. destruct (I3 v Hv) as (s & Hs & Hw). exists s, (level_of lev v). auto.
    + intros (s & d & Hs & Hw). apply (Hwalk s v d Hs Hw).
  - intros v d [(s & Hs & Hw) Hmin].
    destruct (Hwalk s v d Hs Hw) as [Hv Hle].
    destruct (I3 v Hv) as (s' & Hs' & Hw').
    pose proof (Hmin s' _ Hs' Hw') as Hge.
    rewrite (Hlev v Hv). f_equal. lia.
  - intros v Hv. exists (level_of lev v). split; [|apply Hlev, Hv].
    split; [destruct (I3 v Hv) as (s & Hs & Hw); exists s; auto|].
    intros s d' Hs Hw. apply (Hwalk s v d' Hs Hw).
Qed.

(** The invariant holds at the start, with the seeds queued and marked. *)
Lemma bfs_inv_initial vis :
  length vis = n ->
  (forall v, is_visited vis v <-> v ∈ seeds) ->
  bfs_inv edges n seeds seeds vis (replicate n O).
Proof.
  intros Hlv Hseeds.
  assert (H0 : forall v, level_of (replicate n O) v = O).
  { intros v. unfold level_of. destruct (replicate n O !! v) eqn:E; [|reflexivity].
    apply lookup_replicate in E as [-> _]. reflexivity. }
  split; [split; [exact Hlv | apply length_replicate]|].
  split; [intros v Hv; apply Hseeds, Hv|].
  split.
  { intros v Hv. exists v. split; [apply Hseeds, Hv|]. rewrite H0. constructor. }
  split; [intros; rewrite !H0; lia|].
  split; [intros; rewrite !H0; lia|].
  split; [intros v Hv Hnq; exfalso; apply Hnq, Hseeds, Hv|].
  intros s Hs. split; [apply Hseeds, Hs | apply H0].
Qed.

End Levels.

(** *** Seeding *)

Lemma mark_all_length l : forall vis, length (mark_all vis l) = length vis.
Proof.
  unfold mark_all. induction l as [|s l IH]; intros vis; cbn [fold_left]; [reflexivity|].
  rewrite IH. apply length_insert.
Qed.

Lemma mark_all_visited l : forall vis v,
  (forall s, s ∈ l -> (s < length vis)%nat) ->
  is_visited (mark_all vis l) v <-> is_visited vis v \/ v ∈ l.
Proof.
  unfold mark_all. induction l as [|s l IH]; intros vis v Hl; cbn [fold_left].
  - split; [auto | intros [H|H]; [exact H | inversion H]].
  - rewrite IH by (intros x Hx; rewrite length_insert; apply Hl; right; exact Hx).
    assert (Hs : (s < length vis)%nat) by (apply Hl; left).
    unfold is_visited. rewrite elem_of_cons.
    destruct (decide (v = s)) as [->|Hne].
    + rewrite list_lookup_insert_eq by exact Hs. split; auto.
    + rewrite list_lookup_insert_ne by auto. split; intros [H|H]; auto.
      destruct H as [H|H]; [congruence | auto].
Qed.

Lemma mark_all_app vis l1 l2 : mark_all vis (l1 ++ l2) = mark_all (mark_all vis l1) l2.
Proof. unfold mark_all. apply fold_left_app. Qed.

Lemma seed_fold l : forall q vis,
  fold_left (fun '(queue, visited) bv => (queue ++ [bv], <[bv := true]> visited))
    l (q, vis)
  = (q ++ l, mark_all vis l).
Proof.
  induction l as [|s l IH]; intros q vis; cbn [fold_left].
  - rewrite app_nil_r. reflexivity.
  - rewrite IH, <- app_assoc. reflexivity.
Qed.

Lemma boundary_seed_state (m : Mesh) (vertex : Z) K :
  for_range K (boundary_seed m vertex) ([], replicate (totvert m) false)
  = (concat (map (fun symm_it =>
                    if is_symmetry_iteration_valid m symm_it (symm m)
                    then boundary_vertices m (symmetry_origin m vertex symm_it)
                    else [])
               (seq 0 K)),
     mark_all (replicate (totvert m) false)
       (concat (map (fun symm_it =>
                       if is_symmetry_iteration_valid m symm_it (symm m)
                       then boundary_vertices m (symmetry_origin m vertex symm_it)
                       else [])
                  (seq 0 K)))).
Proof.
  induction K as [|K IH]; [reflexivity|].
  rewrite for_range_S, IH, seq_S, map_app, concat_app. cbn [map concat].
  rewrite app_nil_r. unfold boundary_seed at 1. change (0 + K)%nat with K.
  destruct (is_symmetry_iteration_valid m K (symm m)); cbn [negb].
  - rewrite seed_fold, mark_all_app. reflexivity.
  - rewrite app_nil_r. reflexivity.
Qed.

(** The last loop of the boundary falloff. *)
Lemma unreached_loop (vis : list bool) n (l : list F32.float) :
  let r := for_range n
             (fun i d => if default false (vis !! i) then d
                         else <[i := F32.FLT_MAX]> d) l in
  length r = length l
  /\ (forall j, (j < n)%nat -> (j < length l)%nat ->
        r !! j = if default false (vis !! j) then l !! j else Some F32.FLT_MAX)
  /\ (forall j, (n <= j)%nat -> r !! j = l !! j).
Proof.
  induction n as [|n (IHl & IHlt & IHge)]; cbn zeta.
  - split; [reflexivity|]. split; [intros; lia | intros; reflexivity].
  - rewrite for_range_S.
    destruct (default false (vis !! n)) eqn:E.
    + split; [exact IHl|]. split.
      * intros j Hj Hlen. destruct (decide (j = n)) as [->|].
        -- rewrite E. apply IHge. lia.
        -- apply IHlt; lia.
      * intros j Hj. apply IHge. lia.
    + split; [rewrite length_insert; exact IHl|]. split.
      * intros j Hj Hlen. destruct (decide (j = n)) as [->|].
        -- rewrite E. apply list_lookup_insert_eq. lia.
        -- rewrite list_lookup_insert_ne by auto. apply IHlt; lia.
      * intros j Hj. rewrite list_lookup_insert_ne by lia. apply IHge. lia.
Qed.

(** The boundary traversal is the common traversal on the plain edges. *)
Lemma boundary_bfs_neighbors v l : forall st,
  fold_left (boundary_bfs_neighbor v) l st
  = fold_left (bfs_edge F32.zero (fun f => F32.add f F32.one) v)
      (map (fun ni => (ni, false)) l) st.
Proof.
  induction l as [|ni l IH]; intros [[q vis] d]; cbn [fold_left map]; [reflexivity|].
  rewrite <- IH. reflexivity.
Qed.

Lemma boundary_bfs_loop_core (m : Mesh) fuel : forall st,
  boundary_bfs_loop m fuel st
  = bfs_loop F32.zero (fun f => F32.add f F32.one) (plain_edges m) fuel st.
Proof.
  induction fuel as [|fuel IH]; intros [[q vis] d]; [reflexivity|].
  cbn [boundary_bfs_loop bfs_loop]. destruct q as [|v q]; [reflexivity|].
  rewrite IH, boundary_bfs_neighbors. reflexivity.
Qed.

Lemma hops_replicate n : replicate n F32.zero = hops <$> replicate n O.
Proof. rewrite fmap_replicate. reflexivity. Qed.

(** The traversal in floats, from seeds that are queued and marked, on
    edges none of which is a duplicate. *)
Lemma bfs_float_result (edges : nat -> list (nat * bool)) (n : nat) (seeds : list nat) :
  edges_in_range n edges ->
  (forall v t dup, (t, dup) ∈ edges v -> dup = false) ->
  (forall s, s ∈ seeds -> (s < n)%nat) ->
  let vis0 := mark_all (replicate n false) seeds in
  exists vis' lev',
    bfs_loop F32.zero (fun f => F32.add f F32.one) edges
      (length seeds + unvisited vis0) (seeds, vis0, replicate n F32.zero)
    = ([], vis', hops <$> lev')
    /\ length vis' = n /\ length lev' = n
    /\ (forall v, is_visited vis' v <-> reachable edges seeds v)
    /\ (forall v, is_visited vis' v ->
          exists d, at_distance edges seeds v d /\ lev' !! v = Some d).
Proof.
  intros Hrange Hplain Hseeds vis0.
  assert (Hlen0 : length vis0 = n)
    by (unfold vis0; rewrite mark_all_length; apply length_replicate).
  assert (Hvis0 : forall v, is_visited vis0 v <-> v ∈ seeds).
  { intros v. unfold vis0. rewrite mark_all_visited.
    - split; [intros [H|H]; [|exact H] | auto].
      unfold is_visited in H. apply lookup_replicate in H as [H _]. discriminate.
    - intros s Hs. rewrite length_replicate. apply Hseeds, Hs. }
  pose proof (bfs_inv_initial edges n seeds vis0 Hlen0 Hvis0) as Hinv.
  destruct (bfs_loop_inv edges n seeds Hrange Hplain
              (length seeds + unvisited vis0) seeds vis0 (replicate n O) Hinv)
    as (q' & vis' & lev' & Heq & Hinv').
  pose proof (bfs_loop_complete O S edges (length seeds + unvisited vis0)
                (seeds, vis0, replicate n O) ltac:(cbn [fst snd]; lia)) as Hq.
  rewrite Heq in Hq. cbn [fst] in Hq. subst q'.
  exists vis', lev'.
  pose proof (bfs_loop_map O S F32.zero (fun f => F32.add f F32.one) hops
                eq_refl (fun d => eq_refl) edges
                (length seeds + unvisited vis0) (seeds, vis0, replicate n O)) as Hmap.
  cbn [fst snd] in Hmap. rewrite Heq in Hmap. cbn [fst snd] in Hmap.
  rewrite <- hops_replicate in Hmap.
  split; [exact Hmap|].
  destruct Hinv' as ((Hlv & Hll) & _).
  split; [exact Hlv|]. split; [exact Hll|].
  destruct (bfs_inv_final edges n seeds Hplain vis' lev') as (H1 & _ & H3).
  { pose proof (bfs_loop_inv edges n seeds Hrange Hplain
                  (length seeds + unvisited vis0) seeds vis0 (replicate n O) Hinv)
      as (q2 & vis2 & lev2 & Heq2 & Hinv2).
    rewrite Heq in Heq2. injection Heq2 as <- <- <-. exact Hinv2. }
  split; [exact H1 | exact H3].
Qed.

(** C6.  When the valid symmetry iterations yield no boundary vertex, the
    boundary topology falloff is 0 everywhere.  Otherwise every vertex
    reachable from the boundary vertices gets its hop count from that seed
    set (the least number of edges of a walk from a seed, counted in
    floats), and every other vertex gets the sentinel of the unreached
    vertices, [FLT_MAX], which the specification writes +infinity.  The
    mesh is taken to hand out vertex indices below the vertex count. *)
Theorem boundary_topology_falloff (m : Mesh) (vertex : Z) :
  edges_in_range (totvert m) (plain_edges m) ->
  (forall s, s ∈ boundary_seeds m vertex -> (s < totvert m)%nat) ->
  let seeds := boundary_seeds m vertex in
  let r := sculpt_expand_boundary_topology_falloff_create m vertex in
  (seeds = [] -> r = replicate (totvert m) F32.zero)
  /\ (seeds <> [] ->
      forall v, (v < totvert m)%nat ->
        (reachable (plain_edges m) seeds v ->
           exists d, at_distance (plain_edges m) seeds v d /\ r !! v = Some (hops d))
        /\ (~ reachable (plain_edges m) seeds v -> r !! v = Some F32.FLT_MAX)).
Proof.
  intros Hrange Hseeds seeds r.
  assert (Hplain : forall v t dup, (t, dup) ∈ plain_edges m v -> dup = false).
  { intros v t dup Ht. unfold plain_edges in Ht.
    apply list_elem_of_fmap in Ht as (ni & Heq & _). congruence. }
  unfold r, sculpt_expand_boundary_topology_falloff_create.
  rewrite boundary_seed_state. fold (boundary_seeds m vertex). fold seeds.
  split.
  - intros ->. reflexivity.
  - intros Hne v Hv.
    destruct seeds as [|s0 rest] eqn:Eseeds; [congruence|]. rewrite <- Eseeds in *.
    rewrite boundary_bfs_loop_core.
    destruct (bfs_float_result (plain_edges m) (totvert m) seeds Hrange Hplain Hseeds)
      as (vis' & lev' & Heq & Hlv & Hll & Hreach & Hdist).
    cbn zeta in Heq. rewrite Heq.
    destruct (unreached_loop vis' (totvert m) (hops <$> lev')) as (_ & Hget & _).
    cbn zeta in Hget. rewrite Hget by (rewrite ?length_fmap; lia).
    assert (Hlt : (v < length vis')%nat) by lia.
    destruct (lookup_lt_is_Some_2 vis' v Hlt) as [b Hb]. rewrite Hb. cbn [default].
    split.
    + intros Hr. apply Hreach in Hr. destruct (Hdist v Hr) as (d & Hd & Hl).
      exists d. split; [exact Hd|].
      unfold is_visited in Hr. rewrite Hb in Hr. injection Hr as ->.
      rewrite list_lookup_fmap, Hl. reflexivity.
    + intros Hnr. destruct b; [|reflexivity].
      exfalso. apply Hnr, Hreach. exact Hb.
Qed.

Example boundary_topology_edge_mesh :
  sculpt_expand_boundary_topology_falloff_create edge_mesh 0 = [F32.zero; F32.one].
Proof. vm_compute. reflexivity. Qed.

Lemma edge_mesh_in_range : edges_in_range 2 (plain_edges edge_mesh).
Proof.
  intros v t dup Ht. unfold plain_edges in Ht.
  apply list_elem_of_fmap in Ht as (ni & Heq & Hni). injection Heq as -> _.
  destruct v as [|[|v]]; cbn in Hni.
  - apply list_elem_of_singleton in Hni as ->. lia.
  - apply list_elem_of_singleton in Hni as ->. lia.
  - inversion Hni.
Qed.

Lemma boundary_topology_falloff_witness :
  let seeds := boundary_seeds edge_mesh 0 in
  let r := sculpt_expand_boundary_topology_falloff_create edge_mesh 0 in
  (seeds = [] -> r = replicate (totvert edge_mesh) F32.zero)
  /\ (seeds <> [] ->
      forall v, (v < totvert edge_mesh)%nat ->
        (reachable (plain_edges edge_mesh) seeds v ->
           exists d, at_distance (plain_edges edge_mesh) seeds v d
                     /\ r !! v = Some (hops d))
        /\ (~ reachable (plain_edges edge_mesh) seeds v -> r !! v = Some F32.FLT_MAX)).
Proof.
  apply (boundary_topology_falloff edge_mesh 0).
  - exact edge_mesh_in_range.
  - intros s Hs. change (boundary_seeds edge_mesh 0) with [O] in Hs.
    apply list_elem_of_singleton in Hs as ->. cbn. lia.
Defined.

(** *** The topological falloff *)

Lemma symmetry_seed_state (m : Mesh) (vertex : Z) K :
  for_range K
    (fun i flood =>
       if is_symmetry_iteration_valid m i (symm m) then
         let v := symmetry_origin m vertex i in
         if v =? -1 then flood else SCULPT_floodfill_add_initial flood (Z.to_nat v)
       else flood)
    (SCULPT_floodfill_init m)
  = let seeds :=
      omap (fun symm_it =>
              if is_symmetry_iteration_valid m symm_it (symm m) then
                let v := symmetry_origin m vertex symm_it in
                if v =? -1 then None else Some (Z.to_nat v)
              else None)
           (seq 0 K) in
    mkFloodFill seeds (mark_all (replicate (totvert m) false) seeds).
Proof.
  induction K as [|K IH]; [reflexivity|].
  rewrite for_range_S, IH, seq_S, omap_app. cbn zeta. cbn [omap list_omap].
  change (0 + K)%nat with K.
  destruct (is_symmetry_iteration_valid m K (symm m)).
  - destruct (symmetry_origin m vertex K =? -1).
    + rewrite app_nil_r. reflexivity.
    + unfold SCULPT_floodfill_add_initial. cbn [queue visited_vertices].
      rewrite mark_all_app. reflexivity.
  - rewrite app_nil_r. reflexivity.
Qed.

(** The flood fill with the topological visitor is the common traversal on
    the edges with duplicates; the visitor touches [dists] only. *)
Lemma topology_floodfill_edge from_v st e :
  flood_state (floodfill_edge mask_expand_topology_floodfill_cb from_v st e)
  = bfs_edge F32.zero (fun f => F32.add f F32.one) from_v (flood_state st) e.
Proof.
  destruct st as [[q vis] data], e as [to_v dup].
  unfold floodfill_edge, bfs_edge, flood_state. cbn [fst snd queue visited_vertices].
  destruct (vis !! to_v) as [[|]|]; try reflexivity.
  unfold mask_expand_topology_floodfill_cb. destruct dup; reflexivity.
Qed.

Lemma topology_floodfill_edges from_v es : forall st,
  flood_state (fold_left (floodfill_edge mask_expand_topology_floodfill_cb from_v) es st)
  = fold_left (bfs_edge F32.zero (fun f => F32.add f F32.one) from_v) es
      (flood_state st).
Proof.
  induction es as [|e es IH]; intros st; cbn [fold_left]; [reflexivity|].
  rewrite IH, topology_floodfill_edge. reflexivity.
Qed.

Lemma topology_floodfill_loop (m : Mesh) fuel : forall st,
  flood_state (floodfill_loop m mask_expand_topology_floodfill_cb fuel st)
  = bfs_loop F32.zero (fun f => F32.add f F32.one) (neighbors_dup m) fuel
      (flood_state st).
Proof.
  induction fuel as [|fuel IH]; intros [[q vis] data]; [reflexivity|].
  cbn [floodfill_loop fst snd queue visited_vertices].
  destruct q as [|from_v q]; [reflexivity|].
  rewrite IH, topology_floodfill_edges. reflexivity.
Qed.

Lemma topology_falloff_core (m : Mesh) (vertex : Z) :
  let seeds := symmetry_origins m vertex in
  let vis0 := mark_all (replicate (totvert m) false) seeds in
  sculpt_expand_topology_falloff_create m vertex
  = snd (bfs_loop F32.zero (fun f => F32.add f F32.one) (neighbors_dup m)
           (length seeds + unvisited vis0) (seeds, vis0, replicate (totvert m) F32.zero)).
Proof.
  cbn zeta. unfold sculpt_expand_topology_falloff_create,
    SCULPT_floodfill_add_initial_with_symmetry, SCULPT_floodfill_execute.
  rewrite symmetry_seed_state. cbn zeta. fold (symmetry_origins m vertex).
  cbn [queue visited_vertices].
  match goal with |- context [floodfill_loop m ?cb ?fuel ?st] =>
    pose proof (topology_floodfill_loop m fuel st) as Hloop;
    destruct (floodfill_loop m cb fuel st) as [flood' data']
  end.
  unfold flood_state in Hloop. cbn [fst snd queue visited_vertices dists] in Hloop.
  rewrite <- Hloop. reflexivity.
Qed.

(** C3, as amended.  With the flood fill of the specification (origins
    queued and marked at distance 0, every vertex handed to the visitor when
    it is first reached), on a mesh whose neighbour iteration reports no
    duplicate and hands out vertex indices below the vertex count, the
    topological falloff gives every vertex reachable from the origin set
    exactly its hop count: the least number of edges of a walk from an
    origin, counted in floats. *)
Theorem topological_hop_count (m : Mesh) (vertex : Z) (v : nat) :
  edges_in_range (totvert m) (neighbors_dup m) ->
  (forall u t dup, (t, dup) ∈ neighbors_dup m u -> dup = false) ->
  (forall s, s ∈ symmetry_origins m vertex -> (s < totvert m)%nat) ->
  reachable (neighbors_dup m) (symmetry_origins m vertex) v ->
  exists d,
    at_distance (neighbors_dup m) (symmetry_origins m vertex) v d
    /\ sculpt_expand_topology_falloff_create m vertex !! v = Some (hops d).
Proof.
  intros Hrange Hplain Hseeds Hreach.
  rewrite topology_falloff_core. cbn zeta.
  destruct (bfs_float_result (neighbors_dup m) (totvert m) (symmetry_origins m vertex)
              Hrange Hplain Hseeds) as (vis' & lev' & Heq & _ & _ & Hvis & Hdist).
  cbn zeta in Heq. rewrite Heq. cbn [snd].
  apply Hvis in Hreach. destruct (Hdist v Hreach) as (d & Hd & Hl).
  exists d. split; [exact Hd|]. rewrite list_lookup_fmap, Hl. reflexivity.
Qed.

Example topology_edge_mesh :
  sculpt_expand_topology_falloff_create edge_mesh 0 = [F32.zero; F32.one].
Proof. vm_compute. reflexivity. Qed.

Lemma topological_hop_count_witness :
  exists d,
    at_distance (neighbors_dup edge_mesh) (symmetry_origins edge_mesh 0) 1 d
    /\ sculpt_expand_topology_falloff_create edge_mesh 0 !! 1%nat = Some (hops d).
Proof.
  apply (topological_hop_count edge_mesh 0 1).
  - intros u t dup Ht. destruct u as [|[|u]]; cbn in Ht.
    + apply list_elem_of_singleton in Ht. injection Ht as -> _. cbn. lia.
    + apply list_elem_of_singleton in Ht. injection Ht as -> _. cbn. lia.
    + inversion Ht.
  - intros u t dup Ht. destruct u as [|[|u]]; cbn in Ht.
    + apply list_elem_of_singleton in Ht. congruence.
    + apply list_elem_of_singleton in Ht. congruence.
    + inversion Ht.
  - intros s Hs. change (symmetry_origins edge_mesh 0) with [O] in Hs.
    apply list_elem_of_singleton in Hs as ->. cbn. lia.
  - exists O, 1%nat. split; [left|].
    apply (walk_step (neighbors_dup edge_mesh) O O 1 false O);
      [constructor | left].
Defined.

(** On the 5 by 5 grid, from the corner, every vertex holds the sum of its
    row and its column. *)
Example topology_grid_mesh :
  sculpt_expand_topology_falloff_create grid_mesh 0
  = map (fun v => F32.of_int (Z.of_nat (v / 5 + v mod 5))) (seq 0 25).
Proof. vm_compute. reflexivity. Qed.

(** C3, as stated, fails on a seam: vertex 3 of [seam_mesh] is one hop away
    from the origin 0 through the duplicate 2, but it is first reached
    through vertex 1 and holds 2.0. *)
Lemma topological_seam_overcount : ~ topological_exact seam_mesh 0.
Proof.
  intros H.
  assert (Hd : at_distance (neighbors_dup seam_mesh) (symmetry_origins seam_mesh 0) 3 1).
  { split.
    - exists O. split; [left|].
      apply (walk_step (neighbors_dup seam_mesh) O 2 3 false O); [|left].
      apply (walk_step (neighbors_dup seam_mesh) O O 2 true O); [constructor|].
      right. left.
    - intros s d' Hs Hw. change (symmetry_origins seam_mesh 0) with [O] in Hs.
      apply list_elem_of_singleton in Hs as ->.
      inversion Hw as [Heq | u t dup w Hw' Hin]; subst.
      assert (dup = false) as ->; [|lia].
      destruct u as [|[|[|[|u]]]]; cbn in Hin;
        repeat (apply elem_of_cons in Hin as [Hin|Hin]; [congruence|]);
        inversion Hin. }
  specialize (H 3%nat 1%nat Hd). vm_compute in H. discriminate.
Qed.

Example topology_seam_mesh :
  sculpt_expand_topology_falloff_create seam_mesh 0
  = [F32.zero; F32.one; F32.zero; F32.add F32.one F32.one].
Proof. vm_compute. reflexivity. Qed.

(** *** The normal falloff *)

Lemma add_zero_huge a : huge a -> F32.add F32.zero a = a.
Proof.
  intros [->|H]; [vm_compute; reflexivity|].
  destruct a as [| [] | |]; try contradiction; reflexivity.
Qed.

Lemma add_huge_huge a b : huge a -> huge b -> inf_or_nan (F32.add a b).
Proof.
  intros [->|Ha] [->|Hb].
  - vm_compute. exact I.
  - destruct b as [| [] | |]; try contradiction; exact I.
  - destruct a as [| [] | |]; try contradiction; exact I.
  - destruct a as [| [] | |]; try contradiction;
      destruct b as [| [] | |]; try contradiction; exact I.
Qed.

Lemma div_inf_or_nan a x : inf_or_nan a -> inf_or_nan (F32.div a x).
Proof.
  intros Ha. destruct a as [| [] | |]; try contradiction;
    destruct x as [[]|[]| |[] ? ?]; exact I.
Qed.

Lemma div_huge_one a : huge a -> F32.div a (F32.of_int 1) = a.
Proof.
  intros [->|H]; [vm_compute; reflexivity|].
  destruct a as [| [] | |]; try contradiction; reflexivity.
Qed.

Lemma huge_not_in_unit_interval a : huge a -> in_unit_interval a = false.
Proof.
  intros [->|H]; [vm_compute; reflexivity|].
  destruct a as [| [] | |]; try contradiction; reflexivity.
Qed.

(** The sum over the neighbours of huge values. *)
Lemma sum_from_inf_or_nan (d : list F32.float) l : forall acc,
  inf_or_nan acc -> (forall ni, ni ∈ l -> huge (aget d ni)) ->
  inf_or_nan (fold_left (fun avg ni => F32.add avg (aget d ni)) l acc).
Proof.
  induction l as [|ni l IH]; intros acc Hacc Hl; cbn [fold_left]; [exact Hacc|].
  apply IH; [|intros x Hx; apply Hl; right; exact Hx].
  apply add_huge_huge; [right; exact Hacc | apply Hl; left].
Qed.

(** One smoothing step on an array of huge values writes a huge value. *)
Lemma smooth_vertex_huge (m : Mesh) i (d : list F32.float) :
  (forall ni, ni ∈ neighbors m i -> (ni < length d)%nat) ->
  Forall huge d -> Forall huge (smooth_vertex m i d).
Proof.
  intros Hrange Hd. unfold smooth_vertex. apply Forall_insert; [exact Hd|].
  assert (Hnb : forall ni, ni ∈ neighbors m i -> huge (aget d ni)).
  { intros ni Hni. destruct (lookup_lt_is_Some_2 d ni (Hrange ni Hni)) as [a Ha].
    unfold aget. rewrite Ha. cbn. eapply Forall_lookup_1; eassumption. }
  destruct (neighbors m i) as [|n1 [|n2 l]].
  - right. vm_compute. exact I.
  - cbn [fold_left length]. rewrite add_zero_huge by (apply Hnb; left).
    rewrite div_huge_one by (apply Hnb; left). apply Hnb. left.
  - right. apply div_inf_or_nan. cbn [fold_left].
    apply sum_from_inf_or_nan; [|intros x Hx; apply Hnb; right; right; exact Hx].
    rewrite add_zero_huge by (apply Hnb; left).
    apply add_huge_huge; [apply Hnb; left | apply Hnb; right; left].
Qed.

Lemma smooth_pass_huge (m : Mesh) k : forall d,
  (forall i ni, ni ∈ neighbors m i -> (ni < length d)%nat) ->
  Forall huge d ->
  Forall huge (for_range k (smooth_vertex m) d)
  /\ length (for_range k (smooth_vertex m) d) = length d.
Proof.
  induction k as [|k IH]; intros d Hrange Hd; [split; [exact Hd | reflexivity]|].
  rewrite for_range_S. destruct (IH d Hrange Hd) as [Hh Hl]. split.
  - apply smooth_vertex_huge; [|exact Hh].
    intros ni Hni. rewrite Hl. eapply Hrange, Hni.
  - unfold smooth_vertex. rewrite length_insert. exact Hl.
Qed.

Lemma reset_loop n (l : list F32.float) :
  length l = n ->
  for_range n (fun i d => <[i := F32.FLT_MAX]> d) l = replicate n F32.FLT_MAX.
Proof.
  intros Hlen.
  destruct (for_range_entries (fun _ _ => F32.FLT_MAX) n l) as (Hl & Hget & _).
  cbn zeta in Hl, Hget.
  apply list_eq. intros j. destruct (decide (j < n)%nat) as [Hj|Hj].
  - rewrite Hget by lia. symmetry. apply lookup_replicate_2. exact Hj.
  - rewrite (lookup_ge_None_2 _ j) by lia.
    symmetry. apply lookup_ge_None_2. rewrite length_replicate. lia.
Qed.

(** Whatever the flood fill has computed, the tail of the builder starts
    again from [FLT_MAX] everywhere. *)
Lemma reset_and_smooth_forgets (m : Mesh) (l : list F32.float) :
  length l = totvert m ->
  reset_and_smooth m l = reset_and_smooth m (replicate (totvert m) F32.zero).
Proof.
  intros Hlen. unfold reset_and_smooth.
  rewrite !reset_loop by (rewrite ?length_replicate; auto). reflexivity.
Qed.

Lemma reset_and_smooth_huge (m : Mesh) (l : list F32.float) :
  length l = totvert m ->
  edges_in_range (totvert m) (plain_edges m) ->
  Forall huge (reset_and_smooth m l) /\ length (reset_and_smooth m l) = totvert m.
Proof.
  intros Hlen Hrange. unfold reset_and_smooth. rewrite reset_loop by exact Hlen.
  assert (Hnb : forall d : list F32.float, length d = totvert m ->
                  forall i ni, ni ∈ neighbors m i -> (ni < length d)%nat).
  { intros d Hd i ni Hni. rewrite Hd. apply (Hrange i ni false).
    unfold plain_edges. apply list_elem_of_fmap. exists ni. auto. }
  rewrite !for_range_S. cbn [for_range seq fold_left].
  destruct (smooth_pass_huge m (totvert m) (replicate (totvert m) F32.FLT_MAX))
    as [Hh1 Hl1].
  { apply Hnb, length_replicate. }
  { apply Forall_replicate. left. reflexivity. }
  rewrite length_replicate in Hl1.
  destruct (smooth_pass_huge m (totvert m)
              (for_range (totvert m) (smooth_vertex m)
                 (replicate (totvert m) F32.FLT_MAX))) as [Hh2 Hl2].
  { apply Hnb, Hl1. }
  { exact Hh1. }
  split; [exact Hh2 | congruence].
Qed.

Lemma normal_floodfill_edge_length (m : Mesh) from_v st e :
  length (dists (snd (floodfill_edge (mask_expand_normal_floodfill_cb m) from_v st e)))
  = length (dists (snd st)).
Proof.
  destruct st as [[q vis] data], e as [to_v dup]. unfold floodfill_edge.
  cbn [fst snd queue visited_vertices].
  destruct (vis !! to_v) as [[|]|]; try reflexivity.
  unfold mask_expand_normal_floodfill_cb.
  destruct dup; cbn [negb snd dists]; apply length_insert.
Qed.

Lemma normal_floodfill_edges_length (m : Mesh) from_v es : forall st,
  length (dists (snd (fold_left (floodfill_edge (mask_expand_normal_floodfill_cb m) from_v)
                        es st)))
  = length (dists (snd st)).
Proof.
  induction es as [|e es IH]; intros st; cbn [fold_left]; [reflexivity|].
  rewrite IH. apply normal_floodfill_edge_length.
Qed.

Lemma normal_floodfill_loop_length (m : Mesh) fuel : forall st,
  length (dists (snd (floodfill_loop m (mask_expand_normal_floodfill_cb m) fuel st)))
  = length (dists (snd st)).
Proof.
  induction fuel as [|fuel IH]; intros st; [reflexivity|].
  cbn [floodfill_loop]. destruct (queue (fst st)) as [|from_v q]; [reflexivity|].
  rewrite IH, normal_floodfill_edges_length. reflexivity.
Qed.

(** The result of the builder does not depend on the origin, on the
    normals or on the sensitivity. *)
Lemma normal_falloff_forgets (m : Mesh) (vertex : Z) (edge_sensitivity : F32.float) :
  sculpt_expand_normal_falloff_create m vertex edge_sensitivity
  = reset_and_smooth m (replicate (totvert m) F32.zero).
Proof.
  unfold sculpt_expand_normal_falloff_create, SCULPT_floodfill_execute.
  match goal with |- context [floodfill_loop m ?cb ?fuel ?st] =>
    pose proof (normal_floodfill_loop_length m fuel st) as Hlen;
    destruct (floodfill_loop m cb fuel st) as [flood' data']
  end.
  cbn [snd dists] in Hlen. rewrite length_replicate in Hlen.
  apply reset_and_smooth_forgets. exact Hlen.
Qed.

(** C5 fails on the code.  On every mesh that hands out vertex indices
    below the vertex count, for every origin and every sensitivity, each
    value of the normal falloff is [FLT_MAX], an infinity or a NaN, and so
    lies outside [0, 1]: the values clamped to [0, 1] by the visitor are
    overwritten with [FLT_MAX] before the two smoothing rounds. *)
Theorem normal_falloff_never_in_unit_interval (m : Mesh) (vertex : Z)
        (edge_sensitivity : F32.float) (i : nat) :
  edges_in_range (totvert m) (plain_edges m) ->
  (i < totvert m)%nat ->
  exists a,
    sculpt_expand_normal_falloff_create m vertex edge_sensitivity !! i = Some a
    /\ huge a /\ in_unit_interval a = false.
Proof.
  intros Hrange Hi. rewrite normal_falloff_forgets.
  destruct (reset_and_smooth_huge m (replicate (totvert m) F32.zero)) as [Hh Hl];
    [apply length_replicate | exact Hrange |].
  destruct (lookup_lt_is_Some_2 (reset_and_smooth m (replicate (totvert m) F32.zero)) i)
    as [a Ha]; [lia|].
  exists a. split; [exact Ha|].
  assert (huge a) by (eapply Forall_lookup_1; eassumption).
  split; [assumption | apply huge_not_in_unit_interval; assumption].
Qed.

Example normal_falloff_edge_mesh :
  sculpt_expand_normal_falloff_create edge_mesh 0 (F32.of_int 300)
  = [F32.FLT_MAX; F32.FLT_MAX].
Proof. vm_compute. reflexivity. Qed.

Example normal_falloff_triangle_mesh :
  sculpt_expand_normal_falloff_create triangle_mesh 0 (F32.of_int 300)
  = [F32.infinity; F32.infinity; F32.infinity].
Proof. vm_compute. reflexivity. Qed.

Lemma normal_falloff_never_in_unit_interval_witness :
  exists a,
    sculpt_expand_normal_falloff_create edge_mesh 0 (F32.of_int 300) !! 1%nat = Some a
    /\ huge a /\ in_unit_interval a = false.
Proof.
  apply (normal_falloff_never_in_unit_interval edge_mesh 0 (F32.of_int 300) 1).
  - exact edge_mesh_in_range.
  - cbn. lia.
Defined.

(** *** Erasing a face set id *)

(** A pass over faces none of which has a neighbour with another id moves
    them all to [queue_next] and changes no face set. *)
Lemma delete_pass_stuck (mesh : PolyMesh) (delete_id : Z) (face_sets : list Z) queue :
  forall queue_next,
  (forall f, f ∈ queue ->
     f <> O /\ face_other_id mesh face_sets delete_id f = delete_id) ->
  delete_face_set_pass mesh delete_id queue face_sets queue_next
  = ([], face_sets, rev queue ++ queue_next).
Proof.
  induction queue as [|f rest IH]; intros queue_next Hstuck; [reflexivity|].
  destruct (Hstuck f ltac:(left)) as [Hf Hother].
  cbn [delete_face_set_pass]. destruct f as [|f]; [congruence|].
  cbn [Nat.eqb]. rewrite Hother, Z.eqb_refl. cbn [negb].
  rewrite IH by (intros x Hx; apply Hstuck; right; exact Hx).
  cbn [rev]. rewrite <- app_assoc. reflexivity.
Qed.

Lemma delete_loop_stuck (mesh : PolyMesh) (delete_id : Z)
      (face_sets : list Z) (queue : list nat) (fuel : nat) :
  queue <> [] ->
  (forall f, f ∈ queue ->
     f <> O /\ face_other_id mesh face_sets delete_id f = delete_id) ->
  delete_face_set_loop fuel mesh delete_id queue face_sets [] = None.
Proof.
  revert queue. induction fuel as [|fuel IH]; intros queue Hne Hstuck.
  - destruct queue; [congruence | reflexivity].
  - destruct queue as [|f rest] eqn:E; [congruence|]. rewrite <- E in *.
    assert (Hloop : delete_face_set_loop (S fuel) mesh delete_id queue face_sets []
                    = let '(q, fs, qn) :=
                        delete_face_set_pass mesh delete_id queue face_sets [] in
                      delete_face_set_loop fuel mesh delete_id qn fs q)
      by (rewrite E; reflexivity).
    rewrite Hloop, delete_pass_stuck by exact Hstuck. rewrite app_nil_r.
    apply IH.
    + rewrite E. cbn [rev]. intros Hrev. apply app_eq_nil in Hrev as [_ Hrev].
      discriminate.
    + intros x Hx. apply Hstuck. apply list_elem_of_In, in_rev, list_elem_of_In, Hx.
Qed.

(** C2 fails on the code.  When the queue is not empty and no queued face
    has a neighbour with another id (an isolated island of the id to
    delete), every pass hands the whole queue over to the next one: the
    outer loop has no test for a pass without progress and never ends,
    whatever the fuel. *)
Theorem delete_face_set_id_island_diverges (mesh : PolyMesh) (delete_id : Z)
        (face_sets : list Z) (queue : list nat) :
  queue <> [] ->
  (forall f, f ∈ queue ->
     f <> O /\ face_other_id mesh face_sets delete_id f = delete_id) ->
  forall fuel, delete_face_set_loop fuel mesh delete_id queue face_sets [] = None.
Proof. intros Hne Hstuck fuel. apply delete_loop_stuck; assumption. Qed.

Lemma delete_face_set_id_island_diverges_witness :
  sculpt_expand_delete_face_set_id 1000 island_mesh island_face_sets 2 1 = None.
Proof.
  change (sculpt_expand_delete_face_set_id 1000 island_mesh island_face_sets 2 1)
    with (delete_face_set_loop 1000 island_mesh 1 [1%nat] island_face_sets []).
  apply delete_face_set_id_island_diverges; [discriminate|].
  intros f Hf. apply list_elem_of_singleton in Hf as ->.
  split; [discriminate | reflexivity].
Defined.

(** On the two separate triangles the erasure of id 1 never returns. *)
Lemma island_never_ends fuel :
  sculpt_expand_delete_face_set_id fuel island_mesh island_face_sets 2 1 = None.
Proof.
  change (sculpt_expand_delete_face_set_id fuel island_mesh island_face_sets 2 1)
    with (delete_face_set_loop fuel island_mesh 1 [1%nat] island_face_sets []).
  apply delete_loop_stuck; [discriminate|].
  intros f Hf. apply list_elem_of_singleton in Hf as ->.
  split; [discriminate | reflexivity].
Qed.

(** *** The expand session *)

Example demo_invoke :
  exists ss1,
    sculpt_expand_invoke 0 demo_host demo_session demo_props demo_click = Some ss1
    /\ vmask ss1 = [F32.one; F32.zero]
    /\ (initial_mask <$> expand_cache ss1) = Some [F32.zero; F32.zero].
Proof. eexists. split; [vm_compute; reflexivity|]. split; reflexivity. Qed.

(** C1 fails on the code.  [sculpt_expand_cancel] frees the cache and
    writes nothing to the mesh: the mask, the face sets and the colors
    stay as the last update left them.  On the session [demo_session] the
    mask starts at 0 everywhere and is stored as such in the snapshot; after
    a pointer move to vertex 1, the invert key pressed twice, the cancel item
    of the keymap (which the modal switch ignores) and the cancel callback,
    the mask is 1 everywhere. *)
Theorem expand_cancel_does_not_restore :
  (forall ss, mesh_channels (sculpt_expand_cancel ss) = mesh_channels ss)
  /\ exists ss1,
      sculpt_expand_invoke 0 demo_host demo_session demo_props demo_click = Some ss1
      /\ (initial_mask <$> expand_cache ss1) = Some (vmask demo_session)
      /\ let events := [demo_move;
                        demo_key SCULPT_EXPAND_MODAL_INVERT;
                        demo_key SCULPT_EXPAND_MODAL_INVERT;
                        demo_move;
                        demo_key SCULPT_EXPAND_MODAL_CANCEL] in
         let ss2 := run_modal demo_host ss1 events in
         expand_cache ss2 <> None
         /\ vmask (sculpt_expand_cancel ss2) = [F32.one; F32.one]
         /\ vmask (sculpt_expand_cancel ss2) <> vmask demo_session.
Proof.
  split; [reflexivity|].
  eexists. split; [vm_compute; reflexivity|]. split; [reflexivity|].
  cbv zeta. split; [vm_compute; discriminate|].
  split; [vm_compute; reflexivity | vm_compute; discriminate].
Qed.

(** *** The maximum of the falloff *)

Lemma leb_refl_r (a x : F32.float) : F32.leb x a = true -> F32.leb a a = true.
Proof. float_order. Qed.

Lemma max_of_factors_spec (factors : list F32.float) n :
  (forall i, (i < n)%nat -> F32.leb (aget factors i) (aget factors i) = true) ->
  let r := max_of_factors n factors in
  F32.leb neg_FLT_MAX r = true
  /\ (forall i, (i < n)%nat -> F32.eqb (aget factors i) F32.FLT_MAX = false ->
        F32.leb (aget factors i) r = true)
  /\ (r = neg_FLT_MAX
      \/ exists i, (i < n)%nat /\ F32.eqb (aget factors i) F32.FLT_MAX = false
           /\ r = aget factors i).
Proof.
  unfold max_of_factors. induction n as [|n IH]; intros Hnum; cbn zeta.
  - cbn. split; [reflexivity|]. split; [intros i Hi; lia | auto].
  - rewrite for_range_S.
    destruct IH as (Hlow & Hup & Hatt); [intros i Hi; apply Hnum; lia|].
    set (r := for_range n _ neg_FLT_MAX) in *.
    destruct (F32.eqb (aget factors n) F32.FLT_MAX) eqn:Hskip.
    + split; [exact Hlow|]. split.
      * intros i Hi Hne. destruct (Nat.eq_dec i n) as [-> | Hin]; [congruence|].
        apply Hup; [lia | exact Hne].
      * destruct Hatt as [Hatt|(i & Hi & Hne & Hatt)]; [auto|].
        right. exists i. split; [lia | auto].
    + pose proof (Hnum n ltac:(lia)) as Hn.
      unfold F32.max_ff. destruct (F32.ltb (aget factors n) r) eqn:Hlt.
      * split; [exact Hlow|]. split.
        -- intros i Hi Hne. destruct (Nat.eq_dec i n) as [-> | Hin].
           ++ apply ltb_leb. exact Hlt.
           ++ apply Hup; [lia | exact Hne].
        -- destruct Hatt as [Hatt|(i & Hi & Hne & Hatt)]; [auto|].
           right. exists i. split; [lia | auto].
      * assert (Hra : F32.leb r (aget factors n) = true)
          by (apply (ltb_false_leb _ _ _ _ Hn (leb_refl_r _ _ Hlow) Hlt)).
        split; [apply (leb_trans _ _ _ Hlow Hra)|]. split.
        -- intros i Hi Hne. destruct (Nat.eq_dec i n) as [-> | Hin]; [exact Hn|].
           apply (leb_trans _ r); [apply Hup; [lia | exact Hne] | exact Hra].
        -- right. exists n. split; [lia | auto].
Qed.

(** X17.  [sculpt_expand_update_max_falloff_factor], on factors that
    are numbers: the maximum is at least every factor that is not [FLT_MAX],
    and it is one of these factors or [-FLT_MAX]. *)
Theorem max_falloff_factor_is_maximum (h : Host) (c : ExpandCache) :
  (forall i, (i < totvert (mesh h))%nat ->
     F32.leb (aget (falloff_factor c) i) (aget (falloff_factor c) i) = true) ->
  let mx := max_falloff_factor (sculpt_expand_update_max_falloff_factor h c) in
  (forall i, (i < totvert (mesh h))%nat ->
     F32.eqb (aget (falloff_factor c) i) F32.FLT_MAX = false ->
     F32.leb (aget (falloff_factor c) i) mx = true)
  /\ (mx = neg_FLT_MAX
      \/ exists i, (i < totvert (mesh h))%nat
           /\ F32.eqb (aget (falloff_factor c) i) F32.FLT_MAX = false
           /\ mx = aget (falloff_factor c) i).
Proof.
  intros Hnum. cbn.
  destruct (max_of_factors_spec (falloff_factor c) (totvert (mesh h)) Hnum)
    as (_ & Hup & Hatt).
  split; assumption.
Qed.

Lemma max_falloff_factor_is_maximum_witness :
  let mx := max_falloff_factor (sculpt_expand_update_max_falloff_factor demo_host
                                  demo_cache) in
  (forall i, (i < totvert (mesh demo_host))%nat ->
     F32.eqb (aget (falloff_factor demo_cache) i) F32.FLT_MAX = false ->
     F32.leb (aget (falloff_factor demo_cache) i) mx = true)
  /\ (mx = neg_FLT_MAX
      \/ exists i, (i < totvert (mesh demo_host))%nat
           /\ F32.eqb (aget (falloff_factor demo_cache) i) F32.FLT_MAX = false
           /\ mx = aget (falloff_factor demo_cache) i).
Proof.
  apply (max_falloff_factor_is_maximum demo_host demo_cache).
  intros i Hi. destruct i as [|[|i]]; [reflexivity | reflexivity | simpl in Hi; lia].
Defined.

(** X18.  When every factor is [FLT_MAX] (or there is no vertex),
    [sculpt_expand_update_max_falloff_factor] leaves the maximum at
    [-FLT_MAX]. *)
Theorem max_falloff_factor_sentinel (h : Host) (c : ExpandCache) :
  (forall i, (i < totvert (mesh h))%nat ->
     F32.eqb (aget (falloff_factor c) i) F32.FLT_MAX = true) ->
  max_falloff_factor (sculpt_expand_update_max_falloff_factor h c) = neg_FLT_MAX.
Proof.
  intros Hall. cbn. unfold max_of_factors.
  induction (totvert (mesh h)) as [|n IH]; [reflexivity|].
  rewrite for_range_S, (Hall n) by lia. apply IH. intros i Hi. apply Hall. lia.
Qed.

Lemma max_falloff_factor_sentinel_witness :
  max_falloff_factor
    (sculpt_expand_update_max_falloff_factor demo_host
       (set_falloff_factor demo_cache [F32.FLT_MAX; F32.FLT_MAX]))
  = neg_FLT_MAX.
Proof.
  apply (max_falloff_factor_sentinel demo_host
           (set_falloff_factor demo_cache [F32.FLT_MAX; F32.FLT_MAX])).
  intros i Hi. destruct i as [|[|i]]; [reflexivity | reflexivity | simpl in Hi; lia].
Defined.

(** *** The spherical falloff without an origin *)

Lemma for_range_skip {S : Type} (body : nat -> S -> S) (s : S) n :
  (forall i t, (i < n)%nat -> body i t = t) -> for_range n body s = s.
Proof.
  induction n as [|n IH]; intros H; [reflexivity|].
  rewrite for_range_S, H by lia. apply IH. intros i t Hi. apply H. lia.
Qed.

(** X19.  When no valid symmetry iteration resolves to a vertex
    (the origin is -1 and no flipped position finds one), the spherical
    falloff is [FLT_MAX] at every vertex. *)
Theorem spherical_without_origin (m : Mesh) (vertex : Z) :
  (forall k, (k <= symm m)%nat ->
     is_symmetry_iteration_valid m k (symm m) = true ->
     symmetry_origin m vertex k = -1) ->
  sculpt_expand_spherical_falloff_create m vertex
  = replicate (totvert m) F32.FLT_MAX.
Proof.
  intros H. unfold sculpt_expand_spherical_falloff_create.
  apply for_range_skip. intros k d Hk.
  destruct (is_symmetry_iteration_valid m k (symm m)) eqn:Hv; [|reflexivity].
  cbn [negb]. rewrite (H k) by (lia || exact Hv). reflexivity.
Qed.

Lemma spherical_without_origin_witness :
  sculpt_expand_spherical_falloff_create edge_mesh (-1)
  = replicate (totvert edge_mesh) F32.FLT_MAX.
Proof.
  apply (spherical_without_origin edge_mesh (-1)).
  intros k Hk _. destruct k as [|[|k]]; [reflexivity | reflexivity | simpl in Hk; lia].
Defined.

(** *** The mask update *)

Lemma state_get_face_sets h ss ss' c i :
  face_sets ss' = face_sets ss ->
  sculpt_expand_state_get h ss' c i = sculpt_expand_state_get h ss c i.
Proof. intros H. unfold sculpt_expand_state_get. rewrite H. reflexivity. Qed.

Lemma aget_insert_eq (l : list F32.float) i a :
  (i < length l)%nat -> aget (<[i := a]> l) i = a.
Proof. intros H. unfold aget. rewrite list_lookup_insert_eq by exact H. reflexivity. Qed.

Lemma aget_insert_ne (l : list F32.float) i j a :
  i <> j -> aget (<[i := a]> l) j = aget l j.
Proof. intros H. unfold aget. rewrite list_lookup_insert_ne by exact H. reflexivity. Qed.

Lemma aget_ext (l l' : list F32.float) :
  length l = length l' -> (forall i, aget l i = aget l' i) -> l = l'.
Proof.
  intros Hlen H. apply list_eq. intros i.
  destruct (Nat.lt_ge_cases i (length l)) as [Hi|Hi].
  - destruct (lookup_lt_is_Some_2 l i Hi) as [a Ha].
    destruct (lookup_lt_is_Some_2 l' i ltac:(lia)) as [b Hb].
    specialize (H i). unfold aget in H. rewrite Ha, Hb in H. cbn in H.
    rewrite Ha, Hb. congruence.
  - rewrite !lookup_ge_None_2 by lia. reflexivity.
Qed.

Lemma session_ext (a b : SculptSession) :
  vmask a = vmask b -> face_sets a = face_sets b -> vcol a = vcol b ->
  active_vertex a = active_vertex b -> active_face_index a = active_face_index b ->
  expand_cache a = expand_cache b -> a = b.
Proof. destruct a, b. cbn. intros. subst. reflexivity. Qed.

(** The mask that the update computes for vertex [i], before it is
    compared with the current value and clamped. *)
Lemma mask_update_spec h c ss :
  let new_mask := fun i =>
    let m := if sculpt_expand_state_get h ss c i
             then sculpt_expand_gradient_falloff_get c i else F32.zero in
    if preserve c then F32.max_ff m (aget (initial_mask c) i) else m in
  let value := fun i old =>
    if F32.eqb (new_mask i) old then old else clamp_f (new_mask i) F32.zero F32.one in
  (totvert (mesh h) <= length (vmask ss))%nat ->
  let r := sculpt_expand_mask_update h c ss in
  face_sets r = face_sets ss /\ vcol r = vcol ss
  /\ active_vertex r = active_vertex ss
  /\ active_face_index r = active_face_index ss
  /\ expand_cache r = expand_cache ss
  /\ length (vmask r) = length (vmask ss)
  /\ forall i, aget (vmask r) i =
       if (i <? totvert (mesh h))%nat then value i (aget (vmask ss) i)
       else aget (vmask ss) i.
Proof.
  cbn zeta. unfold sculpt_expand_mask_update.
  induction (totvert (mesh h)) as [|n IH]; intros Hn.
  - cbn. repeat split; reflexivity.
  - rewrite for_range_S.
    destruct IH as (Hfs & Hvc & Hav & Haf & Hec & Hlen & Hget); [lia|].
    set (r := for_range n _ ss) in *.
    rewrite (state_get_face_sets h ss r c n Hfs).
    set (nm := if preserve c then _ else _).
    assert (Haget : aget (vmask r) n = aget (vmask ss) n).
    { rewrite Hget. destruct (Nat.ltb_spec n n); [lia | reflexivity]. }
    rewrite Haget.
    destruct (F32.eqb nm (aget (vmask ss) n)) eqn:Heq.
    + repeat split; try assumption. intros i. rewrite Hget.
      destruct (Nat.eq_dec i n) as [-> | Hne].
      * destruct (Nat.ltb_spec n n); [lia|]. destruct (Nat.ltb_spec n (S n)); [|lia].
        fold nm. rewrite Heq. reflexivity.
      * destruct (Nat.ltb_spec i n), (Nat.ltb_spec i (S n)); try lia; reflexivity.
    + destruct r as [rv rf rc ra rai re].
      cbn [vmask face_sets vcol active_vertex active_face_index expand_cache set_vmask] in *.
      repeat split; try assumption.
      * rewrite length_insert. exact Hlen.
      * intros i. destruct (Nat.eq_dec i n) as [-> | Hne].
        -- destruct (Nat.ltb_spec n (S n)); [|lia].
           fold nm. rewrite Heq. apply aget_insert_eq. lia.
        -- rewrite aget_insert_ne by congruence. rewrite Hget.
           destruct (Nat.ltb_spec i n), (Nat.ltb_spec i (S n)); try lia; reflexivity.
Qed.

Lemma clamp_f_unit (v : F32.float) :
  in_unit_interval (clamp_f v F32.zero F32.one) = true
  \/ clamp_f v F32.zero F32.one = S754_nan.
Proof.
  assert (Hnum : v = S754_nan \/ F32.leb v v = true).
  { destruct v as [s|s| |s m e];
      [right; destruct s; reflexivity | right; destruct s; reflexivity | left; reflexivity|].
    right. apply (leb_refl _ (S754_infinity false)). destruct s; reflexivity. }
  destruct Hnum as [-> | Hvv]; [right; reflexivity|]. left.
  unfold clamp_f.
  destruct (F32.ltb F32.one v) eqn:Hhi; [reflexivity|].
  destruct (F32.ltb v F32.zero) eqn:Hlo; [reflexivity|].
  unfold in_unit_interval. apply andb_true_iff. split.
  - apply (ltb_false_leb v F32.zero v F32.zero Hvv eq_refl Hlo).
  - apply (ltb_false_leb F32.one v F32.one v eq_refl Hvv Hhi).
Qed.

(** X20.  The mask update is idempotent: a second update with the same
    cache leaves the session as the first update left it. *)
Theorem mask_update_idempotent (h : Host) (c : ExpandCache) (ss : SculptSession) :
  (totvert (mesh h) <= length (vmask ss))%nat ->
  sculpt_expand_mask_update h c (sculpt_expand_mask_update h c ss)
  = sculpt_expand_mask_update h c ss.
Proof.
  intros Hn.
  destruct (mask_update_spec h c ss Hn) as (Hfs & Hvc & Hav & Haf & Hec & Hlen & Hget).
  set (r := sculpt_expand_mask_update h c ss) in *.
  destruct (mask_update_spec h c r ltac:(lia))
    as (Hfs' & Hvc' & Hav' & Haf' & Hec' & Hlen' & Hget').
  apply session_ext; try congruence.
  apply aget_ext; [exact Hlen'|]. intros i. rewrite Hget', Hget.
  rewrite (state_get_face_sets h ss r c i Hfs).
  destruct (i <? totvert (mesh h))%nat; [|reflexivity].
  set (nm := if preserve c then _ else _).
  destruct (F32.eqb nm (aget (vmask ss) i)) eqn:E.
  - rewrite E. reflexivity.
  - destruct (F32.eqb nm (clamp_f nm F32.zero F32.one)); reflexivity.
Qed.

Lemma mask_update_idempotent_witness :
  sculpt_expand_mask_update demo_host demo_cache
    (sculpt_expand_mask_update demo_host demo_cache demo_running)
  = sculpt_expand_mask_update demo_host demo_cache demo_running.
Proof.
  apply (mask_update_idempotent demo_host demo_cache demo_running).
  simpl. lia.
Defined.

(** X21.  The mask update writes values of [0, 1] only: after it the
    mask of a vertex is what it was, or lies in [0, 1], or is a NaN (which
    [clamp_f] lets through). *)
Theorem mask_update_range (h : Host) (c : ExpandCache) (ss : SculptSession) (i : nat) :
  (totvert (mesh h) <= length (vmask ss))%nat ->
  let r := sculpt_expand_mask_update h c ss in
  aget (vmask r) i = aget (vmask ss) i
  \/ in_unit_interval (aget (vmask r) i) = true
  \/ aget (vmask r) i = S754_nan.
Proof.
  intros Hn. cbn zeta.
  destruct (mask_update_spec h c ss Hn) as (_ & _ & _ & _ & _ & _ & Hget).
  rewrite Hget. destruct (i <? totvert (mesh h))%nat; [|auto].
  set (nm := if preserve c then _ else _).
  destruct (F32.eqb nm (aget (vmask ss) i)); [auto|].
  right. apply clamp_f_unit.
Qed.

Lemma mask_update_range_witness :
  let r := sculpt_expand_mask_update demo_host demo_cache demo_running in
  aget (vmask r) 0 = aget (vmask demo_running) 0
  \/ in_unit_interval (aget (vmask r) 0) = true
  \/ aget (vmask r) 0 = S754_nan.
Proof.
  apply (mask_update_range demo_host demo_cache demo_running 0).
  simpl. lia.
Defined.

(** X22.  Without gradient and without preserve, the mask after the
    update compares equal to 1.0 on the enabled vertices and to 0.0 on the
    others; the face sets and the colors are kept. *)
Theorem mask_update_binary (h : Host) (c : ExpandCache) (ss : SculptSession) (i : nat) :
  preserve c = false -> falloff_gradient c = false ->
  (totvert (mesh h) <= length (vmask ss))%nat ->
  (i < totvert (mesh h))%nat ->
  let r := sculpt_expand_mask_update h c ss in
  F32.eqb (if sculpt_expand_state_get h ss c i then F32.one else F32.zero)
    (aget (vmask r) i) = true
  /\ face_sets r = face_sets ss /\ vcol r = vcol ss.
Proof.
  intros Hp Hg Hn Hi. cbn zeta.
  destruct (mask_update_spec h c ss Hn) as (Hfs & Hvc & _ & _ & _ & _ & Hget).
  split; [|auto]. rewrite Hget.
  destruct (Nat.ltb_spec i (totvert (mesh h))); [|lia].
  rewrite Hp. unfold sculpt_expand_gradient_falloff_get. rewrite Hg. cbn [negb].
  destruct (sculpt_expand_state_get h ss c i).
  - destruct (F32.eqb F32.one (aget (vmask ss) i)) eqn:E; [exact E | reflexivity].
  - destruct (F32.eqb F32.zero (aget (vmask ss) i)) eqn:E; [exact E | reflexivity].
Qed.

Lemma mask_update_binary_witness :
  let r := sculpt_expand_mask_update demo_host demo_cache demo_running in
  F32.eqb (if sculpt_expand_state_get demo_host demo_running demo_cache 0
           then F32.one else F32.zero)
    (aget (vmask r) 0) = true
  /\ face_sets r = face_sets demo_running /\ vcol r = vcol demo_running.
Proof.
  apply (mask_update_binary demo_host demo_cache demo_running 0).
  - reflexivity.
  - reflexivity.
  - simpl. lia.
  - simpl. lia.
Defined.

(** *** The face sets: snapshot, restore, update *)



Lemma face_sets_restore_spec h c ss :
  length (face_sets ss) = totfaces h ->
  sculpt_expand_face_sets_restore h c ss
  = set_face_sets ss (map (fun i => iget (initial_face_sets c) i) (seq 0 (totfaces h))).
Proof.
  intros Hlen. unfold sculpt_expand_face_sets_restore.
  assert (H : forall n, (n <= totfaces h)%nat ->
    for_range n
      (fun i ss => set_face_sets ss (<[i := iget (initial_face_sets c) i]> (face_sets ss)))
      ss
    = set_face_sets ss
        (map (fun i => iget (initial_face_sets c) i) (seq 0 n)
         ++ drop n (face_sets ss))).
  { induction n as [|n IH]; intros Hn.
    - cbn. destruct ss. reflexivity.
    - rewrite for_range_S, IH by lia. destruct ss as [vm fs vc av af ec].
      cbn [set_face_sets face_sets vmask vcol active_vertex active_face_index
           expand_cache] in *.
      f_equal. rewrite seq_S, map_app. cbn [map]. rewrite Nat.add_0_l.
      rewrite insert_app_r_alt by (rewrite length_map, length_seq; lia).
      rewrite length_map, length_seq, Nat.sub_diag.
      rewrite <- app_assoc. f_equal.
      destruct (drop n fs) as [|a rest] eqn:Ed.
      + apply (f_equal length) in Ed. rewrite length_drop in Ed. cbn in Ed. lia.
      + cbn. f_equal. 
        change rest with (drop 1 (a :: rest)). rewrite <- Ed, drop_drop.
        f_equal. lia. }
  rewrite H by lia. rewrite drop_ge by lia. rewrite app_nil_r. reflexivity.
Qed.

Lemma face_state_get_face_sets ss ss' c f :
  face_sets ss' = face_sets ss ->
  sculpt_expand_face_state_get ss' c f = sculpt_expand_face_state_get ss c f.
Proof. intros H. unfold sculpt_expand_face_state_get. rewrite H. reflexivity. Qed.

(** The face sets after [sculpt_expand_face_sets_update] are a function of
    the face sets before it; the other channels are kept. *)
Lemma face_sets_update_ext h c ss ss' :
  face_sets ss = face_sets ss' ->
  let r := sculpt_expand_face_sets_update h c ss in
  let r' := sculpt_expand_face_sets_update h c ss' in
  face_sets r = face_sets r'
  /\ length (face_sets r) = length (face_sets ss)
  /\ vmask r = vmask ss /\ vcol r = vcol ss.
Proof.
  intros Hfs. cbn zeta. unfold sculpt_expand_face_sets_update.
  induction (totfaces h) as [|n IH]; [cbn; auto|].
  rewrite !for_range_S. destruct IH as (IH & Hlen & Hvm & Hvc).
  set (r := for_range n _ ss) in *. set (r' := for_range n _ ss') in *.
  rewrite (face_state_get_face_sets r' r c n) by congruence.
  destruct (sculpt_expand_face_state_get r' c n); cbn [negb]; [|auto].
  destruct (preserve c); cbn [set_face_sets face_sets vmask vcol];
    rewrite IH, length_insert; rewrite <- IH; auto.
Qed.

(** X23.  With the face sets as the target,
    [sculpt_expand_update_for_vertex] restores the snapshot before it paints:
    the face sets after the update do not depend on the face sets before it,
    so a repeated update gives the same face sets; the mask and the colors
    are kept. *)
Theorem face_sets_update_from_snapshot (h : Host) (ss ss' : SculptSession)
        (c : ExpandCache) (vertex : Z) :
  target c = SCULPT_EXPAND_TARGET_FACE_SETS ->
  length (face_sets ss) = totfaces h ->
  length (face_sets ss') = totfaces h ->
  let r := sculpt_expand_update_for_vertex h ss c vertex in
  face_sets r = face_sets (sculpt_expand_update_for_vertex h ss' c vertex)
  /\ face_sets (sculpt_expand_update_for_vertex h r c vertex) = face_sets r
  /\ vmask r = vmask ss /\ vcol r = vcol ss.
Proof.
  intros Ht Hlen Hlen'. cbn zeta.
  assert (Hgen : forall s1 s2,
            length (face_sets s1) = totfaces h -> length (face_sets s2) = totfaces h ->
            let r1 := sculpt_expand_update_for_vertex h s1 c vertex in
            face_sets r1 = face_sets (sculpt_expand_update_for_vertex h s2 c vertex)
            /\ length (face_sets r1) = totfaces h
            /\ vmask r1 = vmask s1 /\ vcol r1 = vcol s1).
  { intros s1 s2 H1 H2. cbn zeta. unfold sculpt_expand_update_for_vertex.
    set (c' := if vertex =? SCULPT_EXPAND_VERTEX_NONE then _ else _).
    assert (Ht' : target c' = SCULPT_EXPAND_TARGET_FACE_SETS)
      by (unfold c'; destruct (vertex =? SCULPT_EXPAND_VERTEX_NONE); exact Ht).
    rewrite Ht'. rewrite !face_sets_restore_spec by assumption.
    destruct (face_sets_update_ext h c'
                (set_face_sets s1 (map (fun i => iget (initial_face_sets c') i)
                                     (seq 0 (totfaces h))))
                (set_face_sets s2 (map (fun i => iget (initial_face_sets c') i)
                                     (seq 0 (totfaces h)))))
      as (Heq & Hl & Hvm & Hvc); [reflexivity|].
    cbn [set_expand_cache face_sets vmask vcol].
    split; [exact Heq|]. split; [|split].
    - rewrite Hl. cbn [set_face_sets face_sets]. rewrite length_map, length_seq.
      reflexivity.
    - rewrite Hvm. destruct s1; reflexivity.
    - rewrite Hvc. destruct s1; reflexivity. }
  destruct (Hgen ss ss' Hlen Hlen') as (H1 & H2 & H3 & H4).
  split; [exact H1|]. split; [|auto].
  destruct (Hgen (sculpt_expand_update_for_vertex h ss c vertex) ss H2 Hlen) as (H5 & _).
  exact H5.
Qed.

Lemma face_sets_update_from_snapshot_witness :
  let r := sculpt_expand_update_for_vertex pair_host (pair_session [2; 1])
             pair_cache 1 in
  face_sets r
  = face_sets (sculpt_expand_update_for_vertex pair_host (pair_session [3; 3])
                 pair_cache 1)
  /\ face_sets (sculpt_expand_update_for_vertex pair_host r pair_cache 1) = face_sets r
  /\ vmask r = vmask (pair_session [2; 1]) /\ vcol r = vcol (pair_session [2; 1]).
Proof.
  apply (face_sets_update_from_snapshot pair_host (pair_session [2; 1])
           (pair_session [3; 3]) pair_cache 1); reflexivity.
Defined.



(** *** The modal handler *)

(** X25.  Only a pointer move and the confirm item paint: on every
    other event [sculpt_expand_modal] keeps the mask, the face sets and the
    colors and goes on running. *)
Theorem modal_keys_do_not_paint (h : Host) (ss : SculptSession) (event : wmEvent) :
  ev_type event <> MOUSEMOVE ->
  (ev_type event = EVT_MODAL_MAP -> ev_val event <> SCULPT_EXPAND_MODAL_CONFIRM) ->
  mesh_channels (fst (sculpt_expand_modal h ss event)) = mesh_channels ss
  /\ snd (sculpt_expand_modal h ss event) = OPERATOR_RUNNING_MODAL.
Proof.
  intros Hmove Hconfirm. unfold sculpt_expand_modal,
    sculpt_expand_target_vertex_update_and_get.
  destruct ss as [vm fs vc av af ec].
  destruct (SCULPT_cursor_geometry_info_update h (event_mouse event)) as [[v f]|];
    cbn [expand_cache];
    (destruct ec as [c|]; [|split; reflexivity]);
    (destruct (ev_type event) eqn:Et; [|congruence|split; reflexivity]);
    (destruct (ev_val event) eqn:Ev; [exfalso; apply Hconfirm; reflexivity|..]);
    try (split; reflexivity);
    try (destruct (snap c); split; reflexivity);
    try (destruct (move c); split; reflexivity).
Qed.

Lemma modal_keys_do_not_paint_witness :
  mesh_channels (fst (sculpt_expand_modal demo_host demo_running
                        (demo_key SCULPT_EXPAND_MODAL_RECURSION_STEP)))
  = mesh_channels demo_running
  /\ snd (sculpt_expand_modal demo_host demo_running
            (demo_key SCULPT_EXPAND_MODAL_RECURSION_STEP))
     = OPERATOR_RUNNING_MODAL.
Proof.
  apply (modal_keys_do_not_paint demo_host demo_running
           (demo_key SCULPT_EXPAND_MODAL_RECURSION_STEP)).
  - simpl. discriminate.
  - simpl. discriminate.
Defined.

(** X26.  The invert, preserve and gradient items are toggles: the same
    item twice leaves the cache and the mesh channels as they were. *)
Theorem modal_toggle_twice (h : Host) (ss : SculptSession) (c : ExpandCache)
        (k : modal_key) (p : Z * Z) :
  expand_cache ss = Some c ->
  k = SCULPT_EXPAND_MODAL_INVERT \/ k = SCULPT_EXPAND_MODAL_PRESERVE_TOGGLE
  \/ k = SCULPT_EXPAND_MODAL_GRADIENT_TOGGLE ->
  let event := mkEvent EVT_MODAL_MAP k p in
  expand_cache (run_modal h ss [event; event]) = Some c
  /\ mesh_channels (run_modal h ss [event; event]) = mesh_channels ss.
Proof.
  intros Hc Hk. destruct ss as [vm fs vc av af ec]. cbn in Hc. subst ec.
  cbn zeta. unfold run_modal, sculpt_expand_modal,
    sculpt_expand_target_vertex_update_and_get.
  cbn [ev_type ev_val mval event_mouse].
  destruct c.
  destruct (SCULPT_cursor_geometry_info_update h _) as [[v f]|];
    destruct Hk as [-> | [-> | ->]]; cbn; rewrite negb_involutive; split; reflexivity.
Qed.

Lemma modal_toggle_twice_witness :
  let event := mkEvent EVT_MODAL_MAP SCULPT_EXPAND_MODAL_INVERT (1, 0) in
  expand_cache (run_modal demo_host demo_running [event; event]) = Some demo_cache
  /\ mesh_channels (run_modal demo_host demo_running [event; event])
     = mesh_channels demo_running.
Proof.
  apply (modal_toggle_twice demo_host demo_running demo_cache
           SCULPT_EXPAND_MODAL_INVERT (1, 0)).
  - reflexivity.
  - left. reflexivity.
Defined.

(** X27.  The confirm item applies one last update at the cursor and
    frees the cache: the operator finishes, and the mesh channels are those
    that a pointer move to the same position gives (when the origin is not
    being moved and snapping is off). *)
Theorem modal_confirm_applies_last_update (h : Host) (ss : SculptSession)
        (c : ExpandCache) (k : modal_key) (p : Z * Z) :
  expand_cache ss = Some c -> move c = false -> snap c = false ->
  let confirm :=
    sculpt_expand_modal h ss (mkEvent EVT_MODAL_MAP SCULPT_EXPAND_MODAL_CONFIRM p) in
  let moved := sculpt_expand_modal h ss (mkEvent MOUSEMOVE k p) in
  snd confirm = OPERATOR_FINISHED
  /\ expand_cache (fst confirm) = None
  /\ mesh_channels (fst confirm) = mesh_channels (fst moved).
Proof.
  intros Hc Hmove Hsnap. destruct ss as [vm fs vc av af ec]. cbn in Hc. subst ec.
  cbn zeta. unfold sculpt_expand_modal, sculpt_expand_target_vertex_update_and_get.
  cbn [ev_type ev_val mval event_mouse].
  destruct (SCULPT_cursor_geometry_info_update h _) as [[v f]|];
    cbn [expand_cache fst snd]; rewrite Hmove, Hsnap; cbn [fst snd];
    (split; [reflexivity|]); split; reflexivity.
Qed.

Lemma modal_confirm_applies_last_update_witness :
  let confirm :=
    sculpt_expand_modal demo_host demo_running
      (mkEvent EVT_MODAL_MAP SCULPT_EXPAND_MODAL_CONFIRM (1, 0)) in
  let moved :=
    sculpt_expand_modal demo_host demo_running
      (mkEvent MOUSEMOVE SCULPT_EXPAND_MODAL_CONFIRM (1, 0)) in
  snd confirm = OPERATOR_FINISHED
  /\ expand_cache (fst confirm) = None
  /\ mesh_channels (fst confirm) = mesh_channels (fst moved).
Proof.
  apply (modal_confirm_applies_last_update demo_host demo_running demo_cache
           SCULPT_EXPAND_MODAL_CONFIRM (1, 0)); reflexivity.
Defined.





(** *** Erasing a face set id: what is rewritten *)

Lemma iget_insert_eq (l : list Z) i a : (i < length l)%nat -> iget (<[i := a]> l) i = a.
Proof. intros H. unfold iget. rewrite list_lookup_insert_eq by exact H. reflexivity. Qed.

Lemma iget_insert_ne (l : list Z) i j a : i <> j -> iget (<[i := a]> l) j = iget l j.
Proof. intros H. unfold iget. rewrite list_lookup_insert_ne by exact H. reflexivity. Qed.

(** The faces that the erasure starts from: those below [totface] that
    carry the id, face 0 last. *)
Lemma delete_queue_spec (face_sets : list Z) (delete_id : Z) totface :
  let queue :=
    for_range totface
      (fun i queue => if iget face_sets i =? delete_id then i :: queue else queue) [] in
  (forall f, f ∈ queue <-> ((f < totface)%nat /\ iget face_sets f = delete_id))
  /\ exists pre tail, queue = pre ++ tail /\ (O ∉ pre) /\ (tail = [] \/ tail = [O]).
Proof.
  cbn zeta. induction totface as [|n IH].
  - cbn. split.
    + intros f. split; [intros H; inversion H | intros [H _]; lia].
    + exists [], []. split; [reflexivity|]. split; [|auto]. intros H. inversion H.
  - rewrite for_range_S. destruct IH as (Hmem & pre & tail & Hq & Hpre & Htail).
    set (q := for_range n _ []) in *.
    destruct (Z.eqb_spec (iget face_sets n) delete_id) as [Hc|Hc].
    + split.
      * intros f. rewrite elem_of_cons, Hmem. split.
        -- intros [-> | [H1 H2]]; [split; [lia | exact Hc] | split; [lia | exact H2]].
        -- intros [H1 H2]. destruct (Nat.eq_dec f n) as [-> | Hne]; [auto|].
           right. split; [lia | exact H2].
      * destruct n as [|n].
        -- exists [], [O]. cbn in Hq |- *.
           destruct pre; [|discriminate]. cbn in Hq. subst tail.
           split; [reflexivity|]. split; [|auto]. intros H. inversion H.
        -- exists (S n :: pre), tail. rewrite Hq. split; [reflexivity|].
           split; [|exact Htail]. rewrite not_elem_of_cons. split; [lia | exact Hpre].
    + split.
      * intros f. rewrite Hmem. split.
        -- intros [H1 H2]. split; [lia | exact H2].
        -- intros [H1 H2]. destruct (Nat.eq_dec f n) as [-> | Hne]; [congruence|].
           split; [lia | exact H2].
      * exists pre, tail. auto.
Qed.

Lemma delete_pass_spec (mesh : PolyMesh) (delete_id : Z) queue :
  forall face_sets queue_next,
  let r := delete_face_set_pass mesh delete_id queue face_sets queue_next in
  length (snd (fst r)) = length face_sets
  /\ (forall f, snd (fst r) !! f = face_sets !! f
                \/ (f ∈ queue /\ f <> O /\ iget (snd (fst r)) f <> delete_id))
  /\ (forall f, f ∈ fst (fst r) -> f ∈ queue)
  /\ (forall f, f ∈ snd r -> f ∈ queue \/ f ∈ queue_next).
Proof.
  induction queue as [|f_index queue IH]; intros face_sets queue_next;
    cbn [delete_face_set_pass].
  - cbn. repeat split; auto; intros f H; inversion H.
  - destruct (Nat.eqb_spec f_index 0) as [Hz|Hz].
    + cbn. repeat split; auto; intros f H; apply elem_of_cons; auto.
    + set (other_id := face_other_id mesh face_sets delete_id f_index).
      destruct (Z.eqb_spec other_id delete_id) as [Ho|Ho]; cbn [negb].
      * destruct (IH face_sets (f_index :: queue_next)) as (Hl & Hget & Hq & Hn).
        split; [exact Hl|]. split; [|split].
        -- intros f. destruct (Hget f) as [H|(H1 & H2 & H3)]; [auto|].
           right. split; [apply elem_of_cons; auto | auto].
        -- intros f H. apply elem_of_cons. auto.
        -- intros f H. apply Hn in H as [H|H]; [left; apply elem_of_cons; auto|].
           apply elem_of_cons in H as [-> | H]; [left; apply elem_of_cons; auto | auto].
      * destruct (IH (<[f_index := other_id]> face_sets) queue_next)
          as (Hl & Hget & Hq & Hn).
        rewrite length_insert in Hl.
        split; [exact Hl|]. split; [|split].
        -- intros f. destruct (Hget f) as [H|(H1 & H2 & H3)].
           ++ destruct (Nat.eq_dec f f_index) as [-> | Hne].
              ** destruct (Nat.lt_ge_cases f_index (length face_sets)) as [Hin|Hout].
                 --- right. split; [apply elem_of_cons; auto|]. split; [exact Hz|].
                     unfold iget. rewrite H.
                     rewrite list_lookup_insert_eq by exact Hin. exact Ho.
                 --- left. rewrite H. rewrite list_insert_ge by exact Hout. reflexivity.
              ** left. rewrite H. apply list_lookup_insert_ne. congruence.
           ++ right. split; [apply elem_of_cons; auto | auto].
        -- intros f H. apply elem_of_cons. auto.
        -- intros f H. apply Hn in H as [H|H]; [left; apply elem_of_cons; auto | auto].
Qed.

Lemma delete_loop_spec (mesh : PolyMesh) (delete_id : Z) fuel :
  forall queue face_sets queue_next r,
  delete_face_set_loop fuel mesh delete_id queue face_sets queue_next = Some r ->
  length r = length face_sets
  /\ forall f, r !! f = face_sets !! f
               \/ ((f ∈ queue \/ f ∈ queue_next) /\ f <> O /\ iget r f <> delete_id).
Proof.
  induction fuel as [|fuel IH]; intros queue face_sets queue_next r Hr.
  - destruct queue; [|discriminate]. injection Hr as <-. auto.
  - destruct queue as [|f0 queue]; [injection Hr as <-; auto|].
    cbn [delete_face_set_loop] in Hr.
    destruct (delete_pass_spec mesh delete_id (f0 :: queue) face_sets queue_next)
      as (Hl & Hget & Hq & Hn).
    destruct (delete_face_set_pass mesh delete_id (f0 :: queue) face_sets queue_next)
      as [[q' fs'] qn'].
    cbn [fst snd] in Hl, Hget, Hq, Hn.
    destruct (IH qn' fs' q' r Hr) as (Hl' & Hget').
    split; [congruence|]. intros f.
    destruct (Hget' f) as [H|([H|H] & H2 & H3)].
    + destruct (Hget f) as [H'|(H1 & H2 & H3)]; [left; congruence|].
      right. split; [auto|]. split; [exact H2|]. unfold iget in *. rewrite H. exact H3.
    + right. split; [apply Hn; exact H | auto].
    + right. split; [left; apply Hq; exact H | auto].
Qed.

(** X29.  Whenever [sculpt_expand_delete_face_set_id] returns, it has
    rewritten only faces that carried the id, never face 0 (whose index ends
    the inner loop when it is popped), and never with the id itself; the
    other faces keep their ids. *)
Theorem delete_face_set_id_rewrites_carriers (fuel : nat) (mesh : PolyMesh)
        (face_sets : list Z) (totface : nat) (delete_id : Z) (r : list Z) :
  sculpt_expand_delete_face_set_id fuel mesh face_sets totface delete_id = Some r ->
  length r = length face_sets
  /\ forall f, r !! f = face_sets !! f
               \/ ((0 < f < totface)%nat /\ iget face_sets f = delete_id
                   /\ iget r f <> delete_id).
Proof.
  unfold sculpt_expand_delete_face_set_id. intros Hr.
  destruct (delete_queue_spec face_sets delete_id totface) as (Hmem & _).
  destruct (delete_loop_spec mesh delete_id fuel _ _ _ r Hr) as (Hl & Hget).
  split; [exact Hl|]. intros f.
  destruct (Hget f) as [H|([H|H] & H2 & H3)]; [auto | | inversion H].
  right. apply Hmem in H as [H H']. split; [lia | auto].
Qed.

Lemma delete_face_set_id_rewrites_carriers_witness :
  length [2; 2] = length [2; 1]
  /\ forall f, [2; 2] !! f = [2; 1] !! f
               \/ ((0 < f < 2)%nat /\ iget [2; 1] f = 1 /\ iget [2; 2] f <> 1).
Proof.
  apply (delete_face_set_id_rewrites_carriers 1 pair_polys [2; 1] 2 1 [2; 2]).
  reflexivity.
Defined.

(** *** Erasing a face set id: when it ends *)

Lemma fold_other_id (face_sets : list Z) (delete_id : Z) (l : list nat) :
  forall other_id,
  fold_left
    (fun other_id neighbor_face_index =>
       if negb (iget face_sets neighbor_face_index =? delete_id)
       then iget face_sets neighbor_face_index else other_id)
    l other_id <> delete_id
  <-> other_id <> delete_id
      \/ exists nf, nf ∈ l /\ iget face_sets nf <> delete_id.
Proof.
  induction l as [|a l IH]; intros other_id; cbn [fold_left].
  - split; [auto|]. intros [H|(nf & H & _)]; [exact H | inversion H].
  - rewrite IH. destruct (Z.eqb_spec (iget face_sets a) delete_id) as [Ha|Ha];
      cbn [negb].
    + split.
      * intros [H|(nf & H1 & H2)]; [auto|].
        right. exists nf. split; [apply elem_of_cons; auto | exact H2].
      * intros [H|(nf & H1 & H2)]; [auto|].
        apply elem_of_cons in H1 as [-> | H1]; [contradiction|].
        right. exists nf. auto.
    + split; [|auto]. intros _. right. exists a. split; [apply elem_of_cons; auto | exact Ha].
Qed.

(** A face has another id next to it when one of the faces around one of
    its vertices does not carry the id. *)
Lemma face_other_id_spec (mesh : PolyMesh) (face_sets : list Z) (delete_id : Z) f :
  face_other_id mesh face_sets delete_id f <> delete_id
  <-> exists l nf,
        (l < totloop (default (mkPoly 0 0) (mpoly mesh !! f)))%nat
        /\ nf ∈ default [] (pmap mesh !!
                   default O (mloop mesh !!
                     (loopstart (default (mkPoly 0 0) (mpoly mesh !! f)) + l)%nat))
        /\ iget face_sets nf <> delete_id.
Proof.
  unfold face_other_id. set (c_poly := default (mkPoly 0 0) (mpoly mesh !! f)).
  set (body := fun (l : nat) (other_id : Z) => fold_left _ _ other_id).
  assert (H : forall n other_id,
    for_range n body other_id <> delete_id
    <-> other_id <> delete_id
        \/ exists l nf, (l < n)%nat
             /\ nf ∈ default [] (pmap mesh !!
                        default O (mloop mesh !! (loopstart c_poly + l)%nat))
             /\ iget face_sets nf <> delete_id).
  { induction n as [|n IH]; intros other_id.
    - cbn. split; [auto|]. intros [H|(l & nf & H & _)]; [exact H | lia].
    - rewrite for_range_S. unfold body at 1. rewrite fold_other_id, IH. split.
      + intros [[H|(l & nf & H1 & H2)]|(nf & H1 & H2)]; [auto| |].
        * right. exists l, nf. split; [lia | auto].
        * right. exists n, nf. split; [lia | auto].
      + intros [H|(l & nf & H1 & H2 & H3)]; [auto|].
        destruct (Nat.eq_dec l n) as [-> | Hne].
        * right. exists nf. auto.
        * left. right. exists l, nf. split; [lia | auto]. }
  rewrite H. split; [|auto]. intros [Hc|Hex]; [congruence | exact Hex].
Qed.

Lemma face_other_id_mono (mesh : PolyMesh) (face_sets face_sets' : list Z)
      (delete_id : Z) f :
  (forall g, iget face_sets g <> delete_id -> iget face_sets' g <> delete_id) ->
  face_other_id mesh face_sets delete_id f <> delete_id ->
  face_other_id mesh face_sets' delete_id f <> delete_id.
Proof.
  intros Hmono. rewrite !face_other_id_spec.
  intros (l & nf & H1 & H2 & H3). exists l, nf. auto.
Qed.

(** A pass over faces that all have another id next to them rewrites each
    of them and queues none for the next pass. *)
Lemma delete_pass_progress (mesh : PolyMesh) (delete_id : Z) pre tail :
  forall face_sets queue_next,
  O ∉ pre -> tail = [] \/ tail = [O] ->
  (forall f, f ∈ pre ->
     (f < length face_sets)%nat
     /\ face_other_id mesh face_sets delete_id f <> delete_id) ->
  exists face_sets',
    delete_face_set_pass mesh delete_id (pre ++ tail) face_sets queue_next
    = ([], face_sets', queue_next)
    /\ length face_sets' = length face_sets
    /\ (forall g, iget face_sets g <> delete_id -> iget face_sets' g <> delete_id)
    /\ forall f, f ∈ pre -> iget face_sets' f <> delete_id.
Proof.
  induction pre as [|f pre IH]; intros face_sets queue_next Hzero Htail Hpre.
  - exists face_sets. split.
    + destruct Htail as [-> | ->]; reflexivity.
    + split; [reflexivity|]. split; [auto|]. intros f H. inversion H.
  - apply not_elem_of_cons in Hzero as [Hf Hzero].
    destruct (Hpre f ltac:(apply elem_of_cons; auto)) as [Hin Hother].
    cbn [app delete_face_set_pass].
    destruct (Nat.eqb_spec f 0) as [Hz|_]; [congruence|].
    set (other_id := face_other_id mesh face_sets delete_id f) in *.
    destruct (Z.eqb_spec other_id delete_id) as [Ho|_]; [contradiction|]. cbn [negb].
    assert (Hmono : forall g, iget face_sets g <> delete_id ->
                              iget (<[f := other_id]> face_sets) g <> delete_id).
    { intros g Hg. destruct (Nat.eq_dec f g) as [<- | Hne].
      - rewrite iget_insert_eq by exact Hin. exact Hother.
      - rewrite iget_insert_ne by exact Hne. exact Hg. }
    destruct (IH (<[f := other_id]> face_sets) queue_next Hzero Htail)
      as (fs' & Hpass & Hlen & Hmono' & Hdone).
    { intros g Hg. rewrite length_insert.
      destruct (Hpre g ltac:(apply elem_of_cons; auto)) as [H1 H2].
      split; [exact H1|]. apply (face_other_id_mono mesh face_sets _ _ _ Hmono H2). }
    exists fs'. split; [exact Hpass|]. rewrite length_insert in Hlen.
    split; [exact Hlen|]. split; [auto|].
    intros g Hg. apply elem_of_cons in Hg as [-> | Hg]; [|auto].
    apply Hmono'. rewrite iget_insert_eq by exact Hin. exact Hother.
Qed.

(** X30.  When every face that carries the id, face 0 apart, has a
    face with another id around one of its vertices,
    [sculpt_expand_delete_face_set_id] ends after one pass and no face but
    face 0 carries the id afterwards. *)
Theorem delete_face_set_id_one_pass (fuel : nat) (mesh : PolyMesh)
        (face_sets : list Z) (totface : nat) (delete_id : Z) :
  (totface <= length face_sets)%nat ->
  (forall f, (0 < f < totface)%nat -> iget face_sets f = delete_id ->
     face_other_id mesh face_sets delete_id f <> delete_id) ->
  (1 <= fuel)%nat ->
  exists r,
    sculpt_expand_delete_face_set_id fuel mesh face_sets totface delete_id = Some r
    /\ length r = length face_sets
    /\ forall f, (0 < f < totface)%nat -> iget r f <> delete_id.
Proof.
  intros Hlen Hother Hfuel. unfold sculpt_expand_delete_face_set_id.
  destruct (delete_queue_spec face_sets delete_id totface)
    as (Hmem & pre & tail & Hq & Hzero & Htail).
  rewrite Hq in Hmem |- *. 
  destruct (delete_pass_progress mesh delete_id pre tail face_sets [] Hzero Htail)
    as (fs' & Hpass & Hl & Hmono & Hdone).
  { intros f Hf. assert (Hf' : f ∈ pre ++ tail) by (apply elem_of_app; auto).
    apply Hmem in Hf' as [H1 H2]. split; [lia|].
    apply Hother; [|exact H2]. split; [|exact H1].
    destruct f; [contradiction | lia]. }
  exists fs'. destruct fuel as [|fuel]; [lia|]. split; [|split; [exact Hl|]].
  - destruct (pre ++ tail) as [|f0 q] eqn:Eq.
    + cbn in Hpass. injection Hpass as <-. reflexivity.
    + cbn [delete_face_set_loop]. rewrite Hpass. destruct fuel; reflexivity.
  - intros f Hf. destruct (Z.eq_dec (iget face_sets f) delete_id) as [Hc|Hc].
    + apply Hdone. assert (Hf' : f ∈ pre ++ tail) by (apply Hmem; split; [lia | exact Hc]).
      apply elem_of_app in Hf' as [H|H]; [exact H|].
      destruct Htail as [-> | ->]; [inversion H|].
      apply list_elem_of_singleton in H. lia.
    + apply Hmono. exact Hc.
Qed.

Lemma delete_face_set_id_one_pass_witness :
  exists r,
    sculpt_expand_delete_face_set_id 1 pair_polys [2; 1] 2 1 = Some r
    /\ length r = length [2; 1]
    /\ forall f, (0 < f < 2)%nat -> iget r f <> 1.
Proof.
  apply (delete_face_set_id_one_pass 1 pair_polys [2; 1] 2 1).
  - simpl. lia.
  - intros f Hf _. assert (Hf1 : f = 1%nat) by lia. subst f. vm_compute. discriminate.
  - lia.
Defined.

End ExpandFacts.
